(** * Face-analysis pipeline: detector post-processing, emotion decision
      rule and result aggregation.

    Shallow embedding of

      - [Services/FaceAnalysis/emotion_predictor.py]  (module [EmotionPredictor])
      - [Services/FaceDetection/inference.py]         (module [FaceDetection])
      - [StreamingFaceAnalysis.py]                    (module [StreamingFaceAnalysis])
      - [Services/FaceAnalysis/gender_age_predictor.py] (module [GenderAgePredictor])
      - [Services/utils/transform.py]                 (module [Transform])

    Numbers.  The Python code computes on float32 / float64 values.  They
    are idealised here as exact rationals ([Q]): every arithmetic step is
    the exact one, there is no rounding, no infinity and no NaN.  Python
    [int] is [Z].  Comparisons that the code takes on floats are taken on
    [Q] with the boolean tests [Qle_bool] / [Qlt_bool].  [np.exp] is an
    external library function and is a parameter of the definitions that
    call it.

    Rounding.  Where the program decides by comparing a computed float
    with a threshold (the suppression mask of line 95, the score mask of
    line 167, the confidence test of the emotion classifier, the age
    edges after [np.round]), float32 rounding can decide otherwise than
    the exact comparison when the two values are within rounding of each
    other: 0.99999999 is 1.0 in float32, and float32(0.65) is below 0.65.
    The statements on such decisions therefore keep a margin: thresholds
    of at most 0.999999, age products at least 0.01 away from an edge, a
    leading logit at least 0.001 ahead, coordinates small enough for no
    product to overflow.  Inside the margin the exact comparison and the
    float32 comparison agree.

    Arrays.  A two-dimensional array is a list of rows.  Reading a
    column that a row does not have gives 0 here; the arrays of the
    program have a fixed width (16 columns of raw offsets, 17 columns per
    detection, 4 per anchor), which the statements that depend on it
    assume.

    Loops.  The [while] loop of the suppression is a recursion on an
    iteration bound; it yields [None] when the bound is used up before
    the loop condition fails. *)

From Stdlib Require Import ZArith QArith Qround Qminmax Qabs Qpower Lqa Lia.
From Stdlib Require Import String Bool Arith List Sorted Permutation.
Import ListNotations.

Local Open Scope Q_scope.

(* ===================================================================== *)
(** * Python values, exceptions and an error monad *)
(* ===================================================================== *)

(** The exceptions the modelled code can raise. *)
Inductive exn : Type :=
| IndexError
| TypeError
| ValueError.

(** A computation either returns a value or raises. *)
Inductive result (A : Type) : Type :=
| Ok (a : A)
| Raise (e : exn).

Arguments Ok {A} a.
Arguments Raise {A} e.

Definition bind {A B : Type} (m : result A) (k : A -> result B) : result B :=
  match m with
  | Ok a => k a
  | Raise e => Raise e
  end.

Notation "x <- m ;; k" := (bind m (fun x => k))
  (at level 61, m at next level, right associativity).

(** Run [f] on the elements from left to right; the first exception wins. *)
Fixpoint mapM {A B : Type} (f : A -> result B) (l : list A) : result (list B) :=
  match l with
  | [] => Ok []
  | a :: t => b <- f a ;; bs <- mapM f t ;; Ok (b :: bs)
  end.

(** A value that is an [int] or a [str] at run time: the first component
    of an emotion result. *)
Inductive pyval : Type :=
| PyInt (z : Z)
| PyStr (s : string).

(** [l[i]] on a Python list: a negative index counts from the end, an
    index outside [-len, len) raises [IndexError]. *)
Definition py_getitem {A : Type} (l : list A) (i : Z) : result A :=
  let n := Z.of_nat (length l) in
  let j := if (i <? 0)%Z then (i + n)%Z else i in
  if ((0 <=? j) && (j <? n))%Z then
    match nth_error l (Z.to_nat j) with
    | Some a => Ok a
    | None => Raise IndexError
    end
  else Raise IndexError.

(* ===================================================================== *)
(** * Numeric helpers *)
(* ===================================================================== *)

Definition Qlt_bool (x y : Q) : bool := negb (Qle_bool y x).

(** Python's [max(a, b)] and [min(a, b)] on floats: the first argument
    is returned unless the second is strictly larger (smaller). *)
Definition py_max (a b : Q) : Q := if Qlt_bool a b then b else a.
Definition py_min (a b : Q) : Q := if Qlt_bool b a then b else a.

(** [np.clip(x, lo, hi)] is [minimum(maximum(x, lo), hi)]. *)
Definition np_clip (x lo hi : Q) : Q := py_min (py_max x lo) hi.

(** [np.clip(x, a_min=lo, a_max=None)]. *)
Definition np_clip_min (x lo : Q) : Q := py_max x lo.

(** [int(x)] on a float: truncation toward zero. *)
Definition py_int (x : Q) : Z := Z.quot (Qnum x) (Zpos (Qden x)).

(** [round(x)] on a Python float: nearest integer, ties to even. *)
Definition py_round (x : Q) : Z :=
  let f := Qfloor x in
  let r := x - inject_Z f in
  if Qlt_bool r (1 # 2) then f
  else if Qlt_bool (1 # 2) r then (f + 1)%Z
  else if Z.even f then f else (f + 1)%Z.

(** [np.sum] of a vector. *)
Definition np_sum (l : list Q) : Q := fold_left Qplus l 0.

(** [np.max] of a non-empty vector. *)
Definition np_max (l : list Q) : Q :=
  match l with
  | [] => 0
  | x :: t => fold_left py_max t x
  end.

(** [np.argmax]: the index of the first occurrence of the maximum;
    [ValueError] on an empty vector. *)
Fixpoint argmax_from (best : nat) (bestv : Q) (i : nat) (l : list Q) : nat :=
  match l with
  | [] => best
  | x :: t =>
      if Qlt_bool bestv x then argmax_from i x (S i) t
      else argmax_from best bestv (S i) t
  end.

Definition np_argmax (l : list Q) : result nat :=
  match l with
  | [] => Raise ValueError
  | x :: t => Ok (argmax_from 0 x 1 t)
  end.

(* ===================================================================== *)
(** * emotion_predictor.py *)
(* ===================================================================== *)

Module EmotionPredictor.

(** [self.classes] *)
Definition classes : list string :=
  ["angry"; "disgust"; "fear"; "happy"; "sad"; "surprise"; "neutral"]%string.

(** One entry of the list returned by [postprocess]:
    [(emotion_label, confidence, probability)]. *)
Definition emotion_result : Type := (pyval * Q * list Q)%type.

(** Body of the loop [for probability in probs] (lines 77-85). *)
Definition postprocess_row (probability : list Q) : result emotion_result :=
  label <- np_argmax probability ;;
  let confidence := nth label probability 0 in
  let emotion_index :=
    if Qlt_bool confidence (1 # 2) then (-1)%Z else Z.of_nat label in
  emotion_label <- py_getitem classes emotion_index ;;
  Ok (PyStr emotion_label, confidence, probability).

Section Softmax.

(** [np.exp], elementwise. *)
Variable exp : Q -> Q.

(** Lines 71-74 on one row: subtract the row maximum, exponentiate,
    divide by the row sum.  The code rounds each step to float32 (see
    Rounding above). *)
Definition softmax_row (logits : list Q) : list Q :=
  let m := np_max logits in
  let shifted := map (fun x => x - m) logits in
  let e := map exp shifted in
  let s := np_sum e in
  map (fun x => x / s) e.

(** [outputs.size] of a two-dimensional array. *)
Definition size (outputs : list (list Q)) : nat :=
  fold_right (fun row n => (length row + n)%nat) 0%nat outputs.

Definition postprocess (outputs : list (list Q)) : result (list emotion_result) :=
  if (size outputs =? 0)%nat then Ok []
  else
    let probs := map softmax_row outputs in
    mapM postprocess_row probs.

End Softmax.

End EmotionPredictor.

(* ===================================================================== *)
(** * Services/FaceDetection/inference.py *)
(* ===================================================================== *)

Module FaceDetection.

(** [@dataclass class Detection] *)
Record Detection : Type := mkDetection {
  box : Z * Z * Z * Z;
  score : Q;
  keypoints : list (Z * Z)
}.

(** One row of a two-dimensional float array. *)
Definition row : Type := list Q.

(** [r[i]] for an in-range column [i]. *)
Definition col (i : nat) (r : row) : Q := nth i r 0.

(** [a[i]] for an in-range row index [i]. *)
Definition row_at (i : nat) (a : list row) : row := nth i a [].

(** The attributes [__init__] sets from [back_model] (lines 43-59). *)
Record config : Type := mkConfig {
  image_size : Z;
  x_scale : Q;
  y_scale : Q;
  w_scale : Q;
  h_scale : Q;
  min_score_thresh : Q;
  score_clipping_thresh : Q;
  min_suppression_threshold : Q
}.

Definition init (back_model : bool) : config :=
  if back_model then
    mkConfig 256 256 256 256 256 (65 # 100) 100 (3 # 10)
  else
    mkConfig 128 128 128 128 128 (25 # 100) 100 (3 # 10).

(** ** IoU (lines 65-78) *)

(** [_intersect] for one row [b] of [box_b]. *)
Definition intersect1 (box_a b : row) : Q :=
  let max_xy0 := py_min (col 2 box_a) (col 2 b) in
  let max_xy1 := py_min (col 3 box_a) (col 3 b) in
  let min_xy0 := py_max (col 0 box_a) (col 0 b) in
  let min_xy1 := py_max (col 1 box_a) (col 1 b) in
  let inter0 := np_clip_min (max_xy0 - min_xy0) 0 in
  let inter1 := np_clip_min (max_xy1 - min_xy1) 0 in
  inter0 * inter1.

Definition _intersect (box_a : row) (box_b : list row) : list Q :=
  map (intersect1 box_a) box_b.

(** [area_a], and [area_b] for one row. *)
Definition area (b : row) : Q := (col 2 b - col 0 b) * (col 3 b - col 1 b).

(** [_jaccard] for one row [b] of [box_b]. *)
Definition jaccard1 (box_a b : row) : Q :=
  let inter := intersect1 box_a b in
  let area_a := area box_a in
  let area_b := area b in
  let union := area_a + area_b - inter in
  inter / np_clip_min union (1 # 1000000).

Definition _jaccard (box_a : row) (box_b : list row) : list Q :=
  map (jaccard1 box_a) box_b.

(** ** Weighted non-max suppression (lines 80-110) *)

(** [a[mask]] with a boolean mask. *)
Fixpoint select {A : Type} (mask : list bool) (a : list A) : list A :=
  match mask, a with
  | m :: ms, x :: xs => if m then x :: select ms xs else select ms xs
  | _, _ => []
  end.

(** [np.argsort]: the indices that sort [keys] in ascending order.
    Equal keys keep their index order (NumPy promises no particular
    order among them). *)
Fixpoint insert_sorted (key : nat -> Q) (i : nat) (l : list nat) : list nat :=
  match l with
  | [] => [i]
  | j :: t =>
      if Qle_bool (key i) (key j) then i :: j :: t
      else j :: insert_sorted key i t
  end.

Definition np_argsort (keys : list Q) : list nat :=
  fold_right (insert_sorted (fun i => nth i keys 0)) [] (seq 0 (length keys)).

(** Elementwise sum of two vectors. *)
Definition vec_add (a b : list Q) : list Q :=
  map (fun p => fst p + snd p) (combine a b).

(** [np.sum(m, axis=0)] of a matrix with [width] columns. *)
Definition sum_axis0 (width : nat) (m : list row) : list Q :=
  fold_left vec_add m (repeat 0 width).

(** Lines 99-106: the detection appended to [output] in one round. *)
Definition weighted_detection_of
    (detections : list row) (detection : row) (overlapping : list nat) : row :=
  if (1 <? length overlapping)%nat then
    let coordinates := map (fun i => firstn 16 (row_at i detections)) overlapping in
    let scores := map (fun i => col 16 (row_at i detections)) overlapping in
    let total_score := np_sum scores in
    let products :=
      map (fun cs => map (fun c => c * snd cs) (fst cs)) (combine coordinates scores) in
    let weighted := map (fun c => c / total_score) (sum_axis0 16 products) in
    weighted
      ++ [total_score / inject_Z (Z.of_nat (length overlapping))]
      ++ skipn 17 detection
  else detection.

(** Lines 91-97: the mask of one round, for a non-empty [remaining].
    The code compares in float32, which rounds the threshold (see
    Rounding above). *)
Definition round_mask
    (detections : list row) (thr : Q) (remaining : list nat) : list bool :=
  let detection := row_at (hd 0%nat remaining) detections in
  let other_boxes := map (fun i => firstn 4 (row_at i detections)) remaining in
  let ious := _jaccard (firstn 4 detection) other_boxes in
  map (fun iou => Qlt_bool thr iou) ious.

(** One iteration of the [while] loop: the new [remaining] and the
    detection appended to [output]. *)
Definition wnms_round
    (detections : list row) (thr : Q) (remaining : list nat) : list nat * row :=
  let detection := row_at (hd 0%nat remaining) detections in
  let mask := round_mask detections thr remaining in
  let overlapping := select mask remaining in
  let remaining' := select (map negb mask) remaining in
  (remaining', weighted_detection_of detections detection overlapping).

(** The [while remaining.size > 0] loop.  [fuel] bounds the number of
    iterations; [None] means the bound was reached with [remaining]
    still non-empty. *)
Fixpoint wnms_loop (fuel : nat) (detections : list row) (thr : Q)
    (remaining : list nat) (output : list row) : option (list row) :=
  match remaining with
  | [] => Some output
  | _ :: _ =>
      match fuel with
      | O => None
      | S fuel' =>
          let '(remaining', weighted_detection) :=
            wnms_round detections thr remaining in
          wnms_loop fuel' detections thr remaining' (output ++ [weighted_detection])
      end
  end.

(** [a.size] of a two-dimensional array. *)
Definition size (a : list row) : nat :=
  fold_right (fun r n => (length r + n)%nat) 0%nat a.

(** [remaining = np.argsort(detections[:, 16])[::-1]] *)
Definition initial_remaining (detections : list row) : list nat :=
  rev (np_argsort (map (col 16) detections)).

Definition _weighted_non_max_suppression
    (fuel : nat) (detections : list row) (min_suppression_threshold : Q)
    : option (list row) :=
  if (size detections =? 0)%nat then Some []
  else wnms_loop fuel detections min_suppression_threshold
         (initial_remaining detections) [].

(** ** Anchor decoding (lines 112-136) *)

(** One row of [boxes]: columns 0-3 hold the box, columns 4-15 the six
    keypoints; columns the code never assigns keep the zero of
    [np.zeros_like].  The detector's rows have 16 columns; on a row with
    fewer the code raises [IndexError] where this reads 0, and the
    statements are about rows of 16 columns. *)
Definition decode_row (cfg : config) (anchor raw : row) : row :=
  let x_center := col 0 raw / x_scale cfg * col 2 anchor + col 0 anchor in
  let y_center := col 1 raw / y_scale cfg * col 3 anchor + col 1 anchor in
  let w := col 2 raw / w_scale cfg * col 2 anchor in
  let h := col 3 raw / h_scale cfg * col 3 anchor in
  let keypoint (k : nat) : list Q :=
    let offset := (4 + k * 2)%nat in
    let keypoint_x :=
      col offset raw / x_scale cfg * col 2 anchor + col 0 anchor in
    let keypoint_y :=
      col (offset + 1) raw / y_scale cfg * col 3 anchor + col 1 anchor in
    [keypoint_x; keypoint_y] in
  [y_center - h / 2; x_center - w / 2; y_center + h / 2; x_center + w / 2]
    ++ flat_map keypoint (seq 0 6)
    ++ repeat 0 (length raw - 16).

(** [_decode_boxes]: the column arithmetic pairs row [i] of [raw_boxes]
    with row [i] of [self.anchors]; arrays of different length do not
    broadcast into [boxes]. *)
Definition _decode_boxes (cfg : config) (anchors raw_boxes : list row)
    : result (list row) :=
  if (length raw_boxes =? length anchors)%nat then
    Ok (map (fun p => decode_row cfg (fst p) (snd p)) (combine anchors raw_boxes))
  else Raise ValueError.

(** ** Pixel scaling and box refinement (lines 198-281) *)

(** [int(np.clip(v * dim, 0, dim - 1))] *)
Definition to_pixel (v : Q) (dim : Z) : Z :=
  py_int (np_clip (v * inject_Z dim) 0 (inject_Z (dim - 1))).

(** Lines 226-232. *)
Definition is_highly_tilted (left_gap right_gap : Z) : bool :=
  if ((0 <? right_gap) && (0 <? left_gap))%Z then
    if Qlt_bool (inject_Z right_gap * 2) (inject_Z left_gap)
       || Qlt_bool (inject_Z left_gap * 2) (inject_Z right_gap)
    then true else false
  else false.

Definition left_gap_of (tight_points : list (Z * Z)) : Z :=
  Z.abs (fst (nth 4 tight_points (0, 0)%Z) - fst (nth 0 tight_points (0, 0)%Z)).

Definition right_gap_of (tight_points : list (Z * Z)) : Z :=
  Z.abs (fst (nth 5 tight_points (0, 0)%Z) - fst (nth 1 tight_points (0, 0)%Z)).

(** Lines 224 and 239-263: the horizontal span of a face that is not
    tilted.  ([eye_width] of line 225 is computed and never read.) *)
Definition tightened_span (width : Z) (tight_points : list (Z * Z)) : Z * Z :=
  let left_anchor := nth 4 tight_points (0, 0)%Z in
  let right_anchor := nth 5 tight_points (0, 0)%Z in
  let anchor_width := py_max (inject_Z (fst right_anchor - fst left_anchor)) 1 in
  let anchor_center_x := inject_Z (fst left_anchor + fst right_anchor) / 2 in
  let shrink_factor := 95 # 100 in
  let half_width := py_max (anchor_width * shrink_factor * (1 # 2)) 1 in
  let base_xmin := anchor_center_x - half_width in
  let base_xmax := anchor_center_x + half_width in
  let nose_x := inject_Z (fst (nth 2 tight_points (0, 0)%Z)) in
  let width_span := py_max (base_xmax - base_xmin) 1 in
  let centered_xmin := nose_x - width_span / 2 in
  let centered_xmax := nose_x + width_span / 2 in
  let centered_xmin := py_max centered_xmin 0 in
  let centered_xmax := py_min centered_xmax (inject_Z (width - 1)) in
  let span := centered_xmax - centered_xmin in
  let '(centered_xmin, centered_xmax) :=
    if Qlt_bool span width_span then
      let deficit := width_span - span in
      (py_max (centered_xmin - deficit / 2) 0,
       py_min (centered_xmax + deficit / 2) (inject_Z (width - 1)))
    else (centered_xmin, centered_xmax) in
  let xmin_int := py_round centered_xmin in
  let xmax_int := py_round centered_xmax in
  let xmin_int := Z.max xmin_int 0 in
  let xmax_int := Z.max xmax_int (xmin_int + 1) in
  let xmax_int := Z.min xmax_int (width - 1) in
  let xmin_int := Z.min xmin_int (xmax_int - 1) in
  (xmin_int, xmax_int).

(** Body of [for detection in detections] (lines 202-270).  The
    [print] of line 234 only writes to standard output. *)
Definition detect_one (width height : Z) (detection : row) : Detection :=
  let ymin := col 0 detection in
  let xmin := col 1 detection in
  let ymax := col 2 detection in
  let xmax := col 3 detection in
  let xmin := to_pixel xmin width in
  let xmax := to_pixel xmax width in
  let ymin := to_pixel ymin height in
  let ymax := to_pixel ymax height in
  let keypoints :=
    map (fun k => (to_pixel (col (4 + k * 2) detection) width,
                   to_pixel (col (5 + k * 2) detection) height))
        (seq 0 6) in
  let tight_points := keypoints in
  let box :=
    if (6 <=? length tight_points)%nat then
      let left_gap := left_gap_of tight_points in
      let right_gap := right_gap_of tight_points in
      let highly_tilted := is_highly_tilted left_gap right_gap in
      if highly_tilted then (xmin, ymin, xmax, ymax)
      else
        let '(xmin_int, xmax_int) := tightened_span width tight_points in
        (xmin_int, ymin, xmax_int, ymax)
    else (xmin, ymin, xmax, ymax) in
  mkDetection box (col 16 detection) keypoints.

(** The [results] list of [detect], from the output of [_postprocess]
    and the frame's [height, width]. *)
Definition detect_results (width height : Z) (detections : list row)
    : list Detection :=
  map (detect_one width height) detections.


(** ** Score path, thresholding and the whole of [detect] (lines 61-63, 154-196) *)

Section Postprocess.

(** [np.exp] *)
Variable exp : Q -> Q.

(** [_sigmoid], on one entry. *)
Definition _sigmoid (x : Q) : Q := 1 / (1 + exp (- x)).

(** [_postprocess].  [raw_scores] is the score vector after the
    [reshape(-1)] of lines 162-163.  The outer [option] is [None] when
    the suppression loop does not end within [fuel] iterations; indexing
    [decoded_boxes] with a mask of another length raises.  The code
    takes the comparison of line 167 in float32, which rounds the
    threshold (see Rounding above). *)
Definition _postprocess (cfg : config) (anchors : list row) (fuel : nat)
    (raw_boxes : list row) (raw_scores : list Q)
    (min_score_thresh nms_threshold : Q) : option (result (list row)) :=
  let raw_scores :=
    map (fun s => np_clip s (- score_clipping_thresh cfg) (score_clipping_thresh cfg))
        raw_scores in
  let detection_scores := map _sigmoid raw_scores in
  let mask := map (fun s => Qle_bool min_score_thresh s) detection_scores in
  match _decode_boxes cfg anchors raw_boxes with
  | Raise e => Some (Raise e)
  | Ok decoded_boxes =>
      if negb (length mask =? length decoded_boxes)%nat then Some (Raise IndexError)
      else
        let boxes := select mask decoded_boxes in
        let scores := select mask detection_scores in
        if (size boxes =? 0)%nat then Some (Ok [])
        else
          let detections := map (fun p => fst p ++ [snd p]) (combine boxes scores) in
          option_map Ok (_weighted_non_max_suppression fuel detections nms_threshold)
  end.

(** [detect], from the two arrays [_infer] returns and the frame's
    [width] and [height]. *)
Definition detect (cfg : config) (anchors : list row) (fuel : nat)
    (width height : Z) (raw_boxes : list row) (raw_scores : list Q)
    (score_threshold nms_threshold : option Q) : option (result (list Detection)) :=
  let score_thresh :=
    match score_threshold with Some t => t | None => min_score_thresh cfg end in
  let nms_thresh :=
    match nms_threshold with Some t => t | None => min_suppression_threshold cfg end in
  match _postprocess cfg anchors fuel raw_boxes raw_scores score_thresh nms_thresh with
  | None => None
  | Some (Raise e) => Some (Raise e)
  | Some (Ok detections) => Some (Ok (detect_results width height detections))
  end.

End Postprocess.

(** ** Notions used in the statements about this module *)

(** A box whose corners are in order: [b[0] <= b[2]] and [b[1] <= b[3]]. *)
Definition ordered (b : row) : Prop := col 0 b <= col 2 b /\ col 1 b <= col 3 b.

(** A detection row whose box has its corners in order and an area of
    at least 1e-6. *)
Definition boxed (d : row) : Prop :=
  ordered (firstn 4 d) /\ (1 # 1000000) <= area (firstn 4 d).

(** A detection row whose four box coordinates are at most 1e9 in
    magnitude, so that no float32 product of lines 66-78 overflows. *)
Definition in_range (d : row) : Prop :=
  forall j, (j < 4)%nat -> Qabs (col j d) <= 1000000000.

(** Whether detection [i] overlaps the candidate [c] by more than the
    threshold: the entry of the round's mask for [i]. *)
Definition overlaps (detections : list row) (thr : Q) (c i : nat) : bool :=
  Qlt_bool thr
    (jaccard1 (firstn 4 (row_at c detections)) (firstn 4 (row_at i detections))).

(** [remaining] lists indices by descending score. *)
Definition descending (detections : list row) (remaining : list nat) : Prop :=
  StronglySorted
    (fun i j => col 16 (row_at j detections) <= col 16 (row_at i detections))
    remaining.

(** Indices ordered by their keys. *)
Definition key_le (key : nat -> Q) (i j : nat) : Prop := key i <= key j.

(** The score-weighted average of coordinate [j] over [members], and
    the sum of the members' scores divided by their number. *)
Definition weighted_average (detections : list row) (members : list nat) (j : nat) : Q :=
  np_sum (map (fun i => col j (row_at i detections) * col 16 (row_at i detections))
              members)
  / np_sum (map (fun i => col 16 (row_at i detections)) members).

Definition mean_score (detections : list row) (members : list nat) : Q :=
  np_sum (map (fun i => col 16 (row_at i detections)) members)
  / inject_Z (Z.of_nat (length members)).

End FaceDetection.

(* ===================================================================== *)
(** * StreamingFaceAnalysis.py *)
(* ===================================================================== *)

Module StreamingFaceAnalysis.

(** [@dataclass class AggregatedFaceResult]; an [Optional] field that
    holds [None] is [None] here. *)
Record AggregatedFaceResult : Type := mkAggregated {
  bbox : Z * Z * Z * Z;
  score : Q;
  keypoints : list (Z * Z);
  gender : option string;
  age_bucket : option string;
  emotion_label : option pyval;
  emotion_confidence : option Q;
  emotion_distribution : option (list Q)
}.

(** Lines 114-118: the conditional expression that resolves
    [label_idx] against [self.emotion_labels].  The chained comparison
    [0 <= label_idx < len(...)] is only evaluated when a label list is
    configured, and comparing an [int] with a [str] raises. *)
Definition resolve_label
    (emotion_labels : option (list string)) (label_idx : pyval) : result pyval :=
  match emotion_labels with
  | None => Ok label_idx
  | Some labels =>
      match label_idx with
      | PyStr _ => Raise TypeError
      | PyInt z =>
          if ((0 <=? z) && (z <? Z.of_nat (length labels)))%Z then
            name <- py_getitem labels z ;; Ok (PyStr name)
          else Ok (PyInt z)
      end
  end.

Section Analyze.

(** [self.emotion_labels] *)
Variable emotion_labels : option (list string).

(** What [self.gender_age.predict] and [self.emotion.predict]
    returned for the frame. *)
Variable gender_age_results : list (string * string).
Variable emotion_results : list EmotionPredictor.emotion_result.

(** Body of [for idx, det in enumerate(detections)] (lines 104-133). *)
Definition aggregate_one (idx : nat) (det : FaceDetection.Detection)
    : result AggregatedFaceResult :=
  let '(gender, age_bucket) :=
    if (idx <? length gender_age_results)%nat then
      let '(g, a) := nth idx gender_age_results (EmptyString, EmptyString) in
      (Some g, Some a)
    else (None, None) in
  emo <-
    (if (idx <? length emotion_results)%nat then
       let '(label_idx, confidence, distribution) :=
         nth idx emotion_results (PyInt 0, 0, []) in
       emotion_label <- resolve_label emotion_labels label_idx ;;
       Ok (Some emotion_label, Some confidence, Some distribution)
     else Ok (None, None, None)) ;;
  let '(emotion_label, emotion_conf, emotion_dist) := emo in
  Ok (mkAggregated
        (FaceDetection.box det) (FaceDetection.score det)
        (FaceDetection.keypoints det)
        gender age_bucket emotion_label emotion_conf emotion_dist).

(** Lines 102-133: the list [aggregated]. *)
Definition aggregate (detections : list FaceDetection.Detection)
    : result (list AggregatedFaceResult) :=
  mapM (fun p => aggregate_one (fst p) (snd p))
       (combine (seq 0 (length detections)) detections).

(** [analyze] after the detector and the two classifiers have run
    (lines 93-135), up to the [as_dict] rendering of each record. *)
Definition analyze (detections : list FaceDetection.Detection)
    : result (list AggregatedFaceResult) :=
  match detections with
  | [] => Ok []
  | _ :: _ => aggregate detections
  end.

End Analyze.


(** ** Rendering (lines 28-47, 135) *)

(** The dictionary [as_dict] returns; a key that holds [None] is [None]. *)
Record face_dict : Type := mkFaceDict {
  dict_bbox : Z * Z * Z * Z;            (* xmin, ymin, xmax, ymax *)
  dict_score : Q;
  dict_keypoints : list (Z * Z);        (* x, y *)
  dict_gender : option string;
  dict_age_bucket : option string;
  dict_emotion : option (pyval * option Q * option (list Q))
                                        (* label, confidence, distribution *)
}.

Definition as_dict (face : AggregatedFaceResult) : face_dict :=
  mkFaceDict (bbox face) (score face) (keypoints face)
    (gender face) (age_bucket face)
    (match emotion_label face with
     | Some label => Some (label, emotion_confidence face, emotion_distribution face)
     | None => None
     end).

(** The value of the key "faces" of the dictionary [analyze] returns. *)
Definition analyze_response
    (emotion_labels : option (list string))
    (gender_age_results : list (string * string))
    (emotion_results : list EmotionPredictor.emotion_result)
    (detections : list FaceDetection.Detection) : result (list face_dict) :=
  aggregated <- analyze emotion_labels gender_age_results emotion_results detections ;;
  Ok (map as_dict aggregated).

(** ** Notions used in the statements about this module *)

(** An emotion result is resolvable when no label list is configured or
    its label is an integer. *)
Definition resolvable (emotion_labels : option (list string))
    (r : EmotionPredictor.emotion_result) : Prop :=
  emotion_labels = None \/ exists z, fst (fst r) = PyInt z.

End StreamingFaceAnalysis.

(* ===================================================================== *)
(** * Services/FaceAnalysis/gender_age_predictor.py *)
(* ===================================================================== *)

Module GenderAgePredictor.

(** [self.classes], [self.age_range] *)
Definition classes : list string := ["female"; "male"]%string.
Definition age_range : list string := ["0-18"; "19-36"; "37-60"; "60+"]%string.

(** [name.startswith(prefixes)] with a tuple of prefixes. *)
Definition startswith (name : string) (prefixes : list string) : bool :=
  existsb (fun p => String.prefix p name) prefixes.

(** [_infer_normalization], from the names of the graph's nodes in graph
    order (an unnamed node has the empty name). *)
Definition _infer_normalization (node_names : list string) : Q * Q :=
  let '(find_sub, find_mul) :=
    fold_left
      (fun (flags : bool * bool) (name : string) =>
         let find_sub :=
           if startswith name ["Sub"; "_minus"; "bn_data"]%string then true
           else fst flags in
         let find_mul :=
           if startswith name ["Mul"; "_mul"; "bn_data"]%string then true
           else snd flags in
         (find_sub, find_mul))
      (firstn 8 node_names) (false, false) in
  if find_sub && find_mul then (0, 1) else (1275 # 10, 128).

(** [_age_label] *)
Definition _age_label (age_value : Z) : result string :=
  if (age_value <=? 18)%Z then py_getitem age_range 0
  else if (age_value <=? 36)%Z then py_getitem age_range 1
  else if (age_value <=? 60)%Z then py_getitem age_range 2
  else py_getitem age_range 3.

(** [pred[i]] on a one-dimensional array, for [i >= 0]. *)
Definition np_getitem (pred : list Q) (i : nat) : result Q :=
  match nth_error pred i with
  | Some x => Ok x
  | None => Raise IndexError
  end.

(** Body of the loop of [postprocess] (lines 101-105); [np.round] rounds
    ties to even.  The code rounds the product [pred[2] * 100] to
    float32 before [np.round] (see Rounding above). *)
Definition postprocess_row (pred : list Q) : result (string * string) :=
  gender <- np_argmax (firstn 2 pred) ;;
  gender_label <- py_getitem classes (Z.of_nat gender) ;;
  p2 <- np_getitem pred 2 ;;
  let age := py_round (p2 * 100) in
  age_bucket <- _age_label age ;;
  Ok (gender_label, age_bucket).

Definition postprocess (outputs : list (list Q)) : result (list (string * string)) :=
  mapM postprocess_row outputs.

(** Lines 56-60 of [preprocess]: the center and scale handed to
    [gender_age_transform] for one box [(x1, y1, x2, y2)]. *)
Definition crop_geometry (target_size : Z) (bbox : Q * Q * Q * Q) : (Q * Q) * Q :=
  let '(bx1, by1, bx2, by2) := bbox in
  let x1 := py_round bx1 in
  let y1 := py_round by1 in
  let x2 := py_round bx2 in
  let y2 := py_round by2 in
  let width := Z.max (x2 - x1) 1 in
  let height := Z.max (y2 - y1) 1 in
  let center := (inject_Z (x1 + x2) / 2, inject_Z (y1 + y2) / 2) in
  let scale := inject_Z target_size / (inject_Z (Z.max width height) * 1) in
  (center, scale).

End GenderAgePredictor.

(* ===================================================================== *)
(** * Services/utils/transform.py *)
(* ===================================================================== *)

Module Transform.

(** A 3 x 3 matrix in row-major order, and the 2 x 3 matrix of its first
    two rows ([params[0:2]]). *)
Definition matrix3 : Type := (Q * Q * Q) * (Q * Q * Q) * (Q * Q * Q).
Definition matrix23 : Type := (Q * Q * Q) * (Q * Q * Q).

Definition matmul3 (a b : matrix3) : matrix3 :=
  let '((a00, a01, a02), (a10, a11, a12), (a20, a21, a22)) := a in
  let '((b00, b01, b02), (b10, b11, b12), (b20, b21, b22)) := b in
  ((a00 * b00 + a01 * b10 + a02 * b20,
    a00 * b01 + a01 * b11 + a02 * b21,
    a00 * b02 + a01 * b12 + a02 * b22),
   (a10 * b00 + a11 * b10 + a12 * b20,
    a10 * b01 + a11 * b11 + a12 * b21,
    a10 * b02 + a11 * b12 + a12 * b22),
   (a20 * b00 + a21 * b10 + a22 * b20,
    a20 * b01 + a21 * b11 + a22 * b21,
    a20 * b02 + a21 * b12 + a22 * b22)).

(** The image of the point [(x, y)] under a 2 x 3 affine matrix. *)
Definition apply23 (m : matrix23) (p : Q * Q) : Q * Q :=
  let '((m00, m01, m02), (m10, m11, m12)) := m in
  (m00 * fst p + m01 * snd p + m02, m10 * fst p + m11 * snd p + m12).

Section Similarity.

(** [math.cos], [math.sin] and [np.pi]. *)
Variable cos : Q -> Q.
Variable sin : Q -> Q.
Variable pi : Q.

(** [skimage.transform.SimilarityTransform(scale, rotation, translation)]:
    the homogeneous matrix of a uniform scaling, a rotation and a
    translation; an argument left out is 1, 0 and (0, 0). *)
Definition SimilarityTransform (scale rotation : Q) (translation : Q * Q) : matrix3 :=
  ((scale * cos rotation, - (scale * sin rotation), fst translation),
   (scale * sin rotation, scale * cos rotation, snd translation),
   (0, 0, 1)).

(** [a + b] on transforms: [a] first, then [b]. *)
Definition then_ (a b : matrix3) : matrix3 := matmul3 b a.

(** [gender_age_transform]: the matrix it hands to [cv2.warpAffine]
    and returns. *)
Definition gender_age_transform
    (center : Q * Q) (output_size : Z) (scale rotation : Q) : matrix23 :=
  let rot := rotation * pi / 180 in
  let transform_scale := SimilarityTransform scale 0 (0, 0) in
  let cx := fst center * scale in
  let cy := snd center * scale in
  let transform_translate := SimilarityTransform 1 0 (-1 * cx, -1 * cy) in
  let transform_rotate := SimilarityTransform 1 rot (0, 0) in
  let transform_center :=
    SimilarityTransform 1 0 (inject_Z output_size / 2, inject_Z output_size / 2) in
  let transform :=
    then_ (then_ (then_ transform_scale transform_translate) transform_rotate)
          transform_center in
  let '(r0, r1, _) := transform in
  (r0, r1).

End Similarity.

(** ** [emotion_face_align] *)

(** Lines 49-60: the two eye points, left first. *)
Definition eye_points (bbox : Q * Q * Q * Q) (keypoints : option (list (Q * Q)))
    : (Q * Q) * (Q * Q) :=
  let '(x1, y1, x2, y2) := bbox in
  let width := py_max (x2 - x1) 1 in
  let height := py_max (y2 - y1) 1 in
  let given :=
    match keypoints with
    | Some kps => if (2 <=? length kps)%nat then Some kps else None
    | None => None
    end in
  match given with
  | Some kps =>
      let eyes := firstn 2 kps in
      let order := FaceDetection.np_argsort (map fst eyes) in
      let left_eye := nth (nth 0 order 0%nat) eyes (0, 0) in
      let right_eye := nth (nth 1 order 0%nat) eyes (0, 0) in
      (left_eye, right_eye)
  | None =>
      ((x1 + (3 # 10) * width, y1 + (4 # 10) * height),
       (x1 + (7 # 10) * width, y1 + (4 # 10) * height))
  end.

(** The image a crop is cut from. *)
Inductive crop_source : Type :=
| Rotated
| Frame.

(** The number of indices of [a[lo:hi]] on an axis of length [n]. *)
Definition slice_length (lo hi n : Z) : Z :=
  let norm (i : Z) := Z.max 0 (Z.min (if (i <? 0)%Z then i + n else i) n) in
  Z.max 0 (norm hi - norm lo).

(** Lines 74-95: the window handed to [cv2.resize], as
    [(source, (rx1, ry1, rx2, ry2))], for a frame of [frame_w] by
    [frame_h] pixels, the box [(x1, y1, x2, y2)] and the box center as
    the rotation matrix maps it. *)
Definition crop_window (frame_w frame_h : Z) (bbox : Q * Q * Q * Q)
    (rotated_center : Q * Q) (margin : Q) : crop_source * (Z * Z * Z * Z) :=
  let '(x1, y1, x2, y2) := bbox in
  let width := py_max (x2 - x1) 1 in
  let height := py_max (y2 - y1) 1 in
  let crop_size := py_max width height * margin in
  let half := crop_size / 2 in
  let rx1 := py_round (fst rotated_center - half) in
  let ry1 := py_round (snd rotated_center - half) in
  let rx2 := py_round (fst rotated_center + half) in
  let ry2 := py_round (snd rotated_center + half) in
  let rx1 := Z.max rx1 0 in
  let ry1 := Z.max ry1 0 in
  let rx2 := Z.min rx2 frame_w in
  let ry2 := Z.min ry2 frame_h in
  let '(rotated, (rx1, ry1, rx2, ry2)) :=
    if ((rx2 <=? rx1) || (ry2 <=? ry1))%Z then
      (Frame, (Z.max (py_round x1) 0, Z.max (py_round y1) 0,
               Z.min (py_round x2) frame_w, Z.min (py_round y2) frame_h))
    else (Rotated, (rx1, ry1, rx2, ry2)) in
  if ((slice_length ry1 ry2 frame_h =? 0) || (slice_length rx1 rx2 frame_w =? 0))%Z then
    (Frame, (Z.max (py_int x1) 0, Z.max (py_int y1) 0,
             Z.min (py_int x2) frame_w, Z.min (py_int y2) frame_h))
  else (rotated, (rx1, ry1, rx2, ry2)).

End Transform.

(* ===================================================================== *)
(** * Properties *)
(* ===================================================================== *)

(** ** Comparisons, [max], [min], [clip], [int] *)

Lemma Qlt_bool_iff (x y : Q) : Qlt_bool x y = true <-> x < y.
Proof.
  unfold Qlt_bool. rewrite negb_true_iff.
  split; intro H.
  - apply Qnot_le_lt. intro Hle. apply Qle_bool_iff in Hle. congruence.
  - destruct (Qle_bool y x) eqn:E; [|reflexivity].
    apply Qle_bool_iff in E. exfalso. apply (Qlt_not_le _ _ H E).
Qed.

Lemma Qlt_bool_false_iff (x y : Q) : Qlt_bool x y = false <-> y <= x.
Proof.
  unfold Qlt_bool. rewrite negb_false_iff. apply Qle_bool_iff.
Qed.

Lemma Qle_bool_false_iff (x y : Q) : Qle_bool x y = false <-> y < x.
Proof.
  rewrite <- Qlt_bool_iff. unfold Qlt_bool.
  destruct (Qle_bool x y); simpl; split; congruence.
Qed.

(** Case analysis on a boolean comparison, leaving the order fact. *)
Ltac case_Qlt x y :=
  let E := fresh "E" in
  destruct (Qlt_bool x y) eqn:E;
  [apply Qlt_bool_iff in E | apply Qlt_bool_false_iff in E].

Lemma py_max_spec (a b : Q) :
  (a < b /\ py_max a b = b) \/ (b <= a /\ py_max a b = a).
Proof. unfold py_max. case_Qlt a b; auto. Qed.

Lemma py_min_spec (a b : Q) :
  (b < a /\ py_min a b = b) \/ (a <= b /\ py_min a b = a).
Proof. unfold py_min. case_Qlt b a; auto. Qed.

Ltac case_max a b :=
  let H := fresh "Hm" in let E := fresh "Em" in
  destruct (py_max_spec a b) as [[H E]|[H E]]; rewrite ?E in *.

Ltac case_min a b :=
  let H := fresh "Hm" in let E := fresh "Em" in
  destruct (py_min_spec a b) as [[H E]|[H E]]; rewrite ?E in *.

Lemma np_clip_bounds (x lo hi : Q) :
  lo <= hi -> lo <= np_clip x lo hi /\ np_clip x lo hi <= hi.
Proof.
  intros Hlh. unfold np_clip.
  case_max x lo; case_min x hi; try case_min lo hi; split; lra.
Qed.

Lemma py_int_nonneg_floor (x : Q) : 0 <= x -> py_int x = Qfloor x.
Proof.
  intros Hx. unfold py_int, Qfloor. destruct x as [n d]. simpl.
  apply Z.quot_div_nonneg; [| reflexivity].
  unfold Qle in Hx. simpl in Hx. lia.
Qed.

Lemma py_int_bounds (x : Q) (n : Z) :
  0 <= x -> x <= inject_Z n -> (0 <= py_int x <= n)%Z.
Proof.
  intros H0 Hn. rewrite (py_int_nonneg_floor x H0). split.
  - change 0%Z with (Qfloor 0). apply Qfloor_resp_le. exact H0.
  - rewrite <- (Qfloor_Z n). apply Qfloor_resp_le. exact Hn.
Qed.

(** ** [np.argmax] *)

Lemma argmax_from_range (l : list Q) (best i : nat) (bestv : Q) :
  (best < i)%nat ->
  (argmax_from best bestv i l < i + length l)%nat.
Proof.
  revert best i bestv.
  induction l as [|x t IH]; intros best i bestv Hb; simpl.
  - lia.
  - destruct (Qlt_bool bestv x).
    + specialize (IH i (S i) x). lia.
    + specialize (IH best (S i) bestv). lia.
Qed.

Lemma np_argmax_in_range (l : list Q) (label : nat) :
  np_argmax l = Ok label -> (label < length l)%nat.
Proof.
  destruct l as [|x t]; simpl; intros H; [discriminate|].
  injection H as <-.
  pose proof (argmax_from_range t 0 1 x). lia.
Qed.

(** ** The error monad *)

Lemma mapM_ok {A B : Type} (f : A -> result B) (l : list A) :
  (forall x, In x l -> exists y, f x = Ok y) ->
  exists ys,
    mapM f l = Ok ys
    /\ length ys = length l
    /\ forall i x, nth_error l i = Some x ->
         exists y, nth_error ys i = Some y /\ f x = Ok y.
Proof.
  induction l as [|a t IH]; intros Hall.
  - exists []. simpl. repeat split. intros [|i] x; discriminate.
  - destruct (Hall a (or_introl eq_refl)) as [b Hb].
    destruct IH as (bs & Hbs & Hlen & Hnth).
    { intros x Hx. apply Hall. right. exact Hx. }
    exists (b :: bs). simpl. rewrite Hb. simpl. rewrite Hbs. simpl.
    repeat split; [congruence|].
    intros [|i] x Hx; simpl in *.
    + injection Hx as <-. exists b. auto.
    + apply Hnth. exact Hx.
Qed.

Lemma mapM_ok_In {A B : Type} (f : A -> result B) (l : list A) (ys : list B) :
  mapM f l = Ok ys ->
  forall y, In y ys -> exists x, In x l /\ f x = Ok y.
Proof.
  revert ys. induction l as [|a t IH]; intros ys Hm y Hy; simpl in Hm.
  - injection Hm as <-. contradiction.
  - destruct (f a) as [b|e] eqn:Hb; simpl in Hm; [|discriminate].
    destruct (mapM f t) as [bs|e] eqn:Hbs; simpl in Hm; [|discriminate].
    injection Hm as <-. destruct Hy as [<-|Hy].
    + exists a. split; [left; reflexivity | exact Hb].
    + destruct (IH bs eq_refl y Hy) as (x & Hx & Hfx).
      exists x. split; [right; exact Hx | exact Hfx].
Qed.

Lemma mapM_raise_head {A B : Type} (f : A -> result B) (a : A) (t : list A) (e : exn) :
  f a = Raise e -> mapM f (a :: t) = Raise e.
Proof. intros H. simpl. rewrite H. reflexivity. Qed.

Lemma py_getitem_in_range {A : Type} (l : list A) (z : Z) (d : A) :
  (0 <= z < Z.of_nat (length l))%Z ->
  py_getitem l z = Ok (nth (Z.to_nat z) l d).
Proof.
  intros Hz. unfold py_getitem.
  destruct (Z.ltb_spec z 0); [lia|].
  destruct (Z.leb_spec 0 z); [|lia].
  destruct (Z.ltb_spec z (Z.of_nat (length l))); [|lia].
  simpl.
  destruct (nth_error l (Z.to_nat z)) eqn:Hn.
  - f_equal. symmetry. apply nth_error_nth. exact Hn.
  - apply nth_error_None in Hn. lia.
Qed.

(** ** Emotion decision rule *)

Module EmotionPredictorFacts.
Import EmotionPredictor.

Lemma classes_last : py_getitem classes (-1) = Ok "neutral"%string.
Proof. reflexivity. Qed.

(** Whatever [postprocess_row] returns carries a class name, a [str]. *)
Lemma postprocess_row_label_is_str (probability : list Q) (r : emotion_result) :
  postprocess_row probability = Ok r ->
  exists name, fst (fst r) = PyStr name /\ In name classes.
Proof.
  unfold postprocess_row.
  destruct (np_argmax probability) as [label|e] eqn:Ha; simpl; [|discriminate].
  set (idx := if Qlt_bool _ _ then _ else _).
  destruct (py_getitem classes idx) as [name|e] eqn:Hg; simpl; [|discriminate].
  intros H. injection H as <-. exists name. split; [reflexivity|].
  unfold py_getitem in Hg.
  destruct (_ && _)%bool; [|discriminate].
  destruct (nth_error classes _) eqn:Hn; [|discriminate].
  injection Hg as <-. apply nth_error_In in Hn. exact Hn.
Qed.

(** The low-confidence branch of [postprocess_row]. *)
Lemma postprocess_row_low (probability : list Q) :
  probability <> [] ->
  (forall p, In p probability -> p < 1 # 2) ->
  exists confidence,
    postprocess_row probability
      = Ok (PyStr "neutral", confidence, probability)
    /\ confidence < 1 # 2.
Proof.
  intros Hne Hlow.
  unfold postprocess_row.
  destruct (np_argmax probability) as [label|e] eqn:Ha.
  2:{ destruct probability; [congruence | discriminate]. }
  simpl.
  pose proof (np_argmax_in_range _ _ Ha) as Hr.
  assert (Hc : nth label probability 0 < 1 # 2).
  { apply Hlow. apply nth_In. exact Hr. }
  exists (nth label probability 0).
  apply Qlt_bool_iff in Hc. rewrite Hc.
  rewrite classes_last. simpl.
  split; [reflexivity | apply Qlt_bool_iff; exact Hc].
Qed.

(** The rows of a non-empty batch that are all of low confidence, through
    the whole of [postprocess] and for any exponential. *)
Lemma postprocess_low (exp : Q -> Q) (outputs : list (list Q)) :
  (size outputs =? 0)%nat = false ->
  (forall row, In row outputs ->
     row <> [] /\ forall p, In p (softmax_row exp row) -> p < 1 # 2) ->
  exists results,
    postprocess exp outputs = Ok results
    /\ length results = length outputs
    /\ forall r, In r results -> fst (fst r) = PyStr "neutral".
Proof.
  intros Hsz Hrows. unfold postprocess. rewrite Hsz.
  assert (Hne : forall row, row <> [] -> softmax_row exp row <> []).
  { intros [|x t] H; [congruence|]. unfold softmax_row. simpl. discriminate. }
  destruct (mapM_ok postprocess_row (map (softmax_row exp) outputs))
    as (results & Hres & Hlen & _).
  { intros probability Hp. apply in_map_iff in Hp.
    destruct Hp as (row & <- & Hrow). destruct (Hrows row Hrow) as [Hr Hlow].
    destruct (postprocess_row_low _ (Hne row Hr) Hlow) as (c & Hc & _).
    eexists. exact Hc. }
  exists results. split; [exact Hres|]. split.
  - rewrite Hlen, length_map. reflexivity.
  - intros r Hr.
    destruct (mapM_ok_In _ _ _ Hres r Hr) as (probability & Hp & Hpr).
    apply in_map_iff in Hp. destruct Hp as (row & <- & Hrow).
    destruct (Hrows row Hrow) as [Hrne Hlow].
    destruct (postprocess_row_low _ (Hne row Hrne) Hlow) as (c & Hc & _).
    rewrite Hc in Hpr. injection Hpr as <-. reflexivity.
Qed.

(** C1 (as the code behaves).  A probability row whose every entry, and
    so its maximum, is strictly below 0.5 makes the loop body of
    [postprocess] set [emotion_index = -1] and then read [classes[-1]]:
    the entry it returns is labelled with the class name "neutral", one
    of the seven classes, and not with the sentinel -1.  So for every
    batch of logits whose softmax rows are all of that kind,
    [postprocess] returns one entry per row, each labelled "neutral". *)
Theorem low_confidence_reported_as_neutral :
  (forall probability : list Q,
     probability <> [] ->
     (forall p, In p probability -> p < 1 # 2) ->
     exists confidence,
       postprocess_row probability
         = Ok (PyStr "neutral", confidence, probability)
       /\ confidence < 1 # 2
       /\ In "neutral"%string classes
       /\ PyStr "neutral" <> PyInt (-1))
  /\ (forall (exp : Q -> Q) (outputs : list (list Q)),
        (size outputs =? 0)%nat = false ->
        (forall row, In row outputs ->
           row <> [] /\ forall p, In p (softmax_row exp row) -> p < 1 # 2) ->
        exists results,
          postprocess exp outputs = Ok results
          /\ length results = length outputs
          /\ forall r, In r results -> fst (fst r) = PyStr "neutral").
Proof.
  split; [|exact postprocess_low].
  intros probability Hne Hlow.
  destruct (postprocess_row_low probability Hne Hlow) as (c & Hc & Hlt).
  exists c. repeat split; try assumption.
  - unfold classes. simpl. tauto.
  - discriminate.
Qed.

Lemma low_confidence_reported_as_neutral_witness :
  exists confidence,
    postprocess_row [1#7; 1#7; 1#7; 1#7; 1#7; 1#7; 1#7]
      = Ok (PyStr "neutral", confidence, [1#7; 1#7; 1#7; 1#7; 1#7; 1#7; 1#7])
    /\ confidence < 1 # 2
    /\ In "neutral"%string classes
    /\ PyStr "neutral" <> PyInt (-1).
Proof.
  apply (proj1 low_confidence_reported_as_neutral).
  - discriminate.
  - intros p Hp. simpl in Hp.
    repeat (destruct Hp as [<-|Hp]; [reflexivity|]). contradiction.
Defined.

(** A confident row keeps its class: probabilities
    [0.1, 0.1, 0.1, 0.55, 0.05, 0.05, 0.05] give "happy" with
    confidence 0.55. *)
Example postprocess_row_happy :
  postprocess_row [1#10; 1#10; 1#10; 55#100; 5#100; 5#100; 5#100]
  = Ok (PyStr "happy", 55#100, [1#10; 1#10; 1#10; 55#100; 5#100; 5#100; 5#100]).
Proof. reflexivity. Qed.

(** Seven equal logits, through the whole of [postprocess] and for any
    exponential: the row is reported as "neutral". *)
Lemma postprocess_equal_logits (exp : Q -> Q) :
  exists confidence distribution,
    postprocess exp [[0; 0; 0; 0; 0; 0; 0]]
      = Ok [(PyStr "neutral", confidence, distribution)]
    /\ confidence < 1 # 2.
Proof.
  unfold postprocess. simpl size. simpl Nat.eqb. cbv iota.
  unfold map at 1. unfold mapM.
  set (probability := softmax_row exp _).
  assert (Hp : forall p, In p probability -> p < 1 # 2).
  { subst probability. unfold softmax_row.
    change (np_max [0; 0; 0; 0; 0; 0; 0]) with 0.
    simpl map. unfold np_sum. simpl fold_left.
    set (e := exp (0 - 0)).
    intros p Hp. simpl in Hp.
    assert (Hq : e / (0 + e + e + e + e + e + e + e) < 1 # 2).
    { destruct (Qeq_dec e 0) as [Hz|Hnz].
      - unfold Qdiv. rewrite Hz. lra.
      - assert (Hs : 0 + e + e + e + e + e + e + e == 7 * e) by ring.
        rewrite Hs.
        assert (He : e / (7 * e) == 1 # 7) by (field; exact Hnz).
        rewrite He. reflexivity. }
    repeat (destruct Hp as [<-|Hp]; [exact Hq|]). contradiction. }
  assert (Hne : probability <> []).
  { subst probability. unfold softmax_row. simpl. discriminate. }
  destruct (postprocess_row_low probability Hne Hp)
    as (c & Hc & Hlt).
  exists c, probability. rewrite Hc. simpl. split; [reflexivity|exact Hlt].
Qed.

End EmotionPredictorFacts.

(** ** Result aggregation *)

Module StreamingFaceAnalysisFacts.
Import StreamingFaceAnalysis.

(** Label resolution on an integer class index. *)
Lemma resolve_label_int (labels : list string) (z : Z) :
  resolve_label (Some labels) (PyInt z)
  = if ((0 <=? z) && (z <? Z.of_nat (length labels)))%Z
    then Ok (PyStr (nth (Z.to_nat z) labels EmptyString))
    else Ok (PyInt z).
Proof.
  unfold resolve_label.
  destruct (Z.leb_spec 0 z); destruct (Z.ltb_spec z (Z.of_nat (length labels)));
    simpl; try reflexivity.
  rewrite (py_getitem_in_range labels z EmptyString) by lia. reflexivity.
Qed.

(** Without a configured label list the label passes through. *)
Lemma resolve_label_none (v : pyval) : resolve_label None v = Ok v.
Proof. reflexivity. Qed.

Lemma resolve_label_ok (emotion_labels : option (list string))
    (r : EmotionPredictor.emotion_result) :
  resolvable emotion_labels r ->
  exists v, resolve_label emotion_labels (fst (fst r)) = Ok v.
Proof.
  intros [->|[z Hz]].
  - eexists. reflexivity.
  - rewrite Hz. destruct emotion_labels as [labels|].
    + rewrite resolve_label_int. destruct (_ && _)%bool; eexists; reflexivity.
    + eexists. reflexivity.
Qed.

Section Aggregate.
Variable emotion_labels : option (list string).
Variable gender_age_results : list (string * string).
Variable emotion_results : list EmotionPredictor.emotion_result.

Hypothesis labels_resolvable :
  forall r, In r emotion_results -> resolvable emotion_labels r.

Let agg := aggregate_one emotion_labels gender_age_results emotion_results.

(** One record, when every emotion label is resolvable: the
    detection's geometry is copied, and a classifier's fields are
    filled exactly when it has an entry at that index. *)
Lemma aggregate_one_ok (idx : nat) (det : FaceDetection.Detection) :
  exists r,
    agg idx det = Ok r
    /\ bbox r = FaceDetection.box det
    /\ score r = FaceDetection.score det
    /\ keypoints r = FaceDetection.keypoints det
    /\ ((length gender_age_results <= idx)%nat ->
        gender r = None /\ age_bucket r = None)
    /\ (forall g a, nth_error gender_age_results idx = Some (g, a) ->
        gender r = Some g /\ age_bucket r = Some a)
    /\ ((length emotion_results <= idx)%nat ->
        emotion_label r = None /\ emotion_confidence r = None
        /\ emotion_distribution r = None)
    /\ (forall l c d, nth_error emotion_results idx = Some (l, c, d) ->
        resolve_label emotion_labels l = Ok (match emotion_label r with
                                             | Some v => v | None => l end)
        /\ emotion_label r <> None
        /\ emotion_confidence r = Some c
        /\ emotion_distribution r = Some d).
Proof.
  subst agg. unfold aggregate_one.
  destruct (Nat.ltb_spec idx (length gender_age_results)) as [Hg|Hg];
  destruct (Nat.ltb_spec idx (length emotion_results)) as [He|He].
  all: try (destruct (nth idx gender_age_results (EmptyString, EmptyString))
              as [g0 a0] eqn:Hgn).
  all: try (destruct (nth idx emotion_results (PyInt 0, 0, []))
              as [[l0 c0] d0] eqn:Hen).
  all: try (assert (Hin : In (l0, c0, d0) emotion_results)
              by (rewrite <- Hen; apply nth_In; exact He);
            destruct (resolve_label_ok _ _ (labels_resolvable _ Hin)) as [v Hv];
            simpl in Hv; rewrite Hv).
  all: simpl; eexists; split; [reflexivity|]; simpl.
  all: repeat split; try reflexivity; try lia; try discriminate.
  all: match goal with
       | Hn : nth_error ?l ?i = Some _, Hle : (length ?l <= ?i)%nat |- _ =>
           exfalso; apply nth_error_None in Hle; congruence
       | Hn : nth_error ?l ?i = Some _, Hd : nth ?i ?l ?dflt = _ |- _ =>
           apply (nth_error_nth l i dflt) in Hn; rewrite Hd in Hn;
           inversion Hn; subst; try reflexivity; try assumption
       end.
Qed.

Lemma nth_error_enumerate {A : Type} (l : list A) (s i : nat) (x : A) :
  nth_error l i = Some x ->
  nth_error (combine (seq s (length l)) l) i = Some ((s + i)%nat, x).
Proof.
  revert s i. induction l as [|a t IH]; intros s [|i] Hx; simpl in *;
    try discriminate.
  - injection Hx as <-. rewrite Nat.add_0_r. reflexivity.
  - rewrite (IH (S s) i Hx). do 2 f_equal. lia.
Qed.

(** The aggregator on resolvable labels: it returns, with one record
    per detection, in detection order; each record is the one
    [aggregate_one] builds for that index. *)
Lemma analyze_faces_ok (detections : list FaceDetection.Detection) :
  exists faces,
    analyze emotion_labels gender_age_results emotion_results detections
      = Ok faces
    /\ length faces = length detections
    /\ forall idx det, nth_error detections idx = Some det ->
         exists r, nth_error faces idx = Some r /\ agg idx det = Ok r.
Proof.
  assert (Hall : forall p,
             In p (combine (seq 0 (length detections)) detections) ->
             exists y, agg (fst p) (snd p) = Ok y).
  { intros [idx det] _. destruct (aggregate_one_ok idx det) as (r & Hr & _).
    exists r. exact Hr. }
  destruct (mapM_ok _ _ Hall) as (faces & Hf & Hlen & Hnth).
  exists faces.
  assert (Hagg : aggregate emotion_labels gender_age_results emotion_results
                   detections = Ok faces) by exact Hf.
  split; [|split].
  - destruct detections; [|exact Hagg].
    simpl in Hagg. injection Hagg as <-. reflexivity.
  - rewrite Hlen, length_combine, length_seq. apply Nat.min_id.
  - intros idx det Hd.
    apply (nth_error_enumerate _ 0%nat) in Hd.
    destruct (Hnth _ _ Hd) as (r & Hr & Hok).
    exists r. split; [exact Hr | exact Hok].
Qed.

End Aggregate.

(** The default configuration ([emotion_labels = None]) with a
    gender/age list one entry short: the aggregator returns one record
    per detection and the last record has no gender and no age bucket. *)
Lemma analyze_one_fewer_gender_age
    (detections : list FaceDetection.Detection) (last : FaceDetection.Detection)
    (gender_age_results : list (string * string))
    (emotion_results : list EmotionPredictor.emotion_result) :
  length gender_age_results = length detections ->
  exists faces r,
    analyze None gender_age_results emotion_results (detections ++ [last])
      = Ok faces
    /\ length faces = S (length detections)
    /\ nth_error faces (length detections) = Some r
    /\ bbox r = FaceDetection.box last
    /\ gender r = None /\ age_bucket r = None.
Proof.
  intros Hlen.
  assert (Hres : forall r, In r emotion_results -> resolvable None r)
    by (intros r _; left; reflexivity).
  destruct (analyze_faces_ok None gender_age_results emotion_results Hres
              (detections ++ [last])) as (faces & Hf & Hl & Hnth).
  destruct (Hnth (length detections) last) as (r & Hr & Hagg).
  { rewrite nth_error_app2 by lia. rewrite Nat.sub_diag. reflexivity. }
  destruct (aggregate_one_ok None gender_age_results emotion_results Hres
              (length detections) last)
    as (r' & Hr' & Hb & _ & _ & Hga & _).
  assert (r' = r) by congruence. subst r'.
  exists faces, r. rewrite Hf, Hl, length_app. simpl.
  destruct Hga as [Hg Ha]; [lia|].
  repeat split; try assumption; lia.
Qed.

(** C2 (as the code behaves).  The label that [postprocess_row] returns
    is a class name, a [str].  With a label list configured the
    aggregator evaluates [0 <= label_idx] on it, which raises
    [TypeError]: no name is substituted, no index is passed through,
    and [analyze] raises instead of returning. *)
Theorem predictor_label_rejected_when_labels_configured
    (labels : list string) (probability : list Q)
    (r : EmotionPredictor.emotion_result) :
  EmotionPredictor.postprocess_row probability = Ok r ->
  resolve_label (Some labels) (fst (fst r)) = Raise TypeError
  /\ forall gender_age_results emotion_results det detections,
       analyze (Some labels) gender_age_results
         (r :: emotion_results) (det :: detections)
       = Raise TypeError.
Proof.
  intros Hr.
  destruct (EmotionPredictorFacts.postprocess_row_label_is_str _ _ Hr)
    as (name & Hname & _).
  assert (Hres : resolve_label (Some labels) (fst (fst r)) = Raise TypeError)
    by (rewrite Hname; reflexivity).
  split; [exact Hres|].
  intros gas emo det dets.
  unfold analyze, aggregate. simpl combine.
  apply mapM_raise_head. unfold aggregate_one. simpl fst. simpl snd.
  simpl length. simpl nth.
  destruct r as [[l c] d]. simpl in Hname. subst l. simpl.
  destruct (0 <? length gas)%nat; [destruct (nth 0 gas _)|]; reflexivity.
Qed.

Lemma predictor_label_rejected_when_labels_configured_witness :
  let r := (PyStr "happy", 55#100,
            [1#10; 1#10; 1#10; 55#100; 5#100; 5#100; 5#100]) in
  let det := FaceDetection.mkDetection (10, 10, 90, 90)%Z (9#10) [] in
  EmotionPredictor.postprocess_row
    [1#10; 1#10; 1#10; 55#100; 5#100; 5#100; 5#100] = Ok r
  /\ resolve_label (Some EmotionPredictor.classes) (fst (fst r))
      = Raise TypeError
  /\ analyze (Some EmotionPredictor.classes) [] [r] [det]
      = Raise TypeError.
Proof.
  intros r det.
  assert (Hr : EmotionPredictor.postprocess_row
                 [1#10; 1#10; 1#10; 55#100; 5#100; 5#100; 5#100] = Ok r)
    by reflexivity.
  destruct (predictor_label_rejected_when_labels_configured
              EmotionPredictor.classes _ r Hr) as [H1 H2].
  split; [exact Hr | split; [exact H1 | apply H2]].
Defined.

(** C9 (as the code behaves).  With a label list configured, any
    non-empty detection list and any non-empty list of emotion results
    that [postprocess_row] produced make [analyze] raise [TypeError],
    whatever the lengths of the two classifier lists: no record is
    returned for any detection. *)
Theorem analyze_raises_when_labels_configured
    (labels : list string)
    (gender_age_results : list (string * string))
    (emotion_results : list EmotionPredictor.emotion_result)
    (detections : list FaceDetection.Detection) :
  detections <> [] ->
  emotion_results <> [] ->
  (forall r, In r emotion_results ->
     exists probability, EmotionPredictor.postprocess_row probability = Ok r) ->
  analyze (Some labels) gender_age_results emotion_results detections
  = Raise TypeError.
Proof.
  intros Hd He Hprod.
  destruct detections as [|det dets]; [congruence|].
  destruct emotion_results as [|r emo]; [congruence|].
  destruct (Hprod r (or_introl eq_refl)) as [probability Hr].
  destruct (EmotionPredictorFacts.postprocess_row_label_is_str _ _ Hr)
    as (name & Hname & _).
  unfold analyze, aggregate. simpl combine.
  apply mapM_raise_head. unfold aggregate_one. simpl fst. simpl snd.
  simpl length. simpl nth.
  destruct r as [[l c] d]. simpl in Hname. subst l. simpl.
  destruct (0 <? length gender_age_results)%nat;
    [destruct (nth 0 gender_age_results _)|]; reflexivity.
Qed.

Lemma analyze_raises_when_labels_configured_witness :
  let det := FaceDetection.detect_one 100 100
               [1#10; 1#10; 9#10; 9#10; 0; 0; 0; 0; 0; 0; 0; 0; 0; 0; 0; 0; 9#10] in
  analyze (Some EmotionPredictor.classes)
    [("female", "19-36")%string]
    [(PyStr "happy", 55#100, [1#10; 1#10; 1#10; 55#100; 5#100; 5#100; 5#100]);
     (PyStr "neutral", 1#7, [1#7; 1#7; 1#7; 1#7; 1#7; 1#7; 1#7])]
    [det; det]
  = Raise TypeError.
Proof.
  intros det.
  apply analyze_raises_when_labels_configured.
  - discriminate.
  - discriminate.
  - intros r [<-|[<-|[]]].
    + exists [1#10; 1#10; 1#10; 55#100; 5#100; 5#100; 5#100]. reflexivity.
    + exists [1#7; 1#7; 1#7; 1#7; 1#7; 1#7; 1#7]. reflexivity.
Defined.

End StreamingFaceAnalysisFacts.

(** ** Intersection over union *)

Module FaceDetectionFacts.
Import FaceDetection.

Lemma py_max_comm (a b : Q) : py_max a b == py_max b a.
Proof. unfold py_max. case_Qlt a b; case_Qlt b a; lra. Qed.

Lemma py_min_comm (a b : Q) : py_min a b == py_min b a.
Proof. unfold py_min. case_Qlt a b; case_Qlt b a; lra. Qed.

Lemma py_max_compat (a a' b b' : Q) :
  a == a' -> b == b' -> py_max a b == py_max a' b'.
Proof. intros Ha Hb. unfold py_max. case_Qlt a b; case_Qlt a' b'; lra. Qed.

Lemma py_max_self (a : Q) : py_max a a = a.
Proof. unfold py_max. destruct (Qlt_bool a a); reflexivity. Qed.

Lemma py_min_self (a : Q) : py_min a a = a.
Proof. unfold py_min. destruct (Qlt_bool a a); reflexivity. Qed.

Lemma py_max_ge_r (a b : Q) : b <= py_max a b.
Proof. unfold py_max. case_Qlt a b; lra. Qed.

Lemma py_max_ge_l (a b : Q) : a <= py_max a b.
Proof. unfold py_max. case_Qlt a b; lra. Qed.

Lemma intersect1_comm (a b : row) : intersect1 a b == intersect1 b a.
Proof.
  unfold intersect1, np_clip_min.
  assert (H0 : py_min (col 2 a) (col 2 b) - py_max (col 0 a) (col 0 b)
               == py_min (col 2 b) (col 2 a) - py_max (col 0 b) (col 0 a)).
  { rewrite (py_min_comm (col 2 a)), (py_max_comm (col 0 a)). reflexivity. }
  assert (H1 : py_min (col 3 a) (col 3 b) - py_max (col 1 a) (col 1 b)
               == py_min (col 3 b) (col 3 a) - py_max (col 1 b) (col 1 a)).
  { rewrite (py_min_comm (col 3 a)), (py_max_comm (col 1 a)). reflexivity. }
  rewrite (py_max_compat _ _ 0 0 H0 (Qeq_refl 0)).
  rewrite (py_max_compat _ _ 0 0 H1 (Qeq_refl 0)).
  reflexivity.
Qed.

Lemma intersect1_nonneg (a b : row) : 0 <= intersect1 a b.
Proof.
  unfold intersect1, np_clip_min.
  apply Qmult_le_0_compat; apply py_max_ge_r.
Qed.

(** The denominator of [jaccard1] is at least the floor, so never zero. *)
Lemma union_floor (u : Q) : (1 # 1000000) <= np_clip_min u (1 # 1000000).
Proof. unfold np_clip_min. apply py_max_ge_r. Qed.

Lemma jaccard1_comm (a b : row) : jaccard1 a b == jaccard1 b a.
Proof.
  unfold jaccard1, np_clip_min.
  assert (Hu : area a + area b - intersect1 a b
               == area b + area a - intersect1 b a).
  { rewrite (intersect1_comm a b). ring. }
  rewrite (py_max_compat _ _ (1 # 1000000) (1 # 1000000) Hu (Qeq_refl _)).
  rewrite (intersect1_comm a b). reflexivity.
Qed.

Lemma intersect1_self (a : row) : ordered a -> intersect1 a a == area a.
Proof.
  intros [H0 H1]. unfold intersect1, area, np_clip_min.
  rewrite !py_min_self, !py_max_self.
  unfold py_max.
  case_Qlt (col 2 a - col 0 a) 0; case_Qlt (col 3 a - col 1 a) 0; try lra.
Qed.

Lemma jaccard1_self (a : row) :
  ordered a -> (1 # 1000000) <= area a -> jaccard1 a a == 1.
Proof.
  intros Ho Ha. unfold jaccard1.
  assert (Hu : area a + area a - intersect1 a a == area a).
  { rewrite (intersect1_self a Ho). ring. }
  unfold np_clip_min.
  rewrite (py_max_compat _ _ (1 # 1000000) (1 # 1000000) Hu (Qeq_refl _)).
  rewrite (intersect1_self a Ho).
  unfold py_max. case_Qlt (area a) (1 # 1000000); [lra|].
  field. lra.
Qed.

(** C8 (amended).  [jaccard1] is symmetric in its two boxes; its
    denominator is at least 1e-6 and so never zero; and a box whose
    corners are in order and whose area is at least 1e-6 has IoU 1 with
    itself. *)
Theorem jaccard_symmetric_and_self_one :
  (forall a b : row, jaccard1 a b == jaccard1 b a)
  /\ (forall a b : row,
        0 < np_clip_min (area a + area b - intersect1 a b) (1 # 1000000))
  /\ (forall a : row, ordered a -> (1 # 1000000) <= area a -> jaccard1 a a == 1).
Proof.
  split; [exact jaccard1_comm | split; [|exact jaccard1_self]].
  intros a b. pose proof (union_floor (area a + area b - intersect1 a b)). lra.
Qed.

Lemma jaccard_symmetric_and_self_one_witness :
  let a : row := [0; 0; 1 # 2; 1 # 2] in
  ordered a /\ (1 # 1000000) <= area a /\ jaccard1 a a == 1.
Proof.
  intros a.
  assert (Ho : ordered a) by (split; vm_compute; discriminate).
  assert (Ha : (1 # 1000000) <= area a) by (vm_compute; discriminate).
  split; [exact Ho | split; [exact Ha|]].
  exact (proj2 (proj2 jaccard_symmetric_and_self_one) a Ho Ha).
Defined.

(** C8, the claim as stated fails: a box of positive width and height
    (hence not degenerate) with area 1e-8 has IoU 1/100 with itself,
    because the denominator is raised to the floor 1e-6. *)
Lemma jaccard_self_small_box :
  let a : row := [0; 0; 1 # 10000; 1 # 10000] in
  col 0 a < col 2 a /\ col 1 a < col 3 a /\ 0 < area a
  /\ jaccard1 a a == 1 # 100
  /\ ~ jaccard1 a a == 1.
Proof.
  intros a. repeat split; try (vm_compute; reflexivity).
  vm_compute. discriminate.
Qed.

(** ** Weighted non-max suppression: one round *)

Lemma select_map {A : Type} (p : A -> bool) (l : list A) :
  select (map p l) l = filter p l.
Proof.
  induction l as [|x t IH]; simpl; [reflexivity|].
  destruct (p x); rewrite IH; reflexivity.
Qed.

Lemma select_map_negb {A : Type} (p : A -> bool) (l : list A) :
  select (map negb (map p l)) l = filter (fun x => negb (p x)) l.
Proof. rewrite map_map. apply select_map. Qed.

Lemma round_mask_eq (detections : list row) (thr : Q) (c : nat) (rest : list nat) :
  round_mask detections thr (c :: rest)
  = map (overlaps detections thr c) (c :: rest).
Proof.
  unfold round_mask, _jaccard. rewrite !map_map. reflexivity.
Qed.

Lemma wnms_round_eq (detections : list row) (thr : Q) (c : nat) (rest : list nat) :
  wnms_round detections thr (c :: rest)
  = (filter (fun i => negb (overlaps detections thr c i)) (c :: rest),
     weighted_detection_of detections (row_at c detections)
       (filter (overlaps detections thr c) (c :: rest))).
Proof.
  unfold wnms_round. rewrite round_mask_eq.
  rewrite select_map, select_map_negb. reflexivity.
Qed.

Lemma filter_length_le {A : Type} (p : A -> bool) (l : list A) :
  (length (filter p l) <= length l)%nat.
Proof.
  induction l as [|x t IH]; simpl; [lia|]. destruct (p x); simpl; lia.
Qed.

(** ** Weighted non-max suppression: the loop *)

(** A candidate that does not overlap itself stays at the head of
    [remaining]: the loop never ends. *)
Lemma wnms_loop_stuck (detections : list row) (thr : Q) (c : nat) :
  overlaps detections thr c c = false ->
  forall fuel rest output,
    wnms_loop fuel detections thr (c :: rest) output = None.
Proof.
  intros Hc. induction fuel as [|fuel IH]; intros rest output.
  - reflexivity.
  - cbn [wnms_loop]. rewrite wnms_round_eq.
    cbn [filter]. rewrite Hc. cbn [negb]. apply IH.
Qed.

(** A result does not depend on the iteration bound that produced it. *)
Lemma wnms_loop_fuel_mono (detections : list row) (thr : Q) :
  forall fuel fuel' remaining output res,
    (fuel <= fuel')%nat ->
    wnms_loop fuel detections thr remaining output = Some res ->
    wnms_loop fuel' detections thr remaining output = Some res.
Proof.
  induction fuel as [|fuel IH]; intros fuel' remaining output res Hle Hrun.
  - destruct remaining; [|discriminate]. destruct fuel'; exact Hrun.
  - destruct remaining as [|c rest]; [destruct fuel'; exact Hrun|].
    destruct fuel' as [|fuel']; [lia|].
    cbn [wnms_loop] in *.
    destruct (wnms_round detections thr (c :: rest)) as [remaining' w].
    apply (IH fuel'); [lia | exact Hrun].
Qed.

(** When every index of [remaining] overlaps itself the loop ends
    within [length remaining] iterations, emitting at most one
    detection per index. *)
Lemma wnms_loop_terminates (detections : list row) (thr : Q) :
  forall fuel remaining output,
    (forall i, In i remaining -> overlaps detections thr i i = true) ->
    (length remaining <= fuel)%nat ->
    exists out,
      wnms_loop fuel detections thr remaining output = Some (output ++ out)
      /\ (length out <= length remaining)%nat
      /\ forall fuel', (length remaining <= fuel')%nat ->
           wnms_loop fuel' detections thr remaining output = Some (output ++ out).
Proof.
  assert (Hgen : forall n remaining,
             (length remaining <= n)%nat ->
             (forall i, In i remaining -> overlaps detections thr i i = true) ->
             forall output, exists out,
               (length out <= length remaining)%nat
               /\ forall fuel, (length remaining <= fuel)%nat ->
                    wnms_loop fuel detections thr remaining output
                    = Some (output ++ out)).
  { induction n as [|n IH]; intros remaining Hlen Hself output.
    - destruct remaining; [|simpl in Hlen; lia].
      exists []. split; [simpl; lia|].
      intros fuel _. rewrite app_nil_r. destruct fuel; reflexivity.
    - destruct remaining as [|c rest].
      + exists []. split; [simpl; lia|].
        intros fuel _. rewrite app_nil_r. destruct fuel; reflexivity.
      + pose proof (Hself c (or_introl eq_refl)) as Hc.
        set (remaining' := filter (fun i => negb (overlaps detections thr c i)) rest).
        set (w := weighted_detection_of detections (row_at c detections)
                    (c :: filter (overlaps detections thr c) rest)).
        assert (Hl' : (length remaining' <= length rest)%nat)
          by apply filter_length_le.
        destruct (IH remaining') with (output := output ++ [w])
          as (out & Hout & Hrun).
        { simpl in Hlen. lia. }
        { intros i Hi. apply Hself. right.
          apply filter_In in Hi. tauto. }
        exists (w :: out). split; [simpl; lia|].
        intros fuel Hfuel. destruct fuel as [|fuel]; [simpl in Hfuel; lia|].
        cbn [wnms_loop]. rewrite wnms_round_eq.
        cbn [filter]. rewrite Hc. cbn [negb].
        fold remaining'. fold w.
        rewrite Hrun by (simpl in Hfuel; lia).
        rewrite <- app_assoc. reflexivity. }
  intros fuel remaining output Hself Hfuel.
  destruct (Hgen (length remaining) remaining (le_n _) Hself output)
    as (out & Hout & Hrun).
  exists out. split; [apply Hrun; exact Hfuel | split; [exact Hout | exact Hrun]].
Qed.

(** If the loop returns, it appended at most one detection per index
    of [remaining], the first of them built from the head candidate
    and the set that overlaps it, the candidate included. *)
Lemma wnms_loop_sound (detections : list row) (thr : Q) :
  forall fuel remaining output res,
    wnms_loop fuel detections thr remaining output = Some res ->
    exists out,
      res = output ++ out
      /\ (length out <= length remaining)%nat
      /\ forall c rest, remaining = c :: rest ->
           overlaps detections thr c c = true
           /\ exists out',
                out = weighted_detection_of detections (row_at c detections)
                        (c :: filter (overlaps detections thr c) rest) :: out'.
Proof.
  induction fuel as [|fuel IH]; intros remaining output res Hrun.
  - destruct remaining; [|discriminate].
    injection Hrun as <-. exists []. rewrite app_nil_r.
    repeat split; [simpl; lia | discriminate | discriminate].
  - destruct remaining as [|c rest].
    + injection Hrun as <-. exists []. rewrite app_nil_r.
      repeat split; [simpl; lia | discriminate | discriminate].
    + destruct (overlaps detections thr c c) eqn:Hc.
      2:{ rewrite (wnms_loop_stuck _ _ _ Hc) in Hrun. discriminate. }
      cbn [wnms_loop] in Hrun. rewrite wnms_round_eq in Hrun.
      cbn [filter] in Hrun. rewrite Hc in Hrun. cbn [negb] in Hrun.
      apply IH in Hrun. destruct Hrun as (out & -> & Hlen & _).
      pose proof (filter_length_le
                    (fun i => negb (overlaps detections thr c i)) rest).
      eexists (_ :: out). rewrite <- app_assoc. split; [reflexivity|].
      split; [simpl; lia|].
      intros c' rest' Heq. injection Heq as <- <-.
      split; [exact Hc|]. exists out. reflexivity.
Qed.

(** ** [np.argsort] *)

Section Argsort.
Variable key : nat -> Q.

Lemma insert_sorted_In (i x : nat) (l : list nat) :
  In x (insert_sorted key i l) <-> x = i \/ In x l.
Proof.
  induction l as [|j t IH]; simpl.
  - intuition.
  - destruct (Qle_bool (key i) (key j)); simpl; [intuition|].
    rewrite IH. intuition.
Qed.

Lemma insert_sorted_length (i : nat) (l : list nat) :
  length (insert_sorted key i l) = S (length l).
Proof.
  induction l as [|j t IH]; simpl; [reflexivity|].
  destruct (Qle_bool (key i) (key j)); simpl; [reflexivity|].
  rewrite IH. reflexivity.
Qed.

Lemma insert_sorted_sorted (i : nat) (l : list nat) :
  StronglySorted (key_le key) l -> StronglySorted (key_le key) (insert_sorted key i l).
Proof.
  induction l as [|j t IH]; intros Hs; simpl.
  - constructor; constructor.
  - inversion Hs as [|? ? Ht Hj]; subst.
    destruct (Qle_bool (key i) (key j)) eqn:E.
    + apply Qle_bool_iff in E. constructor; [exact Hs|].
      constructor; [exact E|].
      rewrite Forall_forall in *. intros x Hx.
      unfold key_le in *. specialize (Hj x Hx). lra.
    + apply Qle_bool_false_iff in E. constructor; [apply IH; exact Ht|].
      rewrite Forall_forall in *. intros x Hx.
      apply insert_sorted_In in Hx. destruct Hx as [->|Hx].
      * unfold key_le. lra.
      * apply Hj. exact Hx.
Qed.

Lemma fold_insert_In (l : list nat) (x : nat) :
  In x (fold_right (insert_sorted key) [] l) <-> In x l.
Proof.
  induction l as [|i t IH]; simpl; [tauto|].
  rewrite insert_sorted_In, IH. intuition.
Qed.

Lemma fold_insert_length (l : list nat) :
  length (fold_right (insert_sorted key) [] l) = length l.
Proof.
  induction l as [|i t IH]; simpl; [reflexivity|].
  rewrite insert_sorted_length, IH. reflexivity.
Qed.

Lemma fold_insert_sorted (l : list nat) :
  StronglySorted (key_le key) (fold_right (insert_sorted key) [] l).
Proof.
  induction l as [|i t IH]; simpl; [constructor|].
  apply insert_sorted_sorted. exact IH.
Qed.

Lemma sorted_last_is_max (l : list nat) (top : nat) :
  StronglySorted (key_le key) (l ++ [top]) ->
  forall x, In x (l ++ [top]) -> key x <= key top.
Proof.
  induction l as [|j t IH]; simpl; intros Hs x Hx.
  - destruct Hx as [<-|[]]. lra.
  - inversion Hs as [|? ? Ht Hj]; subst.
    destruct Hx as [<-|Hx].
    + rewrite Forall_forall in Hj. apply Hj.
      apply in_or_app. right. left. reflexivity.
    + apply IH; assumption.
Qed.

End Argsort.

Lemma initial_remaining_In (detections : list row) (i : nat) :
  In i (initial_remaining detections) <-> (i < length detections)%nat.
Proof.
  unfold initial_remaining, np_argsort.
  rewrite <- in_rev, fold_insert_In, in_seq, length_map. lia.
Qed.

Lemma initial_remaining_length (detections : list row) :
  length (initial_remaining detections) = length detections.
Proof.
  unfold initial_remaining, np_argsort.
  rewrite length_rev, fold_insert_length, length_seq, length_map. reflexivity.
Qed.

(** The first candidate has the highest score of the array. *)
Lemma initial_remaining_head (detections : list row) (top : nat) (rest : list nat) :
  initial_remaining detections = top :: rest ->
  (top < length detections)%nat
  /\ forall i, (i < length detections)%nat ->
       col 16 (row_at i detections) <= col 16 (row_at top detections).
Proof.
  intros Hinit.
  assert (Htop : (top < length detections)%nat).
  { apply initial_remaining_In. rewrite Hinit. left. reflexivity. }
  split; [exact Htop|].
  intros i Hi.
  set (keys := map (col 16) detections).
  assert (Hkey : forall j, (j < length detections)%nat ->
                   nth j keys 0 = col 16 (row_at j detections)).
  { intros j Hj. subst keys. unfold row_at.
    rewrite (nth_indep _ 0 (col 16 [])) by (rewrite length_map; exact Hj).
    apply map_nth. }
  rewrite <- (Hkey i Hi), <- (Hkey top Htop).
  unfold initial_remaining in Hinit. fold keys in Hinit.
  assert (Hrev : np_argsort keys = rev rest ++ [top]).
  { rewrite <- (rev_involutive (np_argsort keys)), Hinit. reflexivity. }
  apply (sorted_last_is_max (fun j => nth j keys 0) (rev rest) top).
  - rewrite <- Hrev. apply fold_insert_sorted.
  - rewrite <- Hrev. unfold np_argsort. apply fold_insert_In.
    apply in_seq. subst keys. rewrite length_map. lia.
Qed.

(** ** Weighted non-max suppression: when the loop ends *)

Lemma overlaps_self (detections : list row) (thr : Q) (i : nat) :
  boxed (row_at i detections) -> thr < 1 ->
  overlaps detections thr i i = true.
Proof.
  intros [Ho Ha] Hthr. unfold overlaps. apply Qlt_bool_iff.
  rewrite (jaccard1_self _ Ho Ha). exact Hthr.
Qed.

(** No box overlaps itself by more than 1. *)
Lemma jaccard1_self_le_1 (a : row) : jaccard1 a a <= 1.
Proof.
  unfold jaccard1, intersect1, area, np_clip_min.
  rewrite !py_min_self, !py_max_self.
  set (w := col 2 a - col 0 a). set (h := col 3 a - col 1 a).
  set (i := py_max w 0 * py_max h 0).
  assert (Hd : (1 # 1000000) <= py_max (w * h + w * h - i) (1 # 1000000))
    by apply py_max_ge_r.
  assert (Hu : w * h + w * h - i <= py_max (w * h + w * h - i) (1 # 1000000))
    by apply py_max_ge_l.
  apply Qle_shift_div_r; [lra|].
  assert (Hi : i <= w * h + w * h - i \/ i <= 0).
  { subst i. unfold py_max.
    case_Qlt w 0; case_Qlt h 0; try (right; nra); left; nra. }
  destruct Hi; lra.
Qed.

Lemma overlaps_self_threshold_one (detections : list row) (thr : Q) (i : nat) :
  1 <= thr -> overlaps detections thr i i = false.
Proof.
  intros Hthr. unfold overlaps. apply Qlt_bool_false_iff.
  pose proof (jaccard1_self_le_1 (firstn 4 (row_at i detections))). lra.
Qed.

Lemma size_nonzero_nonempty (detections : list row) :
  (size detections =? 0)%nat = false -> detections <> [].
Proof. intros H ->. discriminate. Qed.

Lemma initial_remaining_nonempty (detections : list row) :
  detections <> [] -> exists top rest, initial_remaining detections = top :: rest.
Proof.
  intros Hne. pose proof (initial_remaining_length detections) as Hl.
  destruct (initial_remaining detections) as [|top rest].
  - destruct detections; [congruence | discriminate].
  - eauto.
Qed.

(** Whenever the suppression returns, it returns at most as many
    detections as it was given, and the first of them is built from
    the highest-scoring input detection and the set overlapping it,
    which contains that detection. *)
Lemma wnms_sound (fuel : nat) (detections : list row) (thr : Q) (out : list row) :
  _weighted_non_max_suppression fuel detections thr = Some out ->
  (length out <= length detections)%nat
  /\ ((size detections =? 0)%nat = false ->
      exists top overlapping out',
        out = weighted_detection_of detections (row_at top detections)
                overlapping :: out'
        /\ In top overlapping
        /\ (top < length detections)%nat
        /\ forall i, (i < length detections)%nat ->
             col 16 (row_at i detections) <= col 16 (row_at top detections)).
Proof.
  unfold _weighted_non_max_suppression.
  destruct (size detections =? 0)%nat eqn:Hsz.
  - intros H. injection H as <-. split; [simpl; lia | discriminate].
  - intros Hrun.
    apply wnms_loop_sound in Hrun. destruct Hrun as (o & Ho & Hlen & Hhead).
    simpl in Ho. subst o. rewrite initial_remaining_length in Hlen.
    split; [exact Hlen|]. intros _.
    destruct (initial_remaining_nonempty detections
                (size_nonzero_nonempty _ Hsz)) as (top & rest & Hinit).
    destruct (Hhead top rest Hinit) as (_ & out' & ->).
    destruct (initial_remaining_head _ _ _ Hinit) as [Htop Hmax].
    exists top, (top :: filter (overlaps detections thr top) rest), out'.
    repeat split; [left; reflexivity | exact Htop | exact Hmax].
Qed.

(** Under the conditions of termination the suppression returns for
    every sufficient iteration bound, always the same list. *)
Lemma wnms_returns (detections : list row) (thr : Q) :
  (forall d, In d detections -> boxed d) -> thr < 1 ->
  exists out, forall fuel, (length detections <= fuel)%nat ->
    _weighted_non_max_suppression fuel detections thr = Some out.
Proof.
  intros Hbox Hthr. unfold _weighted_non_max_suppression.
  destruct (size detections =? 0)%nat; [exists []; reflexivity|].
  destruct (wnms_loop_terminates detections thr
              (length detections) (initial_remaining detections) [])
    as (out & _ & _ & Hrun).
  - intros i Hi. apply initial_remaining_In in Hi.
    apply overlaps_self; [|exact Hthr].
    apply Hbox. unfold row_at. apply nth_In. exact Hi.
  - rewrite initial_remaining_length. lia.
  - exists out. intros fuel Hfuel. apply Hrun.
    rewrite initial_remaining_length. exact Hfuel.
Qed.

(** C10 (amended).  The code takes the products, the quotient and the
    comparison of lines 66-78 and 95 in float32.  The statement keeps a
    margin at the two places where that matters: the box coordinates
    are at most 1e9 in magnitude, so no product overflows, and the
    threshold is at most 0.999999, so it is still below the candidate's
    IoU with itself after rounding (0.99999999 is 1.0 in float32).
    When, besides, every box has its corners in order and an area of at
    least 1e-6, the suppression loop ends: it returns for every
    iteration bound of at least the number of detections; and in every
    round the candidate overlaps itself, is removed from [remaining]
    and [remaining] strictly shrinks. *)
Theorem wnms_terminates (detections : list row) (thr : Q) :
  (forall d, In d detections -> boxed d /\ in_range d) ->
  thr <= 999999 # 1000000 ->
  (exists out, forall fuel, (length detections <= fuel)%nat ->
     _weighted_non_max_suppression fuel detections thr = Some out)
  /\ (forall c rest,
        (c < length detections)%nat ->
        let remaining' := fst (wnms_round detections thr (c :: rest)) in
        overlaps detections thr c c = true
        /\ ~ In c remaining'
        /\ (length remaining' < length (c :: rest))%nat).
Proof.
  intros Hd Hmargin.
  assert (Hbox : forall d, In d detections -> boxed d)
    by (intros d Hin; apply (Hd d Hin)).
  assert (Hthr : thr < 1) by lra.
  split; [apply wnms_returns; assumption|].
  intros c rest Hc remaining'.
  assert (Hself : overlaps detections thr c c = true).
  { apply overlaps_self; [|exact Hthr].
    apply Hbox. unfold row_at. apply nth_In. exact Hc. }
  subst remaining'. rewrite wnms_round_eq. cbn [fst filter].
  rewrite Hself. cbn [negb].
  split; [reflexivity|]. split.
  - intros Hin. apply filter_In in Hin. destruct Hin as [_ Hn].
    rewrite Hself in Hn. discriminate.
  - pose proof (filter_length_le
                  (fun i => negb (overlaps detections thr c i)) rest).
    simpl. lia.
Qed.

Lemma wnms_terminates_witness :
  (exists out,
     _weighted_non_max_suppression 2
       [[0; 0; 1; 1; 0; 0; 0; 0; 0; 0; 0; 0; 0; 0; 0; 0; 9 # 10];
        [0; 0; 1; 1 # 2; 0; 0; 0; 0; 0; 0; 0; 0; 0; 0; 0; 0; 8 # 10]]
       (3 # 10) = Some out)
  /\ overlaps
       [[0; 0; 1; 1; 0; 0; 0; 0; 0; 0; 0; 0; 0; 0; 0; 0; 9 # 10];
        [0; 0; 1; 1 # 2; 0; 0; 0; 0; 0; 0; 0; 0; 0; 0; 0; 0; 8 # 10]]
       (3 # 10) 0 0 = true.
Proof.
  set (d1 := [0; 0; 1; 1; 0; 0; 0; 0; 0; 0; 0; 0; 0; 0; 0; 0; 9 # 10]).
  set (d2 := [0; 0; 1; 1 # 2; 0; 0; 0; 0; 0; 0; 0; 0; 0; 0; 0; 0; 8 # 10]).
  assert (Hbox : forall d, In d [d1; d2] -> boxed d /\ in_range d).
  { intros d [<-|[<-|[]]]; (split; [split; [split|]|]);
      try (vm_compute; discriminate);
      intros j Hj; destruct j as [|[|[|[|j]]]]; try lia; vm_compute; discriminate. }
  assert (Hthr : 3 # 10 <= 999999 # 1000000) by (vm_compute; discriminate).
  destruct (wnms_terminates [d1; d2] (3 # 10) Hbox Hthr) as [[out Hret] Hround].
  split.
  - exists out. apply Hret. simpl. lia.
  - apply (Hround 0%nat [1%nat]). simpl. lia.
Defined.

(** C10, the claim as stated fails: a box with both corners swapped has
    the area 1 that line 75 computes, at least 1e-6, yet its
    intersection with itself is clipped to 0; with threshold 0.3 the
    candidate is never moved out of [remaining] and the loop never
    ends. *)
Lemma wnms_swapped_corners_never_ends :
  let d : row := [1; 1; 0; 0; 0; 0; 0; 0; 0; 0; 0; 0; 0; 0; 0; 0; 9 # 10] in
  (1 # 1000000) <= area (firstn 4 d)
  /\ (3 # 10) < 1
  /\ jaccard1 (firstn 4 d) (firstn 4 d) == 0
  /\ fst (wnms_round [d] (3 # 10) [0%nat]) = [0%nat]
  /\ forall fuel, _weighted_non_max_suppression fuel [d] (3 # 10) = None.
Proof.
  intros d.
  split; [vm_compute; discriminate|].
  split; [reflexivity|].
  split; [vm_compute; reflexivity|].
  split; [vm_compute; reflexivity|].
  intros fuel. unfold _weighted_non_max_suppression.
  change (size [d] =? 0)%nat with false. cbv iota.
  change (initial_remaining [d]) with [0%nat].
  apply wnms_loop_stuck. vm_compute. reflexivity.
Qed.

(** C5 (as the code behaves).  With a threshold of 1 or more no
    candidate overlaps itself by more than the threshold, so on every
    non-empty detection array the loop never removes its first
    candidate: the suppression returns no list, for any iteration
    bound. *)
Theorem wnms_threshold_one_never_returns
    (detections : list row) (thr : Q) :
  (size detections =? 0)%nat = false -> 1 <= thr ->
  forall fuel, _weighted_non_max_suppression fuel detections thr = None.
Proof.
  intros Hsz Hthr fuel. unfold _weighted_non_max_suppression. rewrite Hsz.
  destruct (initial_remaining_nonempty detections
              (size_nonzero_nonempty _ Hsz)) as (top & rest & ->).
  apply wnms_loop_stuck. apply overlaps_self_threshold_one. exact Hthr.
Qed.

Lemma wnms_threshold_one_never_returns_witness :
  _weighted_non_max_suppression 1000
    [[0; 0; 1; 1; 0; 0; 0; 0; 0; 0; 0; 0; 0; 0; 0; 0; 9 # 10]] 1 = None.
Proof.
  apply wnms_threshold_one_never_returns.
  - reflexivity.
  - vm_compute. discriminate.
Defined.

(** ** Weighted non-max suppression: the merged detection *)

Lemma np_sum_from (l : list Q) (a : Q) : fold_left Qplus l a == a + np_sum l.
Proof.
  unfold np_sum. revert a. induction l as [|x t IH]; intros a; simpl.
  - ring.
  - rewrite (IH (a + x)), (IH (0 + x)). ring.
Qed.

Lemma np_sum_cons (x : Q) (l : list Q) : np_sum (x :: l) == x + np_sum l.
Proof. unfold np_sum at 1. simpl. rewrite np_sum_from. ring. Qed.

Lemma vec_add_length (a b : list Q) :
  length a = length b -> length (vec_add a b) = length a.
Proof.
  intros H. unfold vec_add. rewrite length_map, length_combine. lia.
Qed.

Lemma nth_map_in_range {A : Type} (f : A -> Q) (l : list A) (j : nat) (d : A) :
  (j < length l)%nat -> nth j (map f l) 0 = f (nth j l d).
Proof.
  revert j. induction l as [|x t IH]; intros [|j] Hj; simpl in *; try lia.
  - reflexivity.
  - apply IH. lia.
Qed.

Lemma vec_add_nth (a b : list Q) (j : nat) :
  length a = length b -> (j < length a)%nat ->
  nth j (vec_add a b) 0 = nth j a 0 + nth j b 0.
Proof.
  intros Hl Hj. unfold vec_add.
  rewrite (nth_map_in_range _ _ _ (0, 0)) by (rewrite length_combine; lia).
  rewrite combine_nth by exact Hl. reflexivity.
Qed.

Lemma fold_vec_add (n j : nat) (m : list row) :
  (j < n)%nat -> (forall r, In r m -> length r = n) ->
  forall acc, length acc = n ->
    length (fold_left vec_add m acc) = n
    /\ nth j (fold_left vec_add m acc) 0
       == nth j acc 0 + np_sum (map (fun r => nth j r 0) m).
Proof.
  intros Hj. induction m as [|r t IH]; intros Hrows acc Hacc; simpl.
  - split; [exact Hacc | unfold np_sum; simpl; ring].
  - assert (Hr : length r = n) by (apply Hrows; left; reflexivity).
    destruct (IH (fun r' H => Hrows r' (or_intror H)) (vec_add acc r)) as [Hl Hn].
    { rewrite vec_add_length; congruence. }
    split; [exact Hl|].
    rewrite Hn, vec_add_nth, np_sum_cons by congruence. ring.
Qed.

Lemma sum_axis0_col (n j : nat) (m : list row) :
  (j < n)%nat -> (forall r, In r m -> length r = n) ->
  length (sum_axis0 n m) = n
  /\ nth j (sum_axis0 n m) 0 == np_sum (map (fun r => nth j r 0) m).
Proof.
  intros Hj Hrows. unfold sum_axis0.
  destruct (fold_vec_add n j m Hj Hrows (repeat 0 n) (repeat_length _ _))
    as [Hl Hn].
  split; [exact Hl|]. rewrite Hn, nth_repeat. ring.
Qed.

Lemma combine_map_map {A B C : Type} (f : A -> B) (g : A -> C) (l : list A) :
  combine (map f l) (map g l) = map (fun x => (f x, g x)) l.
Proof. induction l as [|x t IH]; simpl; [reflexivity | rewrite IH; reflexivity]. Qed.

Lemma nth_map_Q (f : Q -> Q) (l : list Q) (j : nat) :
  (j < length l)%nat -> nth j (map f l) 0 = f (nth j l 0).
Proof.
  apply nth_map_in_range.
Qed.

Lemma weighted_detection_merged
    (detections : list row) (detection : row) (overlapping : list nat) :
  (1 < length overlapping)%nat ->
  (forall i, In i overlapping -> length (row_at i detections) = 17%nat) ->
  (forall j, (j < 16)%nat ->
     col j (weighted_detection_of detections detection overlapping)
     == weighted_average detections overlapping j)
  /\ col 16 (weighted_detection_of detections detection overlapping)
     = mean_score detections overlapping.
Proof.
  intros Hn Hrows. unfold weighted_detection_of.
  apply Nat.ltb_lt in Hn. rewrite Hn.
  rewrite combine_map_map, map_map. cbn [fst snd].
  set (total := np_sum (map (fun i => col 16 (row_at i detections)) overlapping)).
  set (products := map _ overlapping).
  assert (Hprod : forall r, In r products -> length r = 16%nat).
  { intros r Hr. subst products. apply in_map_iff in Hr.
    destruct Hr as (i & <- & Hi).
    rewrite length_map, length_firstn, (Hrows i Hi). reflexivity. }
  assert (Hlen : length (map (fun c => c / total) (sum_axis0 16 products)) = 16%nat).
  { rewrite length_map.
    apply (sum_axis0_col 16 0 products); [lia | exact Hprod]. }
  split.
  - intros j Hj. unfold col at 1.
    rewrite app_nth1 by lia.
    destruct (sum_axis0_col 16 j products Hj Hprod) as [Hl Hs].
    rewrite nth_map_Q by lia.
    unfold weighted_average. fold total.
    apply Qdiv_comp; [|reflexivity].
    rewrite Hs. subst products. rewrite map_map.
    rewrite (map_ext_in _
               (fun i => col j (row_at i detections) * col 16 (row_at i detections))).
    + reflexivity.
    + intros i Hi.
      rewrite nth_map_Q by (rewrite length_firstn, (Hrows i Hi); simpl; lia).
      rewrite nth_firstn.
      destruct (Nat.ltb_spec j 16); [reflexivity | lia].
  - unfold col at 1.
    rewrite app_nth2 by lia. rewrite Hlen. reflexivity.
Qed.

Lemma weighted_detection_single
    (detections : list row) (detection : row) (overlapping : list nat) :
  (length overlapping <= 1)%nat ->
  weighted_detection_of detections detection overlapping = detection.
Proof.
  intros Hn. unfold weighted_detection_of.
  destruct (Nat.ltb_spec 1 (length overlapping)); [lia | reflexivity].
Qed.

Lemma overlapping_members (detections : list row) (thr : Q) (c : nat)
    (rest : list nat) (i : nat) :
  In i (select (round_mask detections thr (c :: rest)) (c :: rest))
  <-> In i (c :: rest)
      /\ thr < jaccard1 (firstn 4 (row_at c detections))
                 (firstn 4 (row_at i detections)).
Proof.
  rewrite round_mask_eq, select_map, filter_In.
  unfold overlaps. rewrite Qlt_bool_iff. reflexivity.
Qed.

(** One axis of [intersect1]: the clipped overlap is not negative and,
    when positive, at most the extent of either box. *)
Lemma clipped_overlap (a0 a2 b0 b2 : Q) :
  0 <= py_max (py_min a2 b2 - py_max a0 b0) 0
  /\ (0 < py_max (py_min a2 b2 - py_max a0 b0) 0 ->
      py_max (py_min a2 b2 - py_max a0 b0) 0 <= a2 - a0
      /\ py_max (py_min a2 b2 - py_max a0 b0) 0 <= b2 - b0).
Proof.
  destruct (py_min_spec a2 b2) as [[? ->]|[? ->]];
    destruct (py_max_spec a0 b0) as [[? ->]|[? ->]];
    match goal with
    | |- context [py_max ?x 0] =>
        destruct (py_max_spec x 0) as [[? ->]|[? ->]]
    end; split; intros; try split; lra.
Qed.

(** Either two boxes do not intersect, or both have their corners in
    order and an area of at least the intersection. *)
Lemma intersect1_cases (a b : row) :
  intersect1 a b == 0
  \/ (0 < intersect1 a b /\ ordered a /\ ordered b
      /\ intersect1 a b <= area a /\ intersect1 a b <= area b).
Proof.
  unfold intersect1, area, ordered, np_clip_min.
  destruct (clipped_overlap (col 0 a) (col 2 a) (col 0 b) (col 2 b)) as [H0 H0'].
  destruct (clipped_overlap (col 1 a) (col 3 a) (col 1 b) (col 3 b)) as [H1 H1'].
  set (i0 := py_max (py_min (col 2 a) (col 2 b) - py_max (col 0 a) (col 0 b)) 0)
    in *.
  set (i1 := py_max (py_min (col 3 a) (col 3 b) - py_max (col 1 a) (col 1 b)) 0)
    in *.
  destruct (Qlt_le_dec 0 i0) as [Hi0|Hi0]; [|left; nra].
  destruct (Qlt_le_dec 0 i1) as [Hi1|Hi1]; [|left; nra].
  destruct (H0' Hi0) as [Ha0 Hb0]. destruct (H1' Hi1) as [Ha1 Hb1].
  right. repeat split; try lra; nra.
Qed.

(** No box overlaps a box more than that box overlaps itself. *)
Lemma jaccard1_le_self (a b : row) : jaccard1 a b <= jaccard1 a a.
Proof.
  unfold jaccard1, np_clip_min.
  pose proof (py_max_ge_r (area a + area b - intersect1 a b) (1 # 1000000)) as Dab.
  pose proof (py_max_ge_r (area a + area a - intersect1 a a) (1 # 1000000)) as Daa.
  pose proof (intersect1_nonneg a a) as Sa.
  assert (Hself : 0 <= intersect1 a a
                       / py_max (area a + area a - intersect1 a a) (1 # 1000000)).
  { apply Qle_shift_div_l; lra. }
  destruct (intersect1_cases a b) as [Hz|(Hpos & Ha & _ & HA & HB)].
  - set (D := py_max (area a + area b - intersect1 a b) (1 # 1000000)).
    rewrite Hz. unfold Qdiv at 1. rewrite Qmult_0_l. exact Hself.
  - pose proof (intersect1_self a Ha) as HS.
    pose proof (py_max_ge_l (area a + area b - intersect1 a b) (1 # 1000000)) as Uab.
    set (I := intersect1 a b) in *. set (S := intersect1 a a) in *.
    set (D1 := py_max (area a + area b - I) (1 # 1000000)) in *.
    assert (HD : py_max (area a + area a - S) (1 # 1000000) <= D1).
    { destruct (py_max_spec (area a + area a - S) (1 # 1000000)) as [[? ->]|[? ->]];
        lra. }
    set (D2 := py_max (area a + area a - S) (1 # 1000000)) in *.
    apply Qle_shift_div_r; [lra|].
    assert (Ht : S / D2 * D2 == S) by (field; lra).
    set (t := S / D2) in *. nra.
Qed.

Lemma overlaps_candidate (detections : list row) (thr : Q) (c i : nat) :
  overlaps detections thr c i = true -> overlaps detections thr c c = true.
Proof.
  unfold overlaps. rewrite !Qlt_bool_iff. intros H.
  pose proof (jaccard1_le_self (firstn 4 (row_at c detections))
                (firstn 4 (row_at i detections))). lra.
Qed.

(** ** Descending order of [remaining] *)

Lemma StronglySorted_snoc {A : Type} (R : A -> A -> Prop) (l : list A) (x : A) :
  StronglySorted R l -> Forall (fun y => R y x) l -> StronglySorted R (l ++ [x]).
Proof.
  induction 1 as [|a l Hs IH Ha]; intros Hx; simpl.
  - constructor; constructor.
  - inversion Hx; subst. constructor; [apply IH; assumption|].
    apply Forall_app. split; [exact Ha | constructor; [assumption | constructor]].
Qed.

Lemma StronglySorted_rev {A : Type} (R : A -> A -> Prop) (l : list A) :
  StronglySorted R l -> StronglySorted (fun a b => R b a) (rev l).
Proof.
  induction 1 as [|a l Hs IH Ha]; simpl; [constructor|].
  apply StronglySorted_snoc; [exact IH|]. apply Forall_rev. exact Ha.
Qed.

Lemma StronglySorted_filter {A : Type} (R : A -> A -> Prop) (p : A -> bool)
    (l : list A) :
  StronglySorted R l -> StronglySorted R (filter p l).
Proof.
  induction 1 as [|a l Hs IH Ha]; simpl; [constructor|].
  destruct (p a); [|exact IH]. constructor; [exact IH|].
  rewrite Forall_forall in *. intros x Hx. apply filter_In in Hx. apply Ha. tauto.
Qed.

Lemma score_key (detections : list row) (i : nat) :
  nth i (map (col 16) detections) 0 = col 16 (row_at i detections).
Proof. unfold row_at. change 0 with (col 16 []) at 1. apply map_nth. Qed.

Lemma initial_remaining_descending (detections : list row) :
  descending detections (initial_remaining detections).
Proof.
  unfold descending, initial_remaining.
  pose proof (fold_insert_sorted
                (fun i => nth i (map (col 16) detections) 0)
                (seq 0 (length (map (col 16) detections)))) as Hs.
  apply StronglySorted_rev in Hs. unfold key_le in Hs.
  unfold np_argsort.
  induction Hs as [|a l Hl IH Ha]; constructor; [exact IH|].
  rewrite Forall_forall in *. intros x Hx. specialize (Ha x Hx).
  rewrite !score_key in Ha. exact Ha.
Qed.

Lemma wnms_round_descending (detections : list row) (thr : Q) (c : nat)
    (rest : list nat) :
  descending detections (c :: rest) ->
  (forall i, In i rest ->
     col 16 (row_at i detections) <= col 16 (row_at c detections))
  /\ descending detections (fst (wnms_round detections thr (c :: rest))).
Proof.
  intros Hd. split.
  - inversion Hd as [|? ? _ Hc]; subst. rewrite Forall_forall in Hc. exact Hc.
  - rewrite wnms_round_eq. cbn [fst]. apply StronglySorted_filter. exact Hd.
Qed.

(** Two boxes with IoU 1/2 each overlap themselves by at least 1/2. *)
Lemma jaccard1_half_self (a b : row) :
  jaccard1 a b == 1 # 2 -> 1 # 2 <= jaccard1 a a.
Proof.
  intros Hab.
  assert (Hinter : (1 # 2000000) <= intersect1 a b).
  { unfold jaccard1 in Hab.
    pose proof (union_floor (area a + area b - intersect1 a b)) as Hd.
    set (D := np_clip_min _ _) in *.
    assert (Hi : intersect1 a b == (1 # 2) * D).
    { rewrite <- Hab. field. lra. }
    lra. }
  assert (Hbox : 0 < col 2 a - col 0 a /\ 0 < col 3 a - col 1 a
                 /\ intersect1 a b <= area a).
  { unfold intersect1, area, np_clip_min in *.
    destruct (clipped_overlap (col 0 a) (col 2 a) (col 0 b) (col 2 b)) as [H0 H0'].
    destruct (clipped_overlap (col 1 a) (col 3 a) (col 1 b) (col 3 b)) as [H1 H1'].
    set (i0 := py_max (py_min (col 2 a) (col 2 b) - py_max (col 0 a) (col 0 b)) 0)
      in *.
    set (i1 := py_max (py_min (col 3 a) (col 3 b) - py_max (col 1 a) (col 1 b)) 0)
      in *.
    assert (Hi0 : 0 < i0) by (destruct (Qlt_le_dec 0 i0); [assumption | nra]).
    assert (Hi1 : 0 < i1) by (destruct (Qlt_le_dec 0 i1); [assumption | nra]).
    destruct (H0' Hi0) as [H0a _]. destruct (H1' Hi1) as [H1a _].
    repeat split; try lra. nra. }
  destruct Hbox as (Hw & Hh & Hle).
  assert (Ho : ordered a) by (split; lra).
  unfold jaccard1.
  assert (Hu : area a + area a - intersect1 a a == area a).
  { rewrite (intersect1_self a Ho). ring. }
  unfold np_clip_min.
  rewrite (py_max_compat _ _ (1 # 1000000) (1 # 1000000) Hu (Qeq_refl _)).
  rewrite (intersect1_self a Ho).
  unfold py_max. case_Qlt (area a) (1 # 1000000).
  - apply Qle_shift_div_l; [reflexivity | lra].
  - apply Qle_shift_div_l; lra.
Qed.

(** Two detections whose boxes have IoU 1/2 merge, under the default
    threshold 0.3, into one detection whose score is half the sum of
    the two scores. *)
Lemma wnms_two_overlapping (da db : row) :
  length da = 17%nat -> length db = 17%nat ->
  jaccard1 (firstn 4 da) (firstn 4 db) == 1 # 2 ->
  exists merged,
    (forall fuel, (1 <= fuel)%nat ->
       _weighted_non_max_suppression fuel [da; db] (3 # 10) = Some [merged])
    /\ col 16 merged == (col 16 da + col 16 db) / 2.
Proof.
  intros Ha Hb Hab.
  assert (Hba : jaccard1 (firstn 4 db) (firstn 4 da) == 1 # 2)
    by (rewrite jaccard1_comm; exact Hab).
  pose proof (jaccard1_half_self _ _ Hab) as Haa.
  pose proof (jaccard1_half_self _ _ Hba) as Hbb.
  set (dets := [da; db]).
  assert (O00 : overlaps dets (3 # 10) 0 0 = true)
    by (unfold overlaps, row_at, dets; cbn [nth]; apply Qlt_bool_iff; lra).
  assert (O11 : overlaps dets (3 # 10) 1 1 = true)
    by (unfold overlaps, row_at, dets; cbn [nth]; apply Qlt_bool_iff; lra).
  assert (O01 : overlaps dets (3 # 10) 0 1 = true)
    by (unfold overlaps, row_at, dets; cbn [nth]; apply Qlt_bool_iff; lra).
  assert (O10 : overlaps dets (3 # 10) 1 0 = true)
    by (unfold overlaps, row_at, dets; cbn [nth]; apply Qlt_bool_iff; lra).
  assert (Hrows : forall c o, In (c, o) [(0, 1); (1, 0)]%nat ->
            forall i, In i [c; o] -> length (row_at i dets) = 17%nat).
  { intros c o [H|[H|[]]]; injection H as <- <-;
      intros i [<-|[<-|[]]]; assumption. }
  assert (Hsz : (size dets =? 0)%nat = false).
  { simpl. rewrite Ha. reflexivity. }
  assert (Hinit : initial_remaining dets = [0; 1]%nat
                  \/ initial_remaining dets = [1; 0]%nat).
  { unfold initial_remaining, np_argsort. simpl.
    destruct (Qle_bool (col 16 da) (col 16 db)); simpl; auto. }
  assert (Hrun : forall c o, In (c, o) [(0, 1); (1, 0)]%nat ->
            initial_remaining dets = [c; o] ->
            forall fuel, (1 <= fuel)%nat ->
              _weighted_non_max_suppression fuel dets (3 # 10)
              = Some [weighted_detection_of dets (row_at c dets) [c; o]]).
  { intros c o Hco Hi fuel Hfuel.
    unfold _weighted_non_max_suppression. rewrite Hsz, Hi.
    destruct fuel as [|fuel]; [lia|].
    cbn [wnms_loop]. rewrite wnms_round_eq. cbn [filter].
    destruct Hco as [H|[H|[]]]; injection H as <- <-;
      rewrite ?O00, ?O11, ?O01, ?O10; cbn [negb app];
      destruct fuel; reflexivity. }
  assert (Hscore : forall c o, In (c, o) [(0, 1); (1, 0)]%nat ->
            col 16 (weighted_detection_of dets (row_at c dets) [c; o])
            == (col 16 da + col 16 db) / 2).
  { intros c o Hco.
    destruct (weighted_detection_merged dets (row_at c dets) [c; o])
      as [_ Hs]; [simpl; lia | exact (Hrows c o Hco) |].
    rewrite Hs. unfold mean_score, np_sum.
    change (inject_Z (Z.of_nat (length [c; o]))) with 2.
    destruct Hco as [H|[H|[]]]; injection H as <- <-;
      unfold row_at, dets; cbn [map fold_left nth]; field. }
  destruct Hinit as [Hi|Hi].
  - eexists. split; [apply (Hrun 0 1)%nat; simpl; auto|].
    apply (Hscore 0 1)%nat. simpl. auto.
  - eexists. split; [apply (Hrun 1 0)%nat; simpl; auto|].
    apply (Hscore 1 0)%nat. simpl. auto.
Qed.

(** C6.  The candidate of a round is the head of [remaining], which
    lists the remaining detections by descending score, so it has the
    highest score among them.  The overlapping set holds the remaining
    detections whose IoU with the candidate exceeds the threshold, and
    when it is not empty it holds the candidate itself.  With more than
    one member, each of the 16 coordinates of the emitted detection is
    the score-weighted average over the members and its score is the
    sum of the members' scores divided by their number; with exactly
    one member the candidate is emitted unchanged.  Two detections
    whose boxes have IoU 1/2 merge, under threshold 0.3, into one
    detection with score sum/2. *)
Theorem wnms_round_merges :
  (forall detections : list row,
     descending detections (initial_remaining detections))
  /\ (forall (detections : list row) (thr : Q) (c : nat) (rest : list nat),
        let remaining := c :: rest in
        let overlapping := select (round_mask detections thr remaining) remaining in
        let emitted := snd (wnms_round detections thr remaining) in
        (descending detections remaining ->
           (forall i, In i rest ->
              col 16 (row_at i detections) <= col 16 (row_at c detections))
           /\ descending detections (fst (wnms_round detections thr remaining)))
        /\ (forall i, In i overlapping <->
              In i remaining
              /\ thr < jaccard1 (firstn 4 (row_at c detections))
                         (firstn 4 (row_at i detections)))
        /\ (overlapping <> [] -> In c overlapping)
        /\ ((1 < length overlapping)%nat ->
            (forall i, In i remaining -> length (row_at i detections) = 17%nat) ->
            (forall j, (j < 16)%nat ->
               col j emitted == weighted_average detections overlapping j)
            /\ col 16 emitted = mean_score detections overlapping)
        /\ (length overlapping = 1%nat -> emitted = row_at c detections))
  /\ (forall da db : row,
        length da = 17%nat -> length db = 17%nat ->
        jaccard1 (firstn 4 da) (firstn 4 db) == 1 # 2 ->
        exists merged,
          (forall fuel, (1 <= fuel)%nat ->
             _weighted_non_max_suppression fuel [da; db] (3 # 10)
             = Some [merged])
          /\ col 16 merged == (col 16 da + col 16 db) / 2).
Proof.
  split; [exact initial_remaining_descending|].
  split; [|exact wnms_two_overlapping].
  intros detections thr c rest remaining overlapping emitted.
  split; [apply wnms_round_descending|].
  split; [apply overlapping_members|].
  assert (He : emitted
               = weighted_detection_of detections (row_at c detections) overlapping).
  { reflexivity. }
  split; [|split].
  - intros Hne. destruct overlapping as [|i ov] eqn:Hov; [congruence|].
    assert (Hi : In i (select (round_mask detections thr remaining) remaining)).
    { fold overlapping. rewrite Hov. left. reflexivity. }
    rewrite <- Hov. clear Hov. subst overlapping remaining.
    rewrite round_mask_eq, select_map in *.
    apply filter_In in Hi. destruct Hi as [_ Hi].
    apply filter_In. split; [left; reflexivity|].
    apply (overlaps_candidate _ _ _ _ Hi).
  - intros Hn Hrows. rewrite He.
    apply weighted_detection_merged; [exact Hn|].
    intros i Hi. apply Hrows. apply overlapping_members in Hi. tauto.
  - intros H1. rewrite He. apply weighted_detection_single. lia.
Qed.

Lemma wnms_round_merges_witness :
  jaccard1 (firstn 4 [0; 0; 1; 1; 0; 0; 0; 0; 0; 0; 0; 0; 0; 0; 0; 0; 9 # 10])
           (firstn 4 [0; 0; 1; 1 # 2; 0; 0; 0; 0; 0; 0; 0; 0; 0; 0; 0; 0; 8 # 10])
    == 1 # 2
  /\ exists merged,
       _weighted_non_max_suppression 1
         [[0; 0; 1; 1; 0; 0; 0; 0; 0; 0; 0; 0; 0; 0; 0; 0; 9 # 10];
          [0; 0; 1; 1 # 2; 0; 0; 0; 0; 0; 0; 0; 0; 0; 0; 0; 0; 8 # 10]]
         (3 # 10) = Some [merged]
       /\ col 16 merged == ((9 # 10) + (8 # 10)) / 2.
Proof.
  assert (H : jaccard1
                (firstn 4 [0; 0; 1; 1; 0; 0; 0; 0; 0; 0; 0; 0; 0; 0; 0; 0; 9 # 10])
                (firstn 4 [0; 0; 1; 1 # 2; 0; 0; 0; 0; 0; 0; 0; 0; 0; 0; 0; 0; 8 # 10])
              == 1 # 2) by (vm_compute; reflexivity).
  split; [exact H|].
  destruct (proj2 (proj2 wnms_round_merges)
            [0; 0; 1; 1; 0; 0; 0; 0; 0; 0; 0; 0; 0; 0; 0; 0; 9 # 10]
            [0; 0; 1; 1 # 2; 0; 0; 0; 0; 0; 0; 0; 0; 0; 0; 0; 0; 8 # 10]
            (eq_refl 17%nat) (eq_refl 17%nat) H)
    as (merged & Hrun & Hs).
  exists merged. split; [apply Hrun; lia | exact Hs].
Defined.

(** ** Pixel scaling, tilt classification and box refinement *)

Lemma to_pixel_bounds (v : Q) (dim : Z) :
  (1 <= dim)%Z -> (0 <= to_pixel v dim <= dim - 1)%Z.
Proof.
  intros Hdim. unfold to_pixel.
  assert (Hlh : 0 <= inject_Z (dim - 1)).
  { change 0 with (inject_Z 0). rewrite <- Zle_Qle. lia. }
  destruct (np_clip_bounds (v * inject_Z dim) 0 (inject_Z (dim - 1)) Hlh).
  apply py_int_bounds; assumption.
Qed.

Lemma Qlt_bool_double (x y : Z) :
  Qlt_bool (inject_Z x * 2) (inject_Z y) = (2 * x <? y)%Z.
Proof.
  assert (H2 : inject_Z x * 2 == inject_Z (2 * x)).
  { rewrite inject_Z_mult. change (inject_Z 2) with 2. ring. }
  destruct (Z.ltb_spec (2 * x) y) as [H|H].
  - apply Qlt_bool_iff. rewrite H2. rewrite <- Zlt_Qlt. exact H.
  - apply Qlt_bool_false_iff. rewrite H2. rewrite <- Zle_Qle. exact H.
Qed.

(** The tilt test of lines 229-232, on gaps that are absolute values. *)
Lemma is_highly_tilted_iff (left_gap right_gap : Z) :
  (0 <= left_gap)%Z -> (0 <= right_gap)%Z ->
  is_highly_tilted left_gap right_gap = true
  <-> (left_gap <> 0 /\ right_gap <> 0
       /\ (2 * right_gap < left_gap \/ 2 * left_gap < right_gap))%Z.
Proof.
  intros Hl Hr. unfold is_highly_tilted. rewrite !Qlt_bool_double.
  destruct (Z.ltb_spec 0 right_gap); destruct (Z.ltb_spec 0 left_gap);
    destruct (Z.ltb_spec (2 * right_gap) left_gap);
    destruct (Z.ltb_spec (2 * left_gap) right_gap);
    cbn [andb orb]; split; intros; try discriminate; try reflexivity;
    first [lia | exfalso; lia].
Qed.

(** The six keypoints of a produced detection. *)
Lemma detect_one_keypoints (width height : Z) (detection : row) :
  keypoints (detect_one width height detection)
  = map (fun k => (to_pixel (col (4 + k * 2) detection) width,
                   to_pixel (col (5 + k * 2) detection) height))
        (seq 0 6).
Proof. reflexivity. Qed.

(** The box of a produced detection: the clamped raw box when the face
    is highly tilted, the tightened horizontal span otherwise. *)
Lemma detect_one_box (width height : Z) (detection : row) :
  let kps := keypoints (detect_one width height detection) in
  box (detect_one width height detection)
  = if is_highly_tilted (left_gap_of kps) (right_gap_of kps) then
      (to_pixel (col 1 detection) width, to_pixel (col 0 detection) height,
       to_pixel (col 3 detection) width, to_pixel (col 2 detection) height)
    else
      (fst (tightened_span width kps), to_pixel (col 0 detection) height,
       snd (tightened_span width kps), to_pixel (col 2 detection) height).
Proof.
  intros kps. subst kps. rewrite detect_one_keypoints.
  unfold detect_one. cbn [box length map seq Nat.leb].
  destruct (is_highly_tilted _ _); [reflexivity|].
  destruct (tightened_span _ _). reflexivity.
Qed.

Lemma tightened_span_bounds (width : Z) (tight_points : list (Z * Z)) :
  (2 <= width)%Z ->
  (0 <= fst (tightened_span width tight_points)
     < snd (tightened_span width tight_points)
   /\ snd (tightened_span width tight_points) <= width - 1)%Z.
Proof.
  intros Hw. unfold tightened_span. cbv zeta.
  match goal with |- context [if ?c then _ else _] => destruct c end;
    cbn [fst snd]; lia.
Qed.

Lemma gaps_nonneg (kps : list (Z * Z)) :
  (0 <= left_gap_of kps)%Z /\ (0 <= right_gap_of kps)%Z.
Proof. unfold left_gap_of, right_gap_of. split; apply Z.abs_nonneg. Qed.

(** C7.  With [left_gap = |ear_left.x - eye_left.x|] and
    [right_gap = |ear_right.x - eye_right.x|] taken on the six pixel
    keypoints, the face is classified highly tilted exactly when both
    gaps are nonzero and one exceeds twice the other; a tilted face
    keeps the clamped raw box, any other face gets the tightened
    horizontal span; gaps 10 and 30 are classified tilted and the box
    is the clamped raw box. *)
Theorem tilt_classification (width height : Z) (detection : row) :
  let D := detect_one width height detection in
  let kps := keypoints D in
  let left_gap :=
    Z.abs (fst (nth 4 kps (0, 0)%Z) - fst (nth 0 kps (0, 0)%Z)) in
  let right_gap :=
    Z.abs (fst (nth 5 kps (0, 0)%Z) - fst (nth 1 kps (0, 0)%Z)) in
  let highly_tilted := is_highly_tilted left_gap right_gap in
  let raw_box :=
    (to_pixel (col 1 detection) width, to_pixel (col 0 detection) height,
     to_pixel (col 3 detection) width, to_pixel (col 2 detection) height) in
  (highly_tilted = true
   <-> (left_gap <> 0 /\ right_gap <> 0
        /\ (2 * right_gap < left_gap \/ 2 * left_gap < right_gap))%Z)
  /\ (highly_tilted = true -> box D = raw_box)
  /\ (highly_tilted = false ->
      box D = (fst (tightened_span width kps), to_pixel (col 0 detection) height,
               snd (tightened_span width kps), to_pixel (col 2 detection) height))
  /\ (left_gap = 10%Z -> right_gap = 30%Z ->
      highly_tilted = true /\ box D = raw_box).
Proof.
  intros D kps left_gap right_gap highly_tilted raw_box.
  pose proof (detect_one_box width height detection) as Hbox.
  cbv zeta in Hbox. fold D in Hbox. fold kps in Hbox.
  change (left_gap_of kps) with left_gap in Hbox.
  change (right_gap_of kps) with right_gap in Hbox.
  fold highly_tilted in Hbox. fold raw_box in Hbox.
  destruct (gaps_nonneg kps) as [Hl Hr].
  change (left_gap_of kps) with left_gap in Hl.
  change (right_gap_of kps) with right_gap in Hr.
  pose proof (is_highly_tilted_iff left_gap right_gap Hl Hr) as Hiff.
  fold highly_tilted in Hiff.
  split; [exact Hiff|]. split; [|split].
  - intros Ht. rewrite Ht in Hbox. exact Hbox.
  - intros Ht. rewrite Ht in Hbox. exact Hbox.
  - intros H10 H30.
    assert (Ht : highly_tilted = true) by (apply Hiff; lia).
    split; [exact Ht|]. rewrite Ht in Hbox. exact Hbox.
Qed.

Lemma tilt_classification_witness :
  let detection : row :=
    [1#10; 1#10; 9#10; 9#10; 2#10; 5#10; 5#10; 5#10; 4#10; 6#10;
     4#10; 7#10; 1#10; 5#10; 8#10; 5#10; 9#10] in
  let kps := keypoints (detect_one 100 100 detection) in
  Z.abs (fst (nth 4 kps (0, 0)%Z) - fst (nth 0 kps (0, 0)%Z)) = 10%Z
  /\ Z.abs (fst (nth 5 kps (0, 0)%Z) - fst (nth 1 kps (0, 0)%Z)) = 30%Z
  /\ is_highly_tilted 10 30 = true
  /\ box (detect_one 100 100 detection) = (10, 10, 90, 90)%Z.
Proof.
  intros detection kps.
  assert (H10 : Z.abs (fst (nth 4 kps (0, 0)%Z) - fst (nth 0 kps (0, 0)%Z)) = 10%Z)
    by (vm_compute; reflexivity).
  assert (H30 : Z.abs (fst (nth 5 kps (0, 0)%Z) - fst (nth 1 kps (0, 0)%Z)) = 30%Z)
    by (vm_compute; reflexivity).
  destruct (tilt_classification 100 100 detection) as (_ & _ & _ & Hd).
  destruct (Hd H10 H30) as [Ht Hb].
  split; [exact H10|]. split; [exact H30|]. split.
  - fold kps in Ht. rewrite H10, H30 in Ht. exact Ht.
  - rewrite Hb. vm_compute. reflexivity.
Defined.

(** C3 (amended).  In a frame at least 2 pixels wide and 1 pixel high,
    every produced detection has its four box coordinates and its six
    keypoints inside the frame, and [xmin < xmax] when the face is not
    classified highly tilted. *)
Theorem detections_within_frame
    (width height : Z) (detections : list row) (D : Detection) :
  (2 <= width)%Z -> (1 <= height)%Z ->
  In D (detect_results width height detections) ->
  let '(xmin, ymin, xmax, ymax) := box D in
  ((0 <= xmin <= width - 1)%Z /\ (0 <= xmax <= width - 1)%Z
   /\ (0 <= ymin <= height - 1)%Z /\ (0 <= ymax <= height - 1)%Z)
  /\ Forall (fun kp => (0 <= fst kp <= width - 1)%Z
                       /\ (0 <= snd kp <= height - 1)%Z) (keypoints D)
  /\ (is_highly_tilted (left_gap_of (keypoints D)) (right_gap_of (keypoints D))
      = false -> (xmin < xmax)%Z).
Proof.
  intros Hw Hh HD. unfold detect_results in HD.
  apply in_map_iff in HD. destruct HD as (detection & <- & _).
  pose proof (detect_one_box width height detection) as Hbox. cbv zeta in Hbox.
  pose proof (to_pixel_bounds (col 0 detection) height Hh) as By0.
  pose proof (to_pixel_bounds (col 2 detection) height Hh) as By2.
  pose proof (to_pixel_bounds (col 1 detection) width ltac:(lia)) as Bx1.
  pose proof (to_pixel_bounds (col 3 detection) width ltac:(lia)) as Bx3.
  pose proof (tightened_span_bounds width
                (keypoints (detect_one width height detection)) Hw) as Bt.
  assert (Hk : Forall (fun kp => (0 <= fst kp <= width - 1)%Z
                                 /\ (0 <= snd kp <= height - 1)%Z)
                 (keypoints (detect_one width height detection))).
  { rewrite detect_one_keypoints. apply Forall_forall. intros kp Hkp.
    apply in_map_iff in Hkp. destruct Hkp as (k & <- & _). cbn [fst snd].
    split; apply to_pixel_bounds; lia. }
  rewrite Hbox. destruct (is_highly_tilted _ _) eqn:Ht.
  - split; [lia|]. split; [exact Hk | discriminate].
  - split; [lia|]. split; [exact Hk | intros _; lia].
Qed.

Lemma detections_within_frame_witness :
  (0 <= 12 <= 100 - 1)%Z /\ (12 < 88)%Z
  /\ box (detect_one 100 100
            [1#10; 1#10; 9#10; 9#10; 3#10; 5#10; 7#10; 5#10; 5#10; 6#10;
             5#10; 7#10; 1#10; 5#10; 9#10; 5#10; 9#10])
     = (12, 10, 88, 90)%Z.
Proof.
  set (detection := [1#10; 1#10; 9#10; 9#10; 3#10; 5#10; 7#10; 5#10; 5#10; 6#10;
                     5#10; 7#10; 1#10; 5#10; 9#10; 5#10; 9#10]).
  assert (Hin : In (detect_one 100 100 detection)
                   (detect_results 100 100 [detection]))
    by (left; reflexivity).
  pose proof (detections_within_frame 100 100 [detection] _
                ltac:(lia) ltac:(lia) Hin) as H.
  assert (Hb : box (detect_one 100 100 detection) = (12, 10, 88, 90)%Z)
    by (vm_compute; reflexivity).
  rewrite Hb in H. destruct H as ((Hx & _) & _ & Hlt).
  split; [exact Hx|]. split; [|exact Hb].
  apply Hlt. vm_compute. reflexivity.
Defined.

(** C3, the claim as stated fails.  In a 640 x 480 frame a box 0.001
    high has [ymin = ymax = 240] after truncation; a highly tilted
    face keeps a clamped raw box with [xmin = xmax = 320]; and in a
    frame one pixel wide the tightened span starts at -1. *)
Lemma detection_box_not_ordered :
  box (detect_one 640 480
         [1#2; 1#10; 501#1000; 9#10; 3#10; 5#10; 7#10; 5#10; 5#10; 5#10;
          5#10; 5#10; 1#10; 5#10; 9#10; 5#10; 9#10])
    = (77, 240, 563, 240)%Z
  /\ ~ (240 < 240)%Z
  /\ box (detect_one 640 480
            [1#10; 1#2; 9#10; 1#2; 2#10; 5#10; 5#10; 5#10; 4#10; 6#10;
             4#10; 7#10; 1#10; 5#10; 8#10; 5#10; 9#10])
       = (320, 48, 320, 432)%Z
  /\ ~ (320 < 320)%Z
  /\ box (detect_one 1 1
            [1#10; 1#10; 9#10; 9#10; 3#10; 5#10; 7#10; 5#10; 5#10; 6#10;
             5#10; 7#10; 1#10; 5#10; 9#10; 5#10; 9#10])
       = (-1, 0, 0, 0)%Z
  /\ ~ (0 <= -1)%Z.
Proof.
  repeat split; try (vm_compute; reflexivity); lia.
Qed.

(** ** Anchor decoding *)

Lemma decode_row_at (cfg : config) (anchors raw_boxes : list row) (i : nat) :
  length raw_boxes = length anchors ->
  (i < length raw_boxes)%nat ->
  row_at i (map (fun p => decode_row cfg (fst p) (snd p))
                (combine anchors raw_boxes))
  = decode_row cfg (row_at i anchors) (row_at i raw_boxes).
Proof.
  intros Hlen Hi. unfold row_at.
  revert i raw_boxes Hlen Hi.
  induction anchors as [|a t IH]; intros i [|r rs] Hlen Hi; simpl in *;
    try lia.
  destruct i as [|i]; [reflexivity|]. apply IH; lia.
Qed.

(** C4 (amended).  For every anchor index [i], with [scale] 128 for the
    front variant and 256 for the back variant, the decoder computes
    the box center as [raw[i,0:2] / scale * anchor[i,2:4] + anchor[i,0:2]],
    the box size as [raw[i,2:4] / scale * anchor[i,2:4]], stores the
    corners center -/+ size/2 in the order (ymin, xmin, ymax, xmax),
    and decodes each of the six keypoint pairs, from column 4 on, with
    the formula of the center. *)
Theorem decode_boxes_formula
    (back_model : bool) (anchors raw_boxes : list row) (i : nat) :
  length raw_boxes = length anchors ->
  (i < length raw_boxes)%nat ->
  exists boxes,
    _decode_boxes (init back_model) anchors raw_boxes = Ok boxes
    /\ length boxes = length raw_boxes
    /\ let scale : Q := if back_model then 256 else 128 in
       let a := row_at i anchors in
       let r := row_at i raw_boxes in
       let b := row_at i boxes in
       let x_center := col 0 r / scale * col 2 a + col 0 a in
       let y_center := col 1 r / scale * col 3 a + col 1 a in
       let w := col 2 r / scale * col 2 a in
       let h := col 3 r / scale * col 3 a in
       col 0 b = y_center - h / 2 /\ col 1 b = x_center - w / 2
       /\ col 2 b = y_center + h / 2 /\ col 3 b = x_center + w / 2
       /\ forall k, (k < 6)%nat ->
            col (4 + 2 * k) b = col (4 + 2 * k) r / scale * col 2 a + col 0 a
            /\ col (5 + 2 * k) b = col (5 + 2 * k) r / scale * col 3 a + col 1 a.
Proof.
  intros Hlen Hi. unfold _decode_boxes.
  rewrite (proj2 (Nat.eqb_eq _ _) Hlen).
  eexists. split; [reflexivity|]. split.
  - rewrite length_map, length_combine. lia.
  - cbv zeta. rewrite (decode_row_at (init back_model) anchors raw_boxes i Hlen Hi).
    destruct back_model; cbn [init x_scale y_scale w_scale h_scale];
      (do 4 (split; [reflexivity|]);
       intros k Hk;
       do 6 (destruct k as [|k]; [split; reflexivity|]); lia).
Qed.

Lemma decode_boxes_formula_witness :
  exists boxes,
    _decode_boxes (init false) [[1#2; 1#2; 1#2; 1#2]]
      [[64; 0; 64; 64; 64; 64; 0; 0; 0; 0; 0; 0; 0; 0; 0; 0]] = Ok boxes
    /\ col 1 (row_at 0 boxes) = 64 / 128 * (1#2) + (1#2) - 64 / 128 * (1#2) / 2.
Proof.
  destruct (decode_boxes_formula false [[1#2; 1#2; 1#2; 1#2]]
              [[64; 0; 64; 64; 64; 64; 0; 0; 0; 0; 0; 0; 0; 0; 0; 0]] 0%nat)
    as (boxes & Hd & _ & Hf); [reflexivity | simpl; lia |].
  exists boxes. split; [exact Hd|].
  cbv zeta in Hf. destruct Hf as (_ & H1 & _). exact H1.
Defined.

(** C4, the claim as stated fails: with an anchor of width 1/2 the
    decoded box center and the first keypoint are at 3/4, where
    [raw / scale + anchor] gives 1. *)
Lemma decode_center_scaled_by_anchor :
  let a : row := [1#2; 1#2; 1#2; 1#2] in
  let r : row := [64; 0; 64; 64; 64; 64; 0; 0; 0; 0; 0; 0; 0; 0; 0; 0] in
  exists b,
    _decode_boxes (init false) [a] [r] = Ok [b]
    /\ (col 1 b + col 3 b) / 2 == 3 # 4
    /\ col 4 b == 3 # 4
    /\ col 0 r / 128 + col 0 a == 1
    /\ col 4 r / 128 + col 0 a == 1
    /\ ~ (col 1 b + col 3 b) / 2 == col 0 r / 128 + col 0 a
    /\ ~ col 4 b == col 4 r / 128 + col 0 a.
Proof.
  intros a r. eexists. split; [reflexivity|].
  repeat split; try (vm_compute; reflexivity); vm_compute; discriminate.
Qed.

End FaceDetectionFacts.

(* ===================================================================== *)
(** * Further properties *)
(* ===================================================================== *)

(** ** [round] and [int] *)

Lemma py_round_floor (x : Q) :
  (Qfloor x <= py_round x <= Qfloor x + 1)%Z.
Proof.
  unfold py_round.
  destruct (Qlt_bool _ _); [lia|].
  destruct (Qlt_bool _ _); [lia|].
  destruct (Z.even _); lia.
Qed.

(** [round] moves its argument by at most one half. *)
Lemma py_round_near (x : Q) :
  x - (1 # 2) <= inject_Z (py_round x) /\ inject_Z (py_round x) <= x + (1 # 2).
Proof.
  pose proof (Qfloor_le x) as Hlo. pose proof (Qlt_floor x) as Hhi.
  rewrite inject_Z_plus in Hhi. change (inject_Z 1) with 1 in Hhi.
  unfold py_round.
  case_Qlt (x - inject_Z (Qfloor x)) (1 # 2); [split; lra|].
  case_Qlt (1 # 2) (x - inject_Z (Qfloor x)).
  - rewrite inject_Z_plus. change (inject_Z 1) with 1. split; lra.
  - destruct (Z.even (Qfloor x)).
    + split; lra.
    + rewrite inject_Z_plus. change (inject_Z 1) with 1. split; lra.
Qed.

Lemma py_round_le_int (x : Q) (n : Z) : x <= inject_Z n -> (py_round x <= n)%Z.
Proof.
  intros Hx. pose proof (py_round_floor x) as [_ Hr].
  pose proof (Qfloor_resp_le _ _ Hx) as Hf. rewrite Qfloor_Z in Hf.
  destruct (Z.eq_dec (Qfloor x) n) as [He|Hne]; [|lia].
  pose proof (Qfloor_le x) as Hlo. rewrite He in Hlo.
  unfold py_round. rewrite He.
  assert (Hz : x - inject_Z n < 1 # 2) by lra.
  apply Qlt_bool_iff in Hz. rewrite Hz. lia.
Qed.

Lemma py_round_ge_int (x : Q) (n : Z) : inject_Z n <= x -> (n <= py_round x)%Z.
Proof.
  intros Hx. pose proof (py_round_floor x) as [Hr _].
  pose proof (Qfloor_resp_le _ _ Hx) as Hf. rewrite Qfloor_Z in Hf. lia.
Qed.

Lemma py_round_inject_Z (n : Z) : py_round (inject_Z n) = n.
Proof.
  apply Z.le_antisymm.
  - apply py_round_le_int. lra.
  - apply py_round_ge_int. lra.
Qed.

(** An integer comparison read off a rational one. *)
Lemma Zlt_of_Qlt (a b : Z) : inject_Z a < inject_Z b -> (a < b)%Z.
Proof. intros H. rewrite Zlt_Qlt. exact H. Qed.

Lemma Zle_of_Qle (a b : Z) : inject_Z a <= inject_Z b -> (a <= b)%Z.
Proof. intros H. rewrite Zle_Qle. exact H. Qed.

(** ** Emotion classifier: softmax and the reported class *)

Module EmotionPredictorMore.
Import EmotionPredictor.

Lemma np_sum_pos (l : list Q) :
  l <> [] -> (forall x, In x l -> 0 < x) -> 0 < np_sum l.
Proof.
  induction l as [|x t IH]; intros Hne Hpos; [congruence|].
  rewrite FaceDetectionFacts.np_sum_cons.
  assert (Hx : 0 < x) by (apply Hpos; left; reflexivity).
  destruct t as [|y t'].
  - unfold np_sum. simpl. lra.
  - assert (0 < np_sum (y :: t')).
    { apply IH; [discriminate|]. intros z Hz. apply Hpos. right. exact Hz. }
    lra.
Qed.

Lemma np_sum_ge_member (l : list Q) (x : Q) :
  (forall y, In y l -> 0 < y) -> In x l -> x <= np_sum l.
Proof.
  induction l as [|y t IH]; intros Hpos Hx; [contradiction|].
  rewrite FaceDetectionFacts.np_sum_cons.
  assert (Ht : 0 <= np_sum t).
  { destruct t as [|z t']; [unfold np_sum; simpl; lra|].
    apply Qlt_le_weak. apply np_sum_pos; [discriminate|].
    intros w Hw. apply Hpos. right. exact Hw. }
  destruct Hx as [<-|Hx].
  - lra.
  - assert (0 < y) by (apply Hpos; left; reflexivity).
    assert (x <= np_sum t) by (apply IH; [intros w Hw; apply Hpos; right|]; assumption).
    lra.
Qed.

Lemma np_sum_map_div (l : list Q) (s : Q) :
  np_sum (map (fun x => x / s) l) == np_sum l / s.
Proof.
  induction l as [|x t IH].
  - unfold np_sum. simpl. unfold Qdiv. ring.
  - cbn [map]. rewrite !FaceDetectionFacts.np_sum_cons, IH.
    unfold Qdiv. ring.
Qed.

(** X1.  With a positive exponential, the softmax of a non-empty row of
    logits is a probability distribution: every entry lies in (0, 1] and
    the entries sum to 1. *)
Theorem softmax_row_is_distribution (exp : Q -> Q) (logits : list Q) :
  (forall x, 0 < exp x) ->
  logits <> [] ->
  length (softmax_row exp logits) = length logits
  /\ (forall p, In p (softmax_row exp logits) -> 0 < p /\ p <= 1)
  /\ np_sum (softmax_row exp logits) == 1.
Proof.
  intros Hexp Hne. unfold softmax_row.
  set (e := map exp (map (fun x => x - np_max logits) logits)).
  assert (Hpos : forall x, In x e -> 0 < x).
  { intros x Hx. subst e. apply in_map_iff in Hx.
    destruct Hx as (y & <- & _). apply Hexp. }
  assert (Hene : e <> []).
  { subst e. destruct logits; [congruence | discriminate]. }
  pose proof (np_sum_pos e Hene Hpos) as Hs.
  split; [|split].
  - subst e. rewrite !length_map. reflexivity.
  - intros p Hp. apply in_map_iff in Hp. destruct Hp as (x & <- & Hx).
    pose proof (Hpos x Hx). pose proof (np_sum_ge_member e x Hpos Hx).
    split.
    + apply Qlt_shift_div_l; lra.
    + apply Qle_shift_div_r; lra.
  - rewrite np_sum_map_div. field. lra.
Qed.

Lemma softmax_row_is_distribution_witness :
  np_sum (softmax_row (fun x => 2 ^ Qfloor x) [0; 1; -1]) == 1.
Proof.
  apply (softmax_row_is_distribution (fun x => 2 ^ Qfloor x) [0; 1; -1]).
  - intros x. apply Qpower_0_lt. reflexivity.
  - discriminate.
Defined.

(** [np.argmax] returns the first position of the maximum. *)
Lemma argmax_from_max (l pre : list Q) (best : nat) :
  (best < length pre)%nat ->
  (forall x, In x pre -> x <= nth best pre 0) ->
  (forall j, (j < best)%nat -> nth j pre 0 < nth best pre 0) ->
  let r := argmax_from best (nth best pre 0) (length pre) l in
  (r < length (pre ++ l))%nat
  /\ (forall x, In x (pre ++ l) -> x <= nth r (pre ++ l) 0)
  /\ (forall j, (j < r)%nat -> nth j (pre ++ l) 0 < nth r (pre ++ l) 0).
Proof.
  revert pre best. induction l as [|x t IH]; intros pre best Hb Hmax Hfirst.
  - cbn [argmax_from]. rewrite app_nil_r. auto.
  - cbn [argmax_from].
    assert (Happ : pre ++ x :: t = (pre ++ [x]) ++ t)
      by (rewrite <- app_assoc; reflexivity).
    assert (Hlen : length (pre ++ [x]) = S (length pre))
      by (rewrite length_app; simpl; lia).
    cbv zeta. rewrite Happ.
    case_Qlt (nth best pre 0) x.
    + assert (Hx : nth (length pre) (pre ++ [x]) 0 = x) by apply nth_middle.
      pose proof (IH (pre ++ [x]) (length pre)) as H.
      cbv zeta in H. rewrite Hx, Hlen in H. apply H.
      * lia.
      * intros y Hy. apply in_app_or in Hy. destruct Hy as [Hy|[<-|[]]].
        -- specialize (Hmax y Hy). lra.
        -- lra.
      * intros j Hj. rewrite app_nth1 by exact Hj.
        assert (nth j pre 0 <= nth best pre 0) by (apply Hmax, nth_In; exact Hj).
        lra.
    + pose proof (IH (pre ++ [x]) best) as H.
      cbv zeta in H. rewrite (app_nth1 pre [x] 0 Hb), Hlen in H. apply H.
      * lia.
      * intros y Hy. apply in_app_or in Hy. destruct Hy as [Hy|[<-|[]]].
        -- apply Hmax. exact Hy.
        -- exact E.
      * intros j Hj. rewrite app_nth1 by lia. apply Hfirst. exact Hj.
Qed.

Lemma np_argmax_max (l : list Q) (label : nat) :
  np_argmax l = Ok label ->
  (label < length l)%nat
  /\ (forall x, In x l -> x <= nth label l 0)
  /\ (forall j, (j < label)%nat -> nth j l 0 < nth label l 0).
Proof.
  destruct l as [|x t]; [discriminate|].
  cbn [np_argmax]. intros H. injection H as <-.
  apply (argmax_from_max t [x] 0%nat).
  - simpl. lia.
  - intros y [<-|[]]. simpl. lra.
  - intros j Hj. lia.
Qed.

(** X2.  For a non-empty row of at most seven probabilities the loop body
    of [postprocess] does not raise; the confidence it reports is the
    maximum of the row, taken at its first position; with a confidence of
    at least 0.5 the label is the class name at that position, and
    otherwise it is "neutral". *)
Theorem postprocess_row_reports_maximum (probability : list Q) :
  probability <> [] ->
  (length probability <= 7)%nat ->
  exists label name,
    postprocess_row probability
      = Ok (PyStr name, nth label probability 0, probability)
    /\ (label < length probability)%nat
    /\ (forall p, In p probability -> p <= nth label probability 0)
    /\ (forall j, (j < label)%nat ->
          nth j probability 0 < nth label probability 0)
    /\ (1 # 2 <= nth label probability 0 -> nth_error classes label = Some name)
    /\ (nth label probability 0 < 1 # 2 -> name = "neutral"%string).
Proof.
  intros Hne Hlen.
  destruct (np_argmax probability) as [label|e] eqn:Ha.
  2:{ destruct probability; [congruence | discriminate]. }
  destruct (np_argmax_max _ _ Ha) as (Hl & Hmax & Hfirst).
  unfold postprocess_row. rewrite Ha. cbn [bind].
  case_Qlt (nth label probability 0) (1 # 2).
  - exists label, "neutral"%string. rewrite EmotionPredictorFacts.classes_last.
    cbn [bind]. repeat split; auto. intros; lra.
  - assert (Hin : (0 <= Z.of_nat label < Z.of_nat (length classes))%Z)
      by (simpl; lia).
    rewrite (py_getitem_in_range classes _ EmptyString Hin). cbn [bind].
    rewrite Nat2Z.id.
    exists label, (nth label classes EmptyString).
    repeat split; auto.
    + intros _. apply nth_error_nth'. simpl. lia.
    + intros; lra.
Qed.

Lemma postprocess_row_reports_maximum_witness :
  exists label name,
    postprocess_row [1#10; 1#10; 1#10; 55#100; 5#100; 5#100; 5#100]
      = Ok (PyStr name,
            nth label [1#10; 1#10; 1#10; 55#100; 5#100; 5#100; 5#100] 0,
            [1#10; 1#10; 1#10; 55#100; 5#100; 5#100; 5#100])
    /\ (label < 7)%nat.
Proof.
  destruct (postprocess_row_reports_maximum
              [1#10; 1#10; 1#10; 55#100; 5#100; 5#100; 5#100])
    as (label & name & H & Hl & _).
  - discriminate.
  - simpl. lia.
  - exists label, name. split; [exact H | exact Hl].
Defined.

(** X3.  The loop body of [postprocess] raises in exactly two cases: on
    an empty row ([np.argmax] raises [ValueError]) and on a row whose
    maximum is at least 0.5 and first sits at position 7 or later
    ([self.classes[label]] raises [IndexError]). *)
Theorem postprocess_row_raises (probability : list Q) :
  (probability = [] -> postprocess_row probability = Raise ValueError)
  /\ (forall label,
        np_argmax probability = Ok label ->
        1 # 2 <= nth label probability 0 ->
        (7 <= label)%nat ->
        postprocess_row probability = Raise IndexError)
  /\ (forall e,
        postprocess_row probability = Raise e ->
        (probability = [] /\ e = ValueError)
        \/ (exists label,
              np_argmax probability = Ok label
              /\ 1 # 2 <= nth label probability 0
              /\ (7 <= label)%nat /\ e = IndexError)).
Proof.
  split; [intros ->; reflexivity|].
  assert (Hhigh : forall label,
            np_argmax probability = Ok label ->
            1 # 2 <= nth label probability 0 ->
            (7 <= label)%nat ->
            postprocess_row probability = Raise IndexError).
  { intros label Ha Hc H7. unfold postprocess_row. rewrite Ha. cbn [bind].
    apply Qlt_bool_false_iff in Hc. rewrite Hc.
    unfold py_getitem.
    destruct (Z.ltb_spec (Z.of_nat label) 0); [lia|].
    destruct (Z.leb_spec 0 (Z.of_nat label)); [|lia].
    destruct (Z.ltb_spec (Z.of_nat label) (Z.of_nat (length classes)));
      [simpl in *; lia | reflexivity]. }
  split; [exact Hhigh|].
  intros e He.
  destruct probability as [|x t].
  - left. split; [reflexivity|]. cbn in He. congruence.
  - right.
    destruct (np_argmax (x :: t)) as [label|e'] eqn:Ha; [|discriminate].
    exists label.
    destruct (Qlt_le_dec (nth label (x :: t) 0) (1 # 2)) as [Hlow|Hhi].
    + exfalso. unfold postprocess_row in He. rewrite Ha in He. cbn [bind] in He.
      apply Qlt_bool_iff in Hlow. rewrite Hlow in He.
      rewrite EmotionPredictorFacts.classes_last in He. discriminate.
    + destruct (Nat.lt_ge_cases label 7) as [Hlt|Hge].
      * exfalso. unfold postprocess_row in He. rewrite Ha in He. cbn [bind] in He.
        apply Qlt_bool_false_iff in Hhi. rewrite Hhi in He.
        assert (Hin : (0 <= Z.of_nat label < Z.of_nat (length classes))%Z)
          by (simpl; lia).
        rewrite (py_getitem_in_range classes _ EmptyString Hin) in He.
        discriminate.
      * rewrite (Hhigh label eq_refl Hhi Hge) in He.
        injection He as <-. auto.
Qed.

Lemma postprocess_row_raises_witness :
  postprocess_row [0; 0; 0; 0; 0; 0; 0; 1] = Raise IndexError.
Proof.
  apply (proj1 (proj2 (postprocess_row_raises [0; 0; 0; 0; 0; 0; 0; 1])) 7%nat).
  - reflexivity.
  - vm_compute. discriminate.
  - lia.
Defined.

End EmotionPredictorMore.

(** ** Gender and age classifier *)

Module GenderAgePredictorFacts.
Import GenderAgePredictor.

(** [round] against a half-integer threshold above an even integer: ties
    go down to the even integer. *)
Lemma py_round_le_even (y : Q) (n : Z) :
  Z.even n = true ->
  ((py_round y <= n)%Z <-> y <= inject_Z n + (1 # 2)).
Proof.
  intros Hev. split.
  - intros Hr. destruct (py_round_near y) as [Hlo _].
    assert (inject_Z (py_round y) <= inject_Z n) by (rewrite <- Zle_Qle; exact Hr).
    lra.
  - intros Hy.
    pose proof (py_round_floor y) as [_ Hup].
    assert (Hf : (Qfloor y <= n)%Z).
    { assert (H1 : y <= inject_Z (n + 1)).
      { rewrite inject_Z_plus. change (inject_Z 1) with 1. lra. }
      pose proof (Qfloor_le y).
      destruct (Z_lt_le_dec n (Qfloor y)) as [Hgt|]; [|assumption].
      assert (inject_Z (n + 1) <= inject_Z (Qfloor y)) by (rewrite <- Zle_Qle; lia).
      rewrite inject_Z_plus in *. change (inject_Z 1) with 1 in *. lra. }
    destruct (Z.eq_dec (Qfloor y) n) as [He|Hne]; [|lia].
    unfold py_round. rewrite He.
    case_Qlt (y - inject_Z n) (1 # 2); [lia|].
    case_Qlt (1 # 2) (y - inject_Z n); [lra|].
    rewrite Hev. lia.
Qed.

Lemma age_label_cases (age : Z) :
  _age_label age
  = Ok (if (age <=? 18)%Z then "0-18"
        else if (age <=? 36)%Z then "19-36"
        else if (age <=? 60)%Z then "37-60" else "60+")%string.
Proof.
  unfold _age_label.
  destruct (age <=? 18)%Z; [reflexivity|].
  destruct (age <=? 36)%Z; [reflexivity|].
  destruct (age <=? 60)%Z; reflexivity.
Qed.

Lemma gender_of_pair (a b : Q) (rest : list Q) :
  np_argmax (firstn 2 (a :: b :: rest)) = Ok (if Qlt_bool a b then 1 else 0)%nat.
Proof. cbn. destruct (Qlt_bool a b); reflexivity. Qed.

(** One row with at least three entries. *)
Lemma postprocess_row_ok (a b c : Q) (rest : list Q) :
  postprocess_row (a :: b :: c :: rest)
  = Ok ((if Qlt_bool a b then "male" else "female")%string,
        (if Qle_bool (c * 100) (185 # 10) then "0-18"
         else if Qle_bool (c * 100) (365 # 10) then "19-36"
         else if Qle_bool (c * 100) (605 # 10) then "37-60" else "60+")%string).
Proof.
  unfold postprocess_row. rewrite gender_of_pair. cbn [bind].
  assert (Hg : py_getitem classes (Z.of_nat (if Qlt_bool a b then 1 else 0)%nat)
               = Ok (if Qlt_bool a b then "male" else "female")%string)
    by (destruct (Qlt_bool a b); reflexivity).
  rewrite Hg. cbn [bind np_getitem nth_error].
  rewrite age_label_cases. cbn [bind].
  assert (Hle : forall n : Z, Z.even n = true ->
            (py_round (c * 100) <=? n)%Z
            = Qle_bool (c * 100) (inject_Z n + (1 # 2))).
  { intros n Hev. pose proof (py_round_le_even (c * 100) n Hev) as Hiff.
    destruct (Z.leb_spec (py_round (c * 100)) n) as [H|H];
      destruct (Qle_bool (c * 100) (inject_Z n + (1 # 2))) eqn:E; try reflexivity.
    - apply Hiff in H. apply Qle_bool_iff in H. congruence.
    - apply Qle_bool_iff in E. apply Hiff in E. lia. }
  rewrite (Hle 18%Z eq_refl), (Hle 36%Z eq_refl), (Hle 60%Z eq_refl).
  assert (Hc : forall x y, x == y -> Qle_bool (c * 100) x = Qle_bool (c * 100) y).
  { intros x y Hxy. destruct (Qle_bool (c * 100) x) eqn:E1;
      destruct (Qle_bool (c * 100) y) eqn:E2; try reflexivity.
    - apply Qle_bool_iff in E1. apply Qle_bool_false_iff in E2. lra.
    - apply Qle_bool_iff in E2. apply Qle_bool_false_iff in E1. lra. }
  rewrite (Hc (inject_Z 18 + (1 # 2)) (185 # 10)) by reflexivity.
  rewrite (Hc (inject_Z 36 + (1 # 2)) (365 # 10)) by reflexivity.
  rewrite (Hc (inject_Z 60 + (1 # 2)) (605 # 10)) by reflexivity.
  reflexivity.
Qed.

(** X4.  On a batch whose rows all have at least three entries, with
    [pred[2]] at most 1e30 in magnitude, [postprocess] returns one
    (gender, age bucket) pair per row, in row order.  The gender is
    "male" exactly when [pred[1] > pred[0]] (a tie is "female").  The
    bucket is one of the four ranges and is read off [pred[2] * 100]:
    "0-18" up to 18.49, "19-36" from 18.51 to 36.49, "37-60" from 36.51
    to 60.49 and "60+" from 60.51 on.  (Within 0.01 of the edges 18.5,
    36.5 and 60.5 the float32 rounding of the product decides, and no
    bucket is stated.) *)
Theorem postprocess_genders_and_buckets (outputs : list (list Q)) :
  (forall pred, In pred outputs ->
     (3 <= length pred)%nat
     /\ Qabs (nth 2 pred 0) <= 1000000000000000000000000000000) ->
  exists results,
    postprocess outputs = Ok results
    /\ length results = length outputs
    /\ forall i pred, nth_error outputs i = Some pred ->
         exists gender bucket,
           nth_error results i = Some (gender, bucket)
           /\ (gender = "male"%string <-> nth 0 pred 0 < nth 1 pred 0)
           /\ (gender = "female"%string <-> nth 1 pred 0 <= nth 0 pred 0)
           /\ In bucket age_range
           /\ (nth 2 pred 0 * 100 <= 1849 # 100 -> bucket = "0-18"%string)
           /\ (1851 # 100 <= nth 2 pred 0 * 100 ->
               nth 2 pred 0 * 100 <= 3649 # 100 -> bucket = "19-36"%string)
           /\ (3651 # 100 <= nth 2 pred 0 * 100 ->
               nth 2 pred 0 * 100 <= 6049 # 100 -> bucket = "37-60"%string)
           /\ (6051 # 100 <= nth 2 pred 0 * 100 -> bucket = "60+"%string).
Proof.
  intros Hrows.
  destruct (mapM_ok postprocess_row outputs) as (results & Hres & Hlen & Hnth).
  { intros pred Hp. destruct (Hrows pred Hp) as [Hl _].
    destruct pred as [|a [|b [|c rest]]]; simpl in Hl; try lia.
    eexists. apply postprocess_row_ok. }
  exists results. split; [exact Hres|]. split; [exact Hlen|].
  intros i pred Hi.
  destruct (Hnth i pred Hi) as ([gender bucket] & Hr & Hrow).
  assert (Hp : In pred outputs) by (eapply nth_error_In; eauto).
  destruct (Hrows pred Hp) as [Hl _].
  destruct pred as [|a [|b [|c rest]]]; simpl in Hl; try lia.
  rewrite postprocess_row_ok in Hrow. injection Hrow as <- <-.
  eexists _, _. split; [exact Hr|]. cbn [nth].
  split; [|split].
  - case_Qlt a b; split; intros; try reflexivity; try discriminate; lra.
  - case_Qlt a b; split; intros; try reflexivity; try discriminate; lra.
  - destruct (Qle_bool (c * 100) (185 # 10)) eqn:E1;
      [apply Qle_bool_iff in E1 | apply Qle_bool_false_iff in E1];
      (destruct (Qle_bool (c * 100) (365 # 10)) eqn:E2;
       [apply Qle_bool_iff in E2 | apply Qle_bool_false_iff in E2]);
      (destruct (Qle_bool (c * 100) (605 # 10)) eqn:E3;
       [apply Qle_bool_iff in E3 | apply Qle_bool_false_iff in E3]);
      (split; [cbn; tauto|]);
      repeat split; intros; try reflexivity; exfalso; lra.
Qed.

Lemma postprocess_genders_and_buckets_witness :
  exists results,
    postprocess [[2#10; 8#10; 30#100]; [9#10; 1#10; 18#100]] = Ok results
    /\ nth_error results 1 = Some ("female", "0-18")%string.
Proof.
  destruct (postprocess_genders_and_buckets
              [[2#10; 8#10; 30#100]; [9#10; 1#10; 18#100]])
    as (results & Hr & _ & Hnth).
  - intros pred [<-|[<-|[]]]; (split; [simpl; lia | vm_compute; discriminate]).
  - exists results. split; [exact Hr|].
    destruct (Hnth 1%nat [9#10; 1#10; 18#100] eq_refl)
      as (gender & bucket & Hn & _ & Hf & _ & Hb & _).
    assert (Eg : gender = "female"%string)
      by (apply Hf; vm_compute; discriminate).
    assert (Eb : bucket = "0-18"%string)
      by (apply Hb; vm_compute; discriminate).
    rewrite Hn, Eg, Eb. reflexivity.
Defined.

Lemma mapM_raise_at {A B : Type} (f : A -> result B)
    (before : list A) (x : A) (after : list A) (e : exn) :
  (forall a, In a before -> exists b, f a = Ok b) ->
  f x = Raise e ->
  mapM f (before ++ x :: after) = Raise e.
Proof.
  induction before as [|a t IH]; intros Hok Hx.
  - simpl. rewrite Hx. reflexivity.
  - destruct (Hok a (or_introl eq_refl)) as [b Hb].
    simpl. rewrite Hb. cbn [bind].
    rewrite IH; [reflexivity | | exact Hx].
    intros a' Ha'. apply Hok. right. exact Ha'.
Qed.

(** X5.  A row with fewer than three entries makes [postprocess] raise:
    [ValueError] from [np.argmax] when the row is empty, [IndexError]
    from [pred[2]] otherwise; the first such row of a batch decides, and
    no result is returned for the rows before it. *)
Theorem postprocess_short_row
    (before : list (list Q)) (pred : list Q) (after : list (list Q)) :
  (forall p, In p before -> (3 <= length p)%nat) ->
  (length pred < 3)%nat ->
  postprocess (before ++ pred :: after)
  = Raise (match pred with [] => ValueError | _ :: _ => IndexError end).
Proof.
  intros Hbefore Hshort. unfold postprocess. apply mapM_raise_at.
  - intros p Hp. specialize (Hbefore p Hp).
    destruct p as [|a [|b [|c rest]]]; simpl in Hbefore; try lia.
    eexists. apply postprocess_row_ok.
  - destruct pred as [|a [|b [|c rest]]]; simpl in Hshort; try lia.
    + reflexivity.
    + reflexivity.
    + unfold postprocess_row. rewrite gender_of_pair. cbn [bind].
      destruct (Qlt_bool a b); reflexivity.
Qed.

Lemma postprocess_short_row_witness :
  postprocess ([[2#10; 8#10; 30#100]] ++ [9#10; 1#10] :: []) = Raise IndexError.
Proof.
  apply (postprocess_short_row [[2#10; 8#10; 30#100]] [9#10; 1#10] []).
  - intros p [<-|[]]. simpl. lia.
  - simpl. lia.
Defined.

(** The two flags after scanning a list of names. *)
Lemma scan_flags (names : list string) (fs fm : bool) :
  fold_left
    (fun (flags : bool * bool) (name : string) =>
       let find_sub :=
         if startswith name ["Sub"; "_minus"; "bn_data"]%string then true
         else fst flags in
       let find_mul :=
         if startswith name ["Mul"; "_mul"; "bn_data"]%string then true
         else snd flags in
       (find_sub, find_mul))
    names (fs, fm)
  = (fs || existsb (fun n => startswith n ["Sub"; "_minus"; "bn_data"]%string) names,
     fm || existsb (fun n => startswith n ["Mul"; "_mul"; "bn_data"]%string) names).
Proof.
  revert fs fm. induction names as [|n t IH]; intros fs fm.
  - simpl. rewrite !orb_false_r. reflexivity.
  - cbn [fold_left existsb fst snd]. cbv zeta.
    destruct (startswith n ["Sub"; "_minus"; "bn_data"]%string);
      destruct (startswith n ["Mul"; "_mul"; "bn_data"]%string);
      rewrite IH; cbn [orb]; rewrite ?orb_true_r; reflexivity.
Qed.

Lemma prefix_app (p rest : string) : String.prefix p (p ++ rest) = true.
Proof.
  induction p as [|c p IH]; simpl.
  - destruct rest; reflexivity.
  - destruct (Ascii.ascii_dec c c); [exact IH | congruence].
Qed.

(** X6.  [_infer_normalization] looks at the first eight node names only.
    It returns (0.0, 1.0) exactly when one of them starts with "Sub",
    "_minus" or "bn_data" and one of them (the same or another) starts
    with "Mul", "_mul" or "bn_data", and (127.5, 128.0) in every other
    case; so a single name starting with "bn_data" among the first eight
    is enough, and names from the ninth on never matter. *)
Theorem infer_normalization_first_eight (node_names : list string) :
  _infer_normalization node_names = _infer_normalization (firstn 8 node_names)
  /\ (_infer_normalization node_names = (0, 1)
      \/ _infer_normalization node_names = (1275 # 10, 128))
  /\ (_infer_normalization node_names = (0, 1) <->
      (exists n, In n (firstn 8 node_names)
                 /\ startswith n ["Sub"; "_minus"; "bn_data"]%string = true)
      /\ (exists n, In n (firstn 8 node_names)
                    /\ startswith n ["Mul"; "_mul"; "bn_data"]%string = true))
  /\ (forall rest, In ("bn_data" ++ rest)%string (firstn 8 node_names) ->
        _infer_normalization node_names = (0, 1)).
Proof.
  assert (Hdef : forall names,
            _infer_normalization names
            = if existsb (fun n => startswith n ["Sub"; "_minus"; "bn_data"]%string)
                   (firstn 8 names)
                 && existsb (fun n => startswith n ["Mul"; "_mul"; "bn_data"]%string)
                      (firstn 8 names)
              then (0, 1) else (1275 # 10, 128)).
  { intros names. unfold _infer_normalization. rewrite scan_flags. reflexivity. }
  assert (Hiff : _infer_normalization node_names = (0, 1) <->
      (exists n, In n (firstn 8 node_names)
                 /\ startswith n ["Sub"; "_minus"; "bn_data"]%string = true)
      /\ (exists n, In n (firstn 8 node_names)
                    /\ startswith n ["Mul"; "_mul"; "bn_data"]%string = true)).
  { rewrite Hdef, <- !existsb_exists.
    destruct (existsb _ _); destruct (existsb _ _); cbn [andb];
      split; intros H; try reflexivity; try discriminate;
      try (split; reflexivity); destruct H; discriminate. }
  split; [|split; [|split]].
  - rewrite !Hdef. rewrite firstn_firstn. reflexivity.
  - rewrite Hdef. destruct (_ && _); auto.
  - exact Hiff.
  - intros rest Hin. apply Hiff.
    assert (Hs : startswith ("bn_data" ++ rest) ["Sub"; "_minus"; "bn_data"]%string = true).
    { unfold startswith. cbn [existsb].
      rewrite (prefix_app "bn_data" rest), !orb_true_r. reflexivity. }
    assert (Hm : startswith ("bn_data" ++ rest) ["Mul"; "_mul"; "bn_data"]%string = true).
    { unfold startswith. cbn [existsb].
      rewrite (prefix_app "bn_data" rest), !orb_true_r. reflexivity. }
    split; exists ("bn_data" ++ rest)%string; auto.
Qed.

Lemma infer_normalization_first_eight_witness :
  _infer_normalization ["data"; "bn_data_fwd"; "conv0"]%string = (0, 1).
Proof.
  apply (proj2 (proj2 (proj2 (infer_normalization_first_eight
                                ["data"; "bn_data_fwd"; "conv0"]%string)))
           "_fwd"%string).
  simpl. auto.
Defined.

End GenderAgePredictorFacts.

(** ** Alignment geometry *)

Lemma inject_Z_sub (a b : Z) : inject_Z (a - b) == inject_Z a - inject_Z b.
Proof.
  unfold Z.sub. rewrite inject_Z_plus, inject_Z_opp. reflexivity.
Qed.

(** [round] against a half-integer bound. *)
Lemma py_round_lt_int (x : Q) (n : Z) :
  x < inject_Z n - (1 # 2) -> (py_round x < n)%Z.
Proof.
  intros H. pose proof (py_round_near x) as [_ Hn].
  apply Zlt_of_Qlt. lra.
Qed.

Lemma py_round_gt_int (x : Q) (n : Z) :
  inject_Z n + (1 # 2) < x -> (n < py_round x)%Z.
Proof.
  intros H. pose proof (py_round_near x) as [Hn _].
  apply Zlt_of_Qlt. lra.
Qed.

Module TransformFacts.
Import Transform.

Section Similarity.

Variable cos : Q -> Q.
Variable sin : Q -> Q.
Variable pi : Q.

(** What the code relies on when it is called with [rotation = 0]. *)
Hypothesis cos_0 : forall x, x == 0 -> cos x == 1.
Hypothesis sin_0 : forall x, x == 0 -> sin x == 0.

(** Without rotation [gender_age_transform] is the scaling about
    [center] that sends [center] to the middle of the output square. *)
Lemma gender_age_transform_unrotated
    (center : Q * Q) (output_size : Z) (scale : Q) (p : Q * Q) :
  let m := gender_age_transform cos sin pi center output_size scale 0 in
  fst (apply23 m p) == scale * (fst p - fst center) + inject_Z output_size / 2
  /\ snd (apply23 m p) == scale * (snd p - snd center) + inject_Z output_size / 2.
Proof.
  assert (C0 : cos 0 == 1) by (apply cos_0; reflexivity).
  assert (S0 : sin 0 == 0) by (apply sin_0; reflexivity).
  assert (Cr : cos (0 * pi / 180) == 1) by (apply cos_0; field).
  assert (Sr : sin (0 * pi / 180) == 0) by (apply sin_0; field).
  unfold gender_age_transform, then_, SimilarityTransform, matmul3, apply23.
  cbn [fst snd]. rewrite C0, S0, Cr, Sr. split; field.
Qed.

(** X7.  The gender/age crop, which is taken without rotation.  For a box
    whose rounded corners satisfy [x1 < x2] and [y1 < y2] and a positive
    target size, the scale is positive and sends the longer side of the
    box to the target size; the matrix sends the box center to the
    middle of the output square and the box corners into the square,
    the longer side of the box covering it from 0 to the target size:
    the whole box is inside the crop. *)
Theorem gender_age_crop_contains_box
    (target_size : Z) (bbox : Q * Q * Q * Q) :
  let '(bx1, by1, bx2, by2) := bbox in
  let x1 := py_round bx1 in
  let y1 := py_round by1 in
  let x2 := py_round bx2 in
  let y2 := py_round by2 in
  (0 < target_size)%Z -> (x1 < x2)%Z -> (y1 < y2)%Z ->
  let center := fst (GenderAgePredictor.crop_geometry target_size bbox) in
  let scale := snd (GenderAgePredictor.crop_geometry target_size bbox) in
  let m := gender_age_transform cos sin pi center target_size scale 0 in
  let top_left := apply23 m (inject_Z x1, inject_Z y1) in
  let bottom_right := apply23 m (inject_Z x2, inject_Z y2) in
  let t := inject_Z target_size in
  0 < scale
  /\ scale * inject_Z (Z.max (x2 - x1) (y2 - y1)) == t
  /\ fst (apply23 m center) == t / 2 /\ snd (apply23 m center) == t / 2
  /\ 0 <= fst top_left /\ fst top_left < fst bottom_right /\ fst bottom_right <= t
  /\ 0 <= snd top_left /\ snd top_left < snd bottom_right /\ snd bottom_right <= t
  /\ ((y2 - y1 <= x2 - x1)%Z -> fst top_left == 0 /\ fst bottom_right == t)
  /\ ((x2 - x1 <= y2 - y1)%Z -> snd top_left == 0 /\ snd bottom_right == t).
Proof.
  destruct bbox as [[[bx1 by1] bx2] by2].
  intros x1 y1 x2 y2 Ht Hx Hy center scale m top_left bottom_right t.
  assert (Hgeo : GenderAgePredictor.crop_geometry target_size (bx1, by1, bx2, by2)
                 = ((inject_Z (x1 + x2) / 2, inject_Z (y1 + y2) / 2),
                    inject_Z target_size
                    / (inject_Z (Z.max (Z.max (x2 - x1) 1) (Z.max (y2 - y1) 1)) * 1)))
    by reflexivity.
  assert (Hmax : Z.max (Z.max (x2 - x1) 1) (Z.max (y2 - y1) 1)
                 = Z.max (x2 - x1) (y2 - y1)) by lia.
  rewrite Hmax in Hgeo.
  subst top_left bottom_right m center scale. rewrite Hgeo. cbn [fst snd].
  fold t.
  set (M := inject_Z (Z.max (x2 - x1) (y2 - y1))) in *.
  set (scale := t / (M * 1)) in *.
  set (m := gender_age_transform cos sin pi
              (inject_Z (x1 + x2) / 2, inject_Z (y1 + y2) / 2) target_size scale 0).
  set (top_left := apply23 m (inject_Z x1, inject_Z y1)).
  set (bottom_right := apply23 m (inject_Z x2, inject_Z y2)).
  assert (HM : 1 <= M) by (subst M; change 1 with (inject_Z 1); rewrite <- Zle_Qle; lia).
  assert (HT : 0 < t) by (subst t; change 0 with (inject_Z 0); rewrite <- Zlt_Qlt; lia).
  assert (Hs : scale * M == t) by (subst scale; field; lra).
  assert (Hpos : 0 < scale).
  { subst scale. apply Qlt_shift_div_l; lra. }
  assert (Hw : 1 <= inject_Z x2 - inject_Z x1 /\ inject_Z x2 - inject_Z x1 <= M).
  { subst M. rewrite <- inject_Z_sub. change 1 with (inject_Z 1).
    rewrite <- !Zle_Qle. lia. }
  assert (Hh : 1 <= inject_Z y2 - inject_Z y1 /\ inject_Z y2 - inject_Z y1 <= M).
  { subst M. rewrite <- inject_Z_sub. change 1 with (inject_Z 1).
    rewrite <- !Zle_Qle. lia. }
  assert (Hcx : inject_Z (x1 + x2) / 2 == (inject_Z x1 + inject_Z x2) / 2)
    by (rewrite inject_Z_plus; reflexivity).
  assert (Hcy : inject_Z (y1 + y2) / 2 == (inject_Z y1 + inject_Z y2) / 2)
    by (rewrite inject_Z_plus; reflexivity).
  set (c := (inject_Z (x1 + x2) / 2, inject_Z (y1 + y2) / 2)) in *.
  destruct (gender_age_transform_unrotated c target_size scale c) as [Hc0 Hc1].
  destruct (gender_age_transform_unrotated c target_size scale
              (inject_Z x1, inject_Z y1)) as [Ha0 Ha1].
  destruct (gender_age_transform_unrotated c target_size scale
              (inject_Z x2, inject_Z y2)) as [Hb0 Hb1].
  cbv zeta in Hc0, Hc1, Ha0, Ha1, Hb0, Hb1.
  subst c. cbn [fst snd] in Hc0, Hc1, Ha0, Ha1, Hb0, Hb1.
  set (w := inject_Z x2 - inject_Z x1) in *.
  set (h := inject_Z y2 - inject_Z y1) in *.
  assert (Ea0 : fst top_left == t / 2 - scale * w / 2)
    by (eapply Qeq_trans; [exact Ha0 | rewrite inject_Z_plus; subst w; fold t; field]).
  assert (Eb0 : fst bottom_right == t / 2 + scale * w / 2)
    by (eapply Qeq_trans; [exact Hb0 | rewrite inject_Z_plus; subst w; fold t; field]).
  assert (Ea1 : snd top_left == t / 2 - scale * h / 2)
    by (eapply Qeq_trans; [exact Ha1 | rewrite inject_Z_plus; subst h; fold t; field]).
  assert (Eb1 : snd bottom_right == t / 2 + scale * h / 2)
    by (eapply Qeq_trans; [exact Hb1 | rewrite inject_Z_plus; subst h; fold t; field]).
  assert (Hwm : (y2 - y1 <= x2 - x1)%Z -> w == M).
  { intros Hlong. subst w M. rewrite <- inject_Z_sub.
    rewrite Z.max_l by exact Hlong. reflexivity. }
  assert (Hhm : (x2 - x1 <= y2 - y1)%Z -> h == M).
  { intros Hlong. subst h M. rewrite <- inject_Z_sub.
    rewrite Z.max_r by exact Hlong. reflexivity. }
  assert (Ec0 : fst (apply23 m (inject_Z (x1 + x2) / 2, inject_Z (y1 + y2) / 2))
                == t / 2)
    by (eapply Qeq_trans; [exact Hc0 | fold t; field]).
  assert (Ec1 : snd (apply23 m (inject_Z (x1 + x2) / 2, inject_Z (y1 + y2) / 2))
                == t / 2)
    by (eapply Qeq_trans; [exact Hc1 | fold t; field]).
  clear Hc0 Hc1 Ha0 Ha1 Hb0 Hb1 Hcx Hcy Hgeo.
  clearbody top_left bottom_right m w h scale M t.
  assert (Hsw : 0 < scale * w /\ scale * w <= t) by (split; nra).
  assert (Hsh : 0 < scale * h /\ scale * h <= t) by (split; nra).
  assert (Esw : w == M -> scale * w == t) by (intros E; rewrite E; exact Hs).
  assert (Esh : h == M -> scale * h == t) by (intros E; rewrite E; exact Hs).
  split; [exact Hpos|]. split; [exact Hs|].
  split; [exact Ec0|]. split; [exact Ec1|].
  set (sw := scale * w) in *. set (sh := scale * h) in *.
  clearbody sw sh.
  destruct top_left as [u1 v1]. destruct bottom_right as [u2 v2].
  cbn [fst snd] in *.
  destruct Hsw as [Hsw0 Hsw1]. destruct Hsh as [Hsh0 Hsh1].
  unfold Qdiv in Ea0, Eb0, Ea1, Eb1.
  change (/ 2) with (1 # 2) in Ea0, Eb0, Ea1, Eb1.
  do 6 (split; [lra|]).
  split.
  - intros Hlong. specialize (Hwm Hlong).
    specialize (Esw Hwm). split; lra.
  - intros Hlong. specialize (Hhm Hlong).
    specialize (Esh Hhm). split; lra.
Qed.

End Similarity.

Lemma gender_age_crop_contains_box_witness :
  let cos := fun x : Q => 1 - x * x / 2 in
  let sin := fun x : Q => x in
  let bbox := (10, 20, 90, 80) in
  let center := fst (GenderAgePredictor.crop_geometry 96 bbox) in
  let scale := snd (GenderAgePredictor.crop_geometry 96 bbox) in
  let m := gender_age_transform cos sin (355 # 113) center 96 scale 0 in
  ((0 < 96)%Z /\ (py_round 10 < py_round 90)%Z /\ (py_round 20 < py_round 80)%Z)
  /\ fst (apply23 m center) == inject_Z 96 / 2
  /\ snd (apply23 m center) == inject_Z 96 / 2
  /\ fst (apply23 m (inject_Z (py_round 10), inject_Z (py_round 20))) == 0
  /\ fst (apply23 m (inject_Z (py_round 90), inject_Z (py_round 80))) == inject_Z 96.
Proof.
  intros cos sin bbox center scale m.
  assert (Hc : forall x, x == 0 -> cos x == 1)
    by (intros x Hx; unfold cos; rewrite Hx; reflexivity).
  assert (Hs : forall x, x == 0 -> sin x == 0) by (intros x Hx; exact Hx).
  assert (H1 : (0 < 96)%Z) by reflexivity.
  assert (H2 : (py_round 10 < py_round 90)%Z) by (vm_compute; reflexivity).
  assert (H3 : (py_round 20 < py_round 80)%Z) by (vm_compute; reflexivity).
  pose proof (gender_age_crop_contains_box cos sin (355 # 113) Hc Hs 96
                (10, 20, 90, 80) H1 H2 H3) as H.
  cbv zeta in H.
  destruct H as (_ & _ & E0 & E1 & _ & _ & _ & _ & _ & _ & Hl & _).
  destruct Hl as [L0 L1]; [vm_compute; discriminate|].
  split; [exact (conj H1 (conj H2 H3))|].
  split; [exact E0|]. split; [exact E1|]. split; [exact L0 | exact L1].
Defined.

(** ** The eyes and the crop of [emotion_face_align] *)

(** X8.  The two eye points of [emotion_face_align], left eye first.
    The left eye is never to the right of the right eye.  With at least
    two keypoints the eyes are the first two keypoints, swapped exactly
    when the first lies to the right of the second.  Without keypoints,
    or with fewer than two, the eyes are placed at 0.3 and 0.7 of the
    box width and at the same height: the difference of their [x] is
    0.4 of the width, which is positive, and the difference of their
    [y] is 0, so the face is not rotated. *)
Theorem eye_points_left_first
    (bbox : Q * Q * Q * Q) (keypoints : option (list (Q * Q))) :
  let '(x1, y1, x2, y2) := bbox in
  let left_eye := fst (eye_points bbox keypoints) in
  let right_eye := snd (eye_points bbox keypoints) in
  fst left_eye <= fst right_eye
  /\ (forall a b rest, keypoints = Some (a :: b :: rest) ->
        (left_eye, right_eye) = if Qle_bool (fst a) (fst b) then (a, b) else (b, a))
  /\ (match keypoints with
      | Some kps => (length kps < 2)%nat
      | None => True
      end ->
      fst left_eye == x1 + (3 # 10) * py_max (x2 - x1) 1
      /\ fst right_eye - fst left_eye == (4 # 10) * py_max (x2 - x1) 1
      /\ 0 < fst right_eye - fst left_eye
      /\ snd right_eye - snd left_eye == 0).
Proof.
  destruct bbox as [[[x1 y1] x2] y2].
  cbv zeta.
  assert (Hdef : forall kps,
            match kps with Some l => (length l < 2)%nat | None => True end ->
            eye_points (x1, y1, x2, y2) kps
            = ((x1 + (3 # 10) * py_max (x2 - x1) 1, y1 + (4 # 10) * py_max (y2 - y1) 1),
               (x1 + (7 # 10) * py_max (x2 - x1) 1, y1 + (4 # 10) * py_max (y2 - y1) 1))).
  { intros [l|] Hl; [|reflexivity].
    unfold eye_points.
    destruct l as [|a [|b rest]]; cbn [length] in Hl; try lia; reflexivity. }
  assert (Hpair : forall a b rest,
            eye_points (x1, y1, x2, y2) (Some (a :: b :: rest))
            = if Qle_bool (fst a) (fst b) then (a, b) else (b, a)).
  { intros a b rest. unfold eye_points.
    cbn [length Nat.leb firstn map FaceDetection.np_argsort seq fold_right
         FaceDetection.insert_sorted nth].
    destruct (Qle_bool (fst a) (fst b)) eqn:E; reflexivity. }
  pose proof (FaceDetectionFacts.py_max_ge_r (x2 - x1) 1) as Hw.
  split; [|split].
  - destruct keypoints as [[|a [|b rest]]|].
    + rewrite (Hdef (Some [])) by (cbn; lia). cbn [fst snd]. lra.
    + rewrite (Hdef (Some [a])) by (cbn; lia). cbn [fst snd]. lra.
    + rewrite Hpair. destruct (Qle_bool (fst a) (fst b)) eqn:E; cbn [fst snd].
      * apply Qle_bool_iff; exact E.
      * apply Qle_bool_false_iff in E. lra.
    + rewrite (Hdef None) by exact I. cbn [fst snd]. lra.
  - intros a b rest ->. rewrite Hpair.
    destruct (Qle_bool (fst a) (fst b)); reflexivity.
  - intros Hk. rewrite (Hdef keypoints Hk). cbn [fst snd].
    repeat split; try lra; ring.
Qed.

Lemma eye_points_left_first_witness :
  eye_points (10, 20, 90, 80) (Some [(70, 40); (30, 42); (50, 60)])
  = ((30, 42), (70, 40))
  /\ snd (snd (eye_points (10, 20, 90, 80) None))
     - snd (fst (eye_points (10, 20, 90, 80) None)) == 0.
Proof.
  split.
  - pose proof (eye_points_left_first (10, 20, 90, 80)
                  (Some [(70, 40); (30, 42); (50, 60)])) as H.
    cbv zeta in H. destruct H as (_ & H & _).
    specialize (H (70, 40) (30, 42) [(50, 60)] eq_refl).
    rewrite (surjective_pairing (eye_points _ _)). exact H.
  - pose proof (eye_points_left_first (10, 20, 90, 80) None) as H.
    cbv zeta in H. destruct H as (_ & _ & H).
    destruct (H I) as (_ & _ & _ & H4). exact H4.
Defined.

(** A slice with in-range bounds. *)
Lemma slice_length_in_range (lo hi n : Z) :
  (0 <= lo)%Z -> (hi <= n)%Z -> (0 <= hi)%Z ->
  slice_length lo hi n = Z.max 0 (hi - lo).
Proof.
  intros Hlo Hhi Hhi0. unfold slice_length.
  destruct (hi <? 0)%Z eqn:E1; [apply Z.ltb_lt in E1; lia|].
  destruct (lo <? 0)%Z eqn:E2; [apply Z.ltb_lt in E2; lia|].
  lia.
Qed.

(** One axis of the crop window around a center inside the frame. *)
Lemma crop_side (c half : Q) (n : Z) :
  (1 <= n)%Z -> 0 <= c -> c <= inject_Z n -> (1 # 2) < half ->
  let lo := Z.max (py_round (c - half)) 0 in
  let hi := Z.min (py_round (c + half)) n in
  (0 <= lo < hi)%Z /\ (hi <= n)%Z /\ inject_Z lo <= c /\ c <= inject_Z hi.
Proof.
  intros Hn Hc0 Hcn Hh lo hi.
  assert (H1 : (py_round (c - half) < n)%Z) by (apply py_round_lt_int; lra).
  assert (H2 : (0 < py_round (c + half))%Z)
    by (apply py_round_gt_int; change (inject_Z 0) with 0; lra).
  pose proof (py_round_near (c - half)) as [_ Hlo].
  pose proof (py_round_near (c + half)) as [Hhi _].
  assert (H3 : (py_round (c - half) < py_round (c + half))%Z).
  { apply Zlt_of_Qlt. lra. }
  assert (Hlo' : inject_Z lo <= c).
  { subst lo. destruct (Z.max_spec (py_round (c - half)) 0) as [[_ ->]|[_ ->]].
    - change (inject_Z 0) with 0. lra.
    - lra. }
  assert (Hhi' : c <= inject_Z hi).
  { subst hi. destruct (Z.min_spec (py_round (c + half)) n) as [[_ ->]|[_ ->]].
    - lra.
    - lra. }
  subst lo hi. repeat split; try lia; assumption.
Qed.

(** X9.  The crop of [emotion_face_align] when the rotated face center
    lies inside the frame and the margin exceeds 1 (the default is
    1.25): the crop is cut from the rotated image, neither fallback is
    taken, the window is the square around the center clipped to the
    frame, it is not empty, it lies inside the frame and it contains the
    center. *)
Theorem crop_window_rotated
    (frame_w frame_h : Z) (bbox : Q * Q * Q * Q) (rotated_center : Q * Q)
    (margin : Q) :
  let '(x1, y1, x2, y2) := bbox in
  (1 <= frame_w)%Z -> (1 <= frame_h)%Z ->
  0 <= fst rotated_center <= inject_Z frame_w ->
  0 <= snd rotated_center <= inject_Z frame_h ->
  1 < margin ->
  let half := py_max (py_max (x2 - x1) 1) (py_max (y2 - y1) 1) * margin / 2 in
  let rx1 := Z.max (py_round (fst rotated_center - half)) 0 in
  let ry1 := Z.max (py_round (snd rotated_center - half)) 0 in
  let rx2 := Z.min (py_round (fst rotated_center + half)) frame_w in
  let ry2 := Z.min (py_round (snd rotated_center + half)) frame_h in
  crop_window frame_w frame_h bbox rotated_center margin
  = (Rotated, (rx1, ry1, rx2, ry2))
  /\ (0 <= rx1 < rx2)%Z /\ (rx2 <= frame_w)%Z
  /\ (0 <= ry1 < ry2)%Z /\ (ry2 <= frame_h)%Z
  /\ inject_Z rx1 <= fst rotated_center <= inject_Z rx2
  /\ inject_Z ry1 <= snd rotated_center <= inject_Z ry2.
Proof.
  destruct bbox as [[[x1 y1] x2] y2]. destruct rotated_center as [cx cy].
  cbn [fst snd]. intros Hw Hh [Hx0 Hx1] [Hy0 Hy1] Hm.
  set (half := py_max (py_max (x2 - x1) 1) (py_max (y2 - y1) 1) * margin / 2).
  assert (Hhalf : (1 # 2) < half).
  { subst half.
    pose proof (FaceDetectionFacts.py_max_ge_r (x2 - x1) 1) as A.
    pose proof (FaceDetectionFacts.py_max_ge_l (py_max (x2 - x1) 1) (py_max (y2 - y1) 1)) as B.
    set (s := py_max (py_max (x2 - x1) 1) (py_max (y2 - y1) 1)) in *.
    clearbody s. unfold Qdiv. change (/ 2) with (1 # 2). nra. }
  destruct (crop_side cx half frame_w Hw Hx0 Hx1 Hhalf) as (X1 & X2 & X3 & X4).
  destruct (crop_side cy half frame_h Hh Hy0 Hy1 Hhalf) as (Y1 & Y2 & Y3 & Y4).
  cbv zeta in X1, X2, X3, X4, Y1, Y2, Y3, Y4.
  set (rx1 := Z.max (py_round (cx - half)) 0) in *.
  set (rx2 := Z.min (py_round (cx + half)) frame_w) in *.
  set (ry1 := Z.max (py_round (cy - half)) 0) in *.
  set (ry2 := Z.min (py_round (cy + half)) frame_h) in *.
  split.
  - unfold crop_window. cbn [fst snd]. fold half. fold rx1 ry1 rx2 ry2.
    assert (E1 : (rx2 <=? rx1)%Z = false) by (apply Z.leb_gt; lia).
    assert (E2 : (ry2 <=? ry1)%Z = false) by (apply Z.leb_gt; lia).
    rewrite E1, E2. cbn [orb].
    rewrite (slice_length_in_range ry1 ry2 frame_h) by lia.
    rewrite (slice_length_in_range rx1 rx2 frame_w) by lia.
    assert (E3 : (Z.max 0 (ry2 - ry1) =? 0)%Z = false) by (apply Z.eqb_neq; lia).
    assert (E4 : (Z.max 0 (rx2 - rx1) =? 0)%Z = false) by (apply Z.eqb_neq; lia).
    rewrite E3, E4. reflexivity.
  - repeat split; try lia; assumption.
Qed.

Lemma crop_window_rotated_witness :
  crop_window 640 480 (100, 100, 200, 220) (150, 160) (125 # 100)
  = (Rotated, (75, 85, 225, 235)%Z).
Proof.
  pose proof (crop_window_rotated 640 480 (100, 100, 200, 220) (150, 160) (125 # 100)) as H.
  cbv zeta in H.
  destruct H as [H _].
  - lia.
  - lia.
  - cbn [fst]. split; [lra | vm_compute; discriminate].
  - cbn [snd]. split; [lra | vm_compute; discriminate].
  - reflexivity.
  - rewrite H. vm_compute. reflexivity.
Defined.

(** X10.  For a box with integer corners, as the detector produces
    them, with [0 <= x1 < x2], [x1 < frame_w], [0 <= y1 < y2] and
    [y1 < frame_h], the window handed to [cv2.resize] is never empty and
    lies inside the frame, wherever the rotation sends the face center
    and whatever the margin: when the rotated window is empty the code
    falls back to the box itself, clipped to the frame, and the second
    fallback is not needed. *)
Theorem crop_window_never_empty
    (frame_w frame_h : Z) (x1 y1 x2 y2 : Z) (rotated_center : Q * Q)
    (margin : Q) :
  (0 <= x1 < x2)%Z -> (x1 < frame_w)%Z ->
  (0 <= y1 < y2)%Z -> (y1 < frame_h)%Z ->
  let bbox := (inject_Z x1, inject_Z y1, inject_Z x2, inject_Z y2) in
  let '(source, (rx1, ry1, rx2, ry2)) :=
    crop_window frame_w frame_h bbox rotated_center margin in
  (0 <= rx1 < rx2)%Z /\ (rx2 <= frame_w)%Z
  /\ (0 <= ry1 < ry2)%Z /\ (ry2 <= frame_h)%Z
  /\ (source = Frame ->
      (rx1, ry1, rx2, ry2) = (x1, y1, Z.min x2 frame_w, Z.min y2 frame_h)).
Proof.
  intros Hx Hxw Hy Hyh bbox. subst bbox.
  unfold crop_window.
  set (half := py_max (py_max (inject_Z x2 - inject_Z x1) 1)
                 (py_max (inject_Z y2 - inject_Z y1) 1) * margin / 2).
  set (a1 := Z.max (py_round (fst rotated_center - half)) 0).
  set (b1 := Z.max (py_round (snd rotated_center - half)) 0).
  set (a2 := Z.min (py_round (fst rotated_center + half)) frame_w).
  set (b2 := Z.min (py_round (snd rotated_center + half)) frame_h).
  rewrite !py_round_inject_Z.
  destruct ((a2 <=? a1)%Z || (b2 <=? b1)%Z) eqn:E.
  - rewrite (slice_length_in_range (Z.max y1 0) (Z.min y2 frame_h) frame_h) by lia.
    rewrite (slice_length_in_range (Z.max x1 0) (Z.min x2 frame_w) frame_w) by lia.
    assert (E3 : (Z.max 0 (Z.min y2 frame_h - Z.max y1 0) =? 0)%Z = false)
      by (apply Z.eqb_neq; lia).
    assert (E4 : (Z.max 0 (Z.min x2 frame_w - Z.max x1 0) =? 0)%Z = false)
      by (apply Z.eqb_neq; lia).
    rewrite E3, E4. cbn [orb].
    repeat split; try lia. intros _.
    replace (Z.max x1 0) with x1 by lia. replace (Z.max y1 0) with y1 by lia.
    reflexivity.
  - apply orb_false_iff in E. destruct E as [E1 E2].
    apply Z.leb_gt in E1, E2.
    assert (A1 : (0 <= a1)%Z) by (subst a1; lia).
    assert (B1 : (0 <= b1)%Z) by (subst b1; lia).
    assert (A2 : (a2 <= frame_w)%Z) by (subst a2; lia).
    assert (B2 : (b2 <= frame_h)%Z) by (subst b2; lia).
    rewrite (slice_length_in_range b1 b2 frame_h) by lia.
    rewrite (slice_length_in_range a1 a2 frame_w) by lia.
    assert (E3 : (Z.max 0 (b2 - b1) =? 0)%Z = false) by (apply Z.eqb_neq; lia).
    assert (E4 : (Z.max 0 (a2 - a1) =? 0)%Z = false) by (apply Z.eqb_neq; lia).
    rewrite E3, E4. cbn [orb].
    repeat split; try lia. intros H; discriminate H.
Qed.

Lemma crop_window_never_empty_witness :
  ((0 <= 10 < 90)%Z /\ (10 < 640)%Z /\ (0 <= 20 < 80)%Z /\ (20 < 480)%Z)
  /\ let '(source, (rx1, ry1, rx2, ry2)) :=
       crop_window 640 480 (inject_Z 10, inject_Z 20, inject_Z 90, inject_Z 80)
         (-300, 50) (125 # 100) in
     (0 <= rx1 < rx2)%Z /\ (rx2 <= 640)%Z
     /\ (0 <= ry1 < ry2)%Z /\ (ry2 <= 480)%Z
     /\ (source = Frame ->
         (rx1, ry1, rx2, ry2) = (10, 20, Z.min 90 640, Z.min 80 480)%Z).
Proof.
  split; [lia|].
  apply (crop_window_never_empty 640 480 10 20 90 80 (-300, 50) (125 # 100)); lia.
Defined.

End TransformFacts.

(** ** Detector: IoU, pixel boxes, suppression and [detect] *)

Module FaceDetectionMore.
Import FaceDetection.
Import FaceDetectionFacts.

(** ** Range of the IoU *)

(** Boxes that are apart on one axis do not intersect. *)
Lemma clipped_overlap_apart (a0 a2 b0 b2 : Q) :
  a2 <= b0 \/ b2 <= a0 -> py_max (py_min a2 b2 - py_max a0 b0) 0 == 0.
Proof.
  intros H. unfold py_min, py_max.
  case_Qlt b2 a2; case_Qlt a0 b0;
    match goal with
    | |- (if Qlt_bool ?x 0 then _ else _) == _ => case_Qlt x 0
    end; try reflexivity; destruct H; lra.
Qed.

Lemma intersect1_apart (a b : row) :
  col 2 a <= col 0 b \/ col 2 b <= col 0 a
  \/ col 3 a <= col 1 b \/ col 3 b <= col 1 a ->
  intersect1 a b == 0.
Proof.
  intros H. unfold intersect1, np_clip_min. cbv zeta.
  destruct H as [H|[H|[H|H]]].
  - rewrite (clipped_overlap_apart (col 0 a) (col 2 a) (col 0 b) (col 2 b))
      by (left; exact H). ring.
  - rewrite (clipped_overlap_apart (col 0 a) (col 2 a) (col 0 b) (col 2 b))
      by (right; exact H). ring.
  - rewrite (clipped_overlap_apart (col 1 a) (col 3 a) (col 1 b) (col 3 b))
      by (left; exact H). ring.
  - rewrite (clipped_overlap_apart (col 1 a) (col 3 a) (col 1 b) (col 3 b))
      by (right; exact H). ring.
Qed.

Lemma col_firstn4 (j : nat) (d : row) :
  (j < 4)%nat -> col j (firstn 4 d) = col j d.
Proof.
  intros Hj. unfold col. rewrite nth_firstn.
  destruct (Nat.ltb_spec j 4); [reflexivity | lia].
Qed.

(** Detections whose boxes are apart on one axis have IoU 0. *)
Lemma jaccard1_apart (a b : row) :
  col 2 a <= col 0 b \/ col 2 b <= col 0 a
  \/ col 3 a <= col 1 b \/ col 3 b <= col 1 a ->
  jaccard1 (firstn 4 a) (firstn 4 b) == 0.
Proof.
  intros Hapart. unfold jaccard1. cbv zeta.
  assert (Hz : intersect1 (firstn 4 a) (firstn 4 b) == 0).
  { apply intersect1_apart. rewrite !col_firstn4 by lia. exact Hapart. }
  set (union := np_clip_min _ _). clearbody union.
  rewrite Hz. unfold Qdiv. apply Qmult_0_l.
Qed.

(** X11.  [_jaccard] returns one value per row of [box_b], every value
    lies in [0, 1], whatever the corners of the boxes, and the value for
    a box that is apart from [box_a] on one axis is 0. *)
Theorem jaccard_in_unit_interval (box_a : row) (box_b : list row) :
  length (_jaccard box_a box_b) = length box_b
  /\ (forall iou, In iou (_jaccard box_a box_b) -> 0 <= iou <= 1)
  /\ (forall i,
        let b := row_at i box_b in
        (i < length box_b)%nat ->
        col 2 box_a <= col 0 b \/ col 2 b <= col 0 box_a
        \/ col 3 box_a <= col 1 b \/ col 3 b <= col 1 box_a ->
        nth i (_jaccard box_a box_b) 0 == 0).
Proof.
  unfold _jaccard. split; [apply length_map|]. split.
  - intros iou Hin. apply in_map_iff in Hin. destruct Hin as (b & <- & _).
    split.
    + unfold jaccard1.
      pose proof (intersect1_nonneg box_a b).
      pose proof (union_floor (area box_a + area b - intersect1 box_a b)).
      apply Qle_shift_div_l; lra.
    + eapply Qle_trans; [apply jaccard1_le_self | apply jaccard1_self_le_1].
  - cbv zeta. intros i Hi Hapart.
    rewrite (nth_indep _ 0 (jaccard1 box_a [])) by (rewrite length_map; exact Hi).
    rewrite (map_nth (jaccard1 box_a) box_b [] i). fold (row_at i box_b).
    unfold jaccard1. cbv zeta.
    pose proof (intersect1_apart box_a (row_at i box_b) Hapart) as Hz.
    set (union := np_clip_min _ _). clearbody union.
    rewrite Hz. unfold Qdiv. apply Qmult_0_l.
Qed.

Lemma jaccard_in_unit_interval_witness :
  let a : row := [0; 0; 1 # 4; 1 # 4] in
  let b : row := [1 # 2; 1 # 2; 1; 1] in
  (col 2 a <= col 0 b \/ col 2 b <= col 0 a
   \/ col 3 a <= col 1 b \/ col 3 b <= col 1 a)
  /\ nth 0 (_jaccard a [b]) 0 == 0.
Proof.
  intros a b.
  assert (H : col 2 a <= col 0 (row_at 0 [b]) \/ col 2 (row_at 0 [b]) <= col 0 a
              \/ col 3 a <= col 1 (row_at 0 [b]) \/ col 3 (row_at 0 [b]) <= col 1 a)
    by (left; vm_compute; discriminate).
  split; [exact H|].
  destruct (jaccard_in_unit_interval a [b]) as (_ & _ & Hz).
  apply (Hz 0%nat); [cbn; lia | exact H].
Defined.

(** ** Pixel boxes *)

Lemma py_int_mono (x y : Q) : 0 <= x -> x <= y -> (py_int x <= py_int y)%Z.
Proof.
  intros Hx Hxy. rewrite !py_int_nonneg_floor by lra.
  apply Qfloor_resp_le. exact Hxy.
Qed.

Lemma np_clip_mono (x y lo hi : Q) :
  x <= y -> np_clip x lo hi <= np_clip y lo hi.
Proof.
  intros H. unfold np_clip.
  set (a := py_max x lo). set (b := py_max y lo).
  assert (Hab : a <= b).
  { subst a b. unfold py_max. case_Qlt x lo; case_Qlt y lo; lra. }
  clearbody a b. unfold py_min. case_Qlt hi a; case_Qlt hi b; lra.
Qed.

Lemma to_pixel_mono (v v' : Q) (dim : Z) :
  (1 <= dim)%Z -> v <= v' -> (to_pixel v dim <= to_pixel v' dim)%Z.
Proof.
  intros Hdim Hv. unfold to_pixel.
  assert (Hd : 0 < inject_Z dim).
  { change 0 with (inject_Z 0). rewrite <- Zlt_Qlt. lia. }
  assert (Hlh : 0 <= inject_Z (dim - 1)).
  { change 0 with (inject_Z 0). rewrite <- Zle_Qle. lia. }
  apply py_int_mono.
  - apply (np_clip_bounds _ 0 _ Hlh).
  - apply np_clip_mono. nra.
Qed.

(** X12.  Scaling to pixels keeps the order of the corners, without
    making it strict: in a frame of at least one pixel each way, a
    detection with [ymin <= ymax] gives a box with [ymin <= ymax], and
    one with [xmin <= xmax] gives a box with [xmin <= xmax]. *)
Theorem detect_one_keeps_order (width height : Z) (detection : row) :
  (1 <= width)%Z -> (1 <= height)%Z ->
  let '(xmin, ymin, xmax, ymax) := box (detect_one width height detection) in
  (col 0 detection <= col 2 detection -> (ymin <= ymax)%Z)
  /\ (col 1 detection <= col 3 detection -> (xmin <= xmax)%Z).
Proof.
  intros Hw Hh. pose proof (detect_one_box width height detection) as Hb.
  cbv zeta in Hb. rewrite Hb.
  destruct (is_highly_tilted _ _).
  - split; intros Ho; apply to_pixel_mono; assumption.
  - split; [intros Ho; apply to_pixel_mono; assumption|].
    intros _. unfold tightened_span. cbv zeta.
    match goal with |- context [if ?c then _ else _] => destruct c end;
      cbn [fst snd]; lia.
Qed.

Lemma detect_one_keeps_order_witness :
  box (detect_one 640 480
         [1#2; 1#10; 501#1000; 9#10; 3#10; 5#10; 7#10; 5#10; 5#10; 5#10;
          5#10; 5#10; 1#10; 5#10; 9#10; 5#10; 9#10])
  = (77, 240, 563, 240)%Z
  /\ (240 <= 240)%Z /\ (77 <= 563)%Z.
Proof.
  pose proof (detect_one_keeps_order 640 480
         [1#2; 1#10; 501#1000; 9#10; 3#10; 5#10; 7#10; 5#10; 5#10; 5#10;
          5#10; 5#10; 1#10; 5#10; 9#10; 5#10; 9#10]) as H.
  assert (E : box (detect_one 640 480
         [1#2; 1#10; 501#1000; 9#10; 3#10; 5#10; 7#10; 5#10; 5#10; 5#10;
          5#10; 5#10; 1#10; 5#10; 9#10; 5#10; 9#10])
  = (77, 240, 563, 240)%Z) by (vm_compute; reflexivity).
  rewrite E in H. destruct H as [H1 H2]; try lia.
  split; [exact E|]. split; [apply H1 | apply H2]; vm_compute; discriminate.
Defined.

(** The tightened span contains the nose it is centered on. *)
Lemma tightened_span_contains_nose (width : Z) (tight_points : list (Z * Z)) :
  let nose_x := fst (nth 2 tight_points (0, 0)%Z) in
  (0 <= nose_x <= width - 1)%Z ->
  (fst (tightened_span width tight_points) <= nose_x
   /\ nose_x <= snd (tightened_span width tight_points))%Z.
Proof.
  intros nose_x Hn. unfold tightened_span. cbv zeta. fold nose_x.
  set (ws := py_max (_ - _) 1).
  assert (Hws : 1 <= ws) by apply py_max_ge_r.
  clearbody ws.
  assert (N0 : 0 <= inject_Z nose_x)
    by (change 0 with (inject_Z 0); rewrite <- Zle_Qle; lia).
  assert (N1 : inject_Z nose_x <= inject_Z (width - 1))
    by (rewrite <- Zle_Qle; lia).
  set (W := inject_Z (width - 1)) in *. set (n := inject_Z nose_x) in *.
  set (cmin := py_max (n - ws / 2) 0).
  set (cmax := py_min (n + ws / 2) W).
  assert (Hcmin : cmin <= n).
  { subst cmin. unfold py_max, Qdiv. change (/ 2) with (1 # 2).
    case_Qlt (n - ws * (1 # 2)) 0; lra. }
  assert (Hcmax : n <= cmax).
  { subst cmax. unfold py_min, Qdiv. change (/ 2) with (1 # 2).
    case_Qlt W (n + ws * (1 # 2)); lra. }
  clearbody cmin cmax.
  assert (Hlo : forall c, c <= n -> (py_round c <= nose_x)%Z)
    by (intros c Hc; apply py_round_le_int; exact Hc).
  assert (Hhi : forall c, n <= c -> (nose_x <= py_round c)%Z)
    by (intros c Hc; apply py_round_ge_int; exact Hc).
  destruct (Qlt_bool (cmax - cmin) ws) eqn:E.
  - apply Qlt_bool_iff in E.
    set (d := ws - (cmax - cmin)) in *.
    assert (Hd : 0 < d) by (subst d; lra).
    assert (A : py_max (cmin - d / 2) 0 <= n).
    { unfold py_max, Qdiv. change (/ 2) with (1 # 2).
      case_Qlt (cmin - d * (1 # 2)) 0; lra. }
    assert (B : n <= py_min (cmax + d / 2) W).
    { unfold py_min, Qdiv. change (/ 2) with (1 # 2).
      case_Qlt W (cmax + d * (1 # 2)); lra. }
    specialize (Hlo _ A). specialize (Hhi _ B). cbn [fst snd]. lia.
  - specialize (Hlo _ Hcmin). specialize (Hhi _ Hcmax). cbn [fst snd]. lia.
Qed.

(** X13.  For a face that is not classified highly tilted, in a frame
    at least one pixel wide, the tightened box contains the nose
    keypoint horizontally: [xmin <= nose_x <= xmax], where [nose_x] is
    the pixel of column 8 of the detection. *)
Theorem tightened_box_contains_nose (width height : Z) (detection : row) :
  (1 <= width)%Z ->
  let D := detect_one width height detection in
  is_highly_tilted (left_gap_of (keypoints D)) (right_gap_of (keypoints D)) = false ->
  let '(xmin, _, xmax, _) := box D in
  let nose_x := fst (nth 2 (keypoints D) (0, 0)%Z) in
  (nose_x = to_pixel (col 8 detection) width
   /\ xmin <= nose_x <= xmax)%Z.
Proof.
  intros Hw D Ht. subst D.
  pose proof (detect_one_box width height detection) as Hb.
  cbv zeta in Hb. rewrite Hb, Ht.
  assert (Hn : fst (nth 2 (keypoints (detect_one width height detection)) (0, 0)%Z)
               = to_pixel (col 8 detection) width) by reflexivity.
  pose proof (to_pixel_bounds (col 8 detection) width Hw) as Hp.
  pose proof (tightened_span_contains_nose width
                (keypoints (detect_one width height detection))) as Hc.
  cbv zeta in Hc. rewrite Hn in Hc. specialize (Hc Hp).
  rewrite Hn. split; [reflexivity|]. lia.
Qed.

Lemma tightened_box_contains_nose_witness :
  let detection : row :=
    [1#10; 1#10; 9#10; 9#10; 3#10; 5#10; 7#10; 5#10; 5#10; 6#10;
     5#10; 7#10; 1#10; 5#10; 9#10; 5#10; 9#10] in
  is_highly_tilted (left_gap_of (keypoints (detect_one 100 100 detection)))
    (right_gap_of (keypoints (detect_one 100 100 detection))) = false
  /\ box (detect_one 100 100 detection) = (12, 10, 88, 90)%Z
  /\ (12 <= 50 <= 88)%Z.
Proof.
  intros detection.
  assert (Ht : is_highly_tilted (left_gap_of (keypoints (detect_one 100 100 detection)))
                 (right_gap_of (keypoints (detect_one 100 100 detection))) = false)
    by (vm_compute; reflexivity).
  assert (Eb : box (detect_one 100 100 detection) = (12, 10, 88, 90)%Z)
    by (vm_compute; reflexivity).
  assert (En : to_pixel (col 8 detection) 100 = 50%Z) by (vm_compute; reflexivity).
  pose proof (tightened_box_contains_nose 100 100 detection ltac:(lia) Ht) as H.
  rewrite Eb in H. cbv zeta in H. destruct H as [H1 H2].
  rewrite H1, En in H2.
  split; [exact Ht|]. split; [exact Eb | exact H2].
Defined.


(** Every detection the loop appends is built from a candidate of
    [remaining] and a set of indices of [remaining] that contains it. *)
(** ** Weighted non-max suppression: what the output is made of *)

Lemma wnms_loop_members (detections : list row) (thr : Q) :
  forall fuel remaining output res,
    wnms_loop fuel detections thr remaining output = Some res ->
    exists out,
      res = output ++ out
      /\ Forall (fun d => exists c overlapping,
                   In c overlapping /\ incl overlapping remaining
                   /\ d = weighted_detection_of detections (row_at c detections)
                            overlapping) out.
Proof.
  induction fuel as [|fuel IH]; intros remaining output res Hrun.
  - destruct remaining; [|discriminate].
    injection Hrun as <-. exists []. rewrite app_nil_r. split; [reflexivity | constructor].
  - destruct remaining as [|c rest].
    + injection Hrun as <-. exists []. rewrite app_nil_r.
      split; [reflexivity | constructor].
    + destruct (overlaps detections thr c c) eqn:Hc.
      2:{ rewrite (wnms_loop_stuck _ _ _ Hc) in Hrun. discriminate. }
      cbn [wnms_loop] in Hrun. rewrite wnms_round_eq in Hrun.
      cbn [filter] in Hrun. rewrite Hc in Hrun. cbn [negb] in Hrun.
      apply IH in Hrun. destruct Hrun as (out & -> & Hall).
      eexists (_ :: out). rewrite <- app_assoc. split; [reflexivity|].
      constructor.
      * exists c, (c :: filter (overlaps detections thr c) rest).
        split; [left; reflexivity|]. split; [|reflexivity].
        intros i [<-|Hi]; [left; reflexivity|].
        right. apply filter_In in Hi. tauto.
      * eapply Forall_impl; [|exact Hall].
        intros d (c' & ov & Hin & Hincl & ->).
        exists c', ov. split; [exact Hin|]. split; [|reflexivity].
        intros i Hi. right. apply Hincl in Hi. apply filter_In in Hi. tauto.
Qed.

(** The same for the whole suppression: the indices are those of
    [detections]. *)
Lemma wnms_members (fuel : nat) (detections : list row) (thr : Q) (out : list row) :
  _weighted_non_max_suppression fuel detections thr = Some out ->
  forall d, In d out ->
    exists c overlapping,
      In c overlapping
      /\ (forall i, In i overlapping -> (i < length detections)%nat)
      /\ d = weighted_detection_of detections (row_at c detections) overlapping.
Proof.
  unfold _weighted_non_max_suppression.
  destruct (size detections =? 0)%nat.
  - intros H. injection H as <-. intros d [].
  - intros Hrun. apply wnms_loop_members in Hrun.
    destruct Hrun as (o & -> & Hall). cbn [app].
    intros d Hd. rewrite Forall_forall in Hall.
    destruct (Hall d Hd) as (c & ov & Hc & Hincl & ->).
    exists c, ov. split; [exact Hc|]. split; [|reflexivity].
    intros i Hi. apply initial_remaining_In. apply Hincl. exact Hi.
Qed.

Lemma np_sum_bounds (l : list Q) (lo hi : Q) :
  (forall x, In x l -> lo <= x <= hi) ->
  inject_Z (Z.of_nat (length l)) * lo <= np_sum l
  /\ np_sum l <= inject_Z (Z.of_nat (length l)) * hi.
Proof.
  induction l as [|x t IH]; intros H.
  - unfold np_sum. cbn [fold_left length].
    change (inject_Z (Z.of_nat 0)) with 0. split; lra.
  - rewrite np_sum_cons. cbn [length]. rewrite Nat2Z.inj_succ.
    unfold Z.succ. rewrite inject_Z_plus. change (inject_Z 1) with 1.
    destruct (H x (or_introl eq_refl)) as [H1 H2].
    destruct IH as [I1 I2]; [intros y Hy; apply H; right; exact Hy|].
    split; lra.
Qed.

Lemma np_sum_weighted_bounds {A : Type} (c s : A -> Q) (l : list A) (lo hi : Q) :
  (forall x, In x l -> 0 <= s x /\ lo <= c x <= hi) ->
  lo * np_sum (map s l) <= np_sum (map (fun x => c x * s x) l)
  /\ np_sum (map (fun x => c x * s x) l) <= hi * np_sum (map s l).
Proof.
  induction l as [|x t IH]; intros H.
  - unfold np_sum. cbn [map fold_left]. split; lra.
  - cbn [map]. rewrite !np_sum_cons.
    destruct (H x (or_introl eq_refl)) as (H0 & H1 & H2).
    destruct IH as [I1 I2]; [intros y Hy; apply H; right; exact Hy|].
    split; nra.
Qed.

Lemma np_sum_map_pos {A : Type} (s : A -> Q) (l : list A) :
  l <> [] -> (forall x, In x l -> 0 < s x) -> 0 < np_sum (map s l).
Proof.
  intros Hne H. destruct l as [|x t]; [congruence|].
  cbn [map]. rewrite np_sum_cons.
  assert (Ht : 0 <= np_sum (map s t)).
  { clear Hne. induction t as [|y t IH]; [unfold np_sum; cbn [map fold_left]; lra|].
    cbn [map]. rewrite np_sum_cons.
    assert (0 < s y) by (apply H; right; left; reflexivity).
    assert (0 <= np_sum (map s t)).
    { apply IH. intros z [<-|Hz]; apply H; [left | right; right]; auto. }
    lra. }
  assert (0 < s x) by (apply H; left; reflexivity). lra.
Qed.

Lemma weighted_detection_length
    (detections : list row) (detection : row) (overlapping : list nat) :
  length detection = 17%nat ->
  (forall i, In i overlapping -> length (row_at i detections) = 17%nat) ->
  length (weighted_detection_of detections detection overlapping) = 17%nat.
Proof.
  intros Hd Hrows. unfold weighted_detection_of.
  destruct (1 <? length overlapping)%nat; [|exact Hd].
  rewrite combine_map_map, map_map. cbn [fst snd].
  set (total := np_sum (map (fun i => col 16 (row_at i detections)) overlapping)).
  set (products := map _ overlapping).
  assert (Hprod : forall r, In r products -> length r = 16%nat).
  { intros r Hr. subst products. apply in_map_iff in Hr.
    destruct Hr as (i & <- & Hi).
    rewrite length_map, length_firstn, (Hrows i Hi). reflexivity. }
  rewrite !length_app, length_map, length_skipn, Hd.
  destruct (sum_axis0_col 16 0 products) as [-> _]; [lia | exact Hprod|].
  reflexivity.
Qed.

Lemma row_at_In (detections : list row) (i : nat) :
  (i < length detections)%nat -> In (row_at i detections) detections.
Proof. intros Hi. unfold row_at. apply nth_In. exact Hi. Qed.

(** The score of an emitted detection lies between bounds that hold
    for the scores of its members. *)
Lemma weighted_detection_score_range
    (detections : list row) (c : nat) (overlapping : list nat) (lo hi : Q) :
  In c overlapping ->
  (forall i, In i overlapping -> length (row_at i detections) = 17%nat) ->
  (forall i, In i overlapping -> lo <= col 16 (row_at i detections) <= hi) ->
  lo <= col 16 (weighted_detection_of detections (row_at c detections) overlapping)
     <= hi.
Proof.
  intros Hc Hlen Hb.
  destruct (Nat.ltb_spec 1 (length overlapping)) as [Hn|Hn].
  - destruct (weighted_detection_merged detections (row_at c detections)
                overlapping Hn Hlen) as [_ ->].
    unfold mean_score.
    destruct (np_sum_bounds
                (map (fun i => col 16 (row_at i detections)) overlapping) lo hi)
      as [S1 S2].
    { intros x Hx. apply in_map_iff in Hx. destruct Hx as (i & <- & Hi).
      apply Hb, Hi. }
    rewrite length_map in S1, S2.
    assert (Hpos : 0 < inject_Z (Z.of_nat (length overlapping))).
    { change 0 with (inject_Z 0). rewrite <- Zlt_Qlt. lia. }
    split; [apply Qle_shift_div_l | apply Qle_shift_div_r]; try exact Hpos; lra.
  - rewrite weighted_detection_single by exact Hn. apply Hb, Hc.
Qed.

(** With positive scores, so does each of its sixteen coordinates. *)
Lemma weighted_detection_coordinate_range
    (detections : list row) (c : nat) (overlapping : list nat) (j : nat) (lo hi : Q) :
  (j < 16)%nat ->
  In c overlapping ->
  (forall i, In i overlapping -> length (row_at i detections) = 17%nat) ->
  (forall i, In i overlapping -> 0 < col 16 (row_at i detections)) ->
  (forall i, In i overlapping -> lo <= col j (row_at i detections) <= hi) ->
  lo <= col j (weighted_detection_of detections (row_at c detections) overlapping)
     <= hi.
Proof.
  intros Hj Hc Hlen Hpos Hb.
  destruct (Nat.ltb_spec 1 (length overlapping)) as [Hn|Hn].
  - destruct (weighted_detection_merged detections (row_at c detections)
                overlapping Hn Hlen) as [Hj' _].
    rewrite (Hj' j Hj). unfold weighted_average.
    destruct (np_sum_weighted_bounds
                (fun i => col j (row_at i detections))
                (fun i => col 16 (row_at i detections)) overlapping lo hi)
      as [S1 S2].
    { intros i Hi. split; [apply Qlt_le_weak, Hpos, Hi | apply Hb, Hi]. }
    assert (Htot : 0 < np_sum (map (fun i => col 16 (row_at i detections))
                                   overlapping)).
    { apply np_sum_map_pos; [|exact Hpos]. intros ->. cbn in Hn. lia. }
    split; [apply Qle_shift_div_l | apply Qle_shift_div_r]; try exact Htot; lra.
  - rewrite weighted_detection_single by exact Hn. apply Hb, Hc.
Qed.

(** X14.  The suppression does not leave the range of its input.  On
    detections of 17 columns, whenever it returns: every output has 17
    columns; bounds that hold for the scores of all inputs hold for the
    score of every output; and, when all input scores are positive,
    bounds that hold for one of the 16 coordinates of all inputs hold
    for that coordinate of every output. *)
Theorem wnms_output_within_input_range
    (fuel : nat) (detections : list row) (thr : Q) (out : list row) :
  (forall d, In d detections -> length d = 17%nat) ->
  _weighted_non_max_suppression fuel detections thr = Some out ->
  (forall d, In d out -> length d = 17%nat)
  /\ (forall lo hi,
        (forall d, In d detections -> lo <= col 16 d <= hi) ->
        forall d, In d out -> lo <= col 16 d <= hi)
  /\ (forall j lo hi, (j < 16)%nat ->
        (forall d, In d detections -> 0 < col 16 d) ->
        (forall d, In d detections -> lo <= col j d <= hi) ->
        forall d, In d out -> lo <= col j d <= hi).
Proof.
  intros Hlen Hrun.
  pose proof (wnms_members fuel detections thr out Hrun) as Hmem.
  split; [|split].
  - intros d Hd. destruct (Hmem d Hd) as (c & ov & Hc & Hov & ->).
    apply weighted_detection_length.
    + apply Hlen, row_at_In, Hov, Hc.
    + intros i Hi. apply Hlen, row_at_In, Hov, Hi.
  - intros lo hi Hb d Hd. destruct (Hmem d Hd) as (c & ov & Hc & Hov & ->).
    apply weighted_detection_score_range; [exact Hc| |];
      intros i Hi; [apply Hlen | apply Hb]; apply row_at_In, Hov, Hi.
  - intros j lo hi Hj Hpos Hb d Hd.
    destruct (Hmem d Hd) as (c & ov & Hc & Hov & ->).
    apply weighted_detection_coordinate_range; [exact Hj | exact Hc | | |];
      intros i Hi; [apply Hlen | apply Hpos | apply Hb]; apply row_at_In, Hov, Hi.
Qed.

Lemma wnms_output_within_input_range_witness :
  let detections : list row :=
    [[0; 0; 1; 1; 0; 0; 0; 0; 0; 0; 0; 0; 0; 0; 0; 0; 9 # 10];
     [0; 0; 1; 1 # 2; 0; 0; 0; 0; 0; 0; 0; 0; 0; 0; 0; 0; 8 # 10]] in
  exists merged,
    _weighted_non_max_suppression 1 detections (3 # 10) = Some [merged]
    /\ length merged = 17%nat
    /\ 8 # 10 <= col 16 merged <= 9 # 10
    /\ 1 # 2 <= col 3 merged <= 1.
Proof.
  intros detections.
  destruct (_weighted_non_max_suppression 1 detections (3 # 10)) as [out|] eqn:Hrun;
    [|vm_compute in Hrun; discriminate].
  assert (Hone : length out = 1%nat).
  { vm_compute in Hrun. injection Hrun as <-. reflexivity. }
  destruct out as [|merged [|]]; try discriminate.
  exists merged. split; [reflexivity|].
  destruct (wnms_output_within_input_range 1 detections (3 # 10) [merged])
    as (L & S & C).
  - intros d [<-|[<-|[]]]; reflexivity.
  - exact Hrun.
  - split; [apply L; left; reflexivity|]. split.
    + apply (S (8 # 10) (9 # 10)); [|left; reflexivity].
      intros d [<-|[<-|[]]]; vm_compute; split; discriminate.
    + apply (C 3%nat (1 # 2) 1); [lia | | |left; reflexivity].
      * intros d [<-|[<-|[]]]; vm_compute; reflexivity.
      * intros d [<-|[<-|[]]]; vm_compute; split; discriminate.
Defined.

(** ** Weighted non-max suppression: detections that do not overlap *)

Lemma insert_sorted_perm (key : nat -> Q) (i : nat) (l : list nat) :
  Permutation (insert_sorted key i l) (i :: l).
Proof.
  induction l as [|j t IH]; cbn [insert_sorted]; [reflexivity|].
  destruct (Qle_bool (key i) (key j)); [reflexivity|].
  rewrite IH. apply perm_swap.
Qed.

Lemma np_argsort_perm (keys : list Q) :
  Permutation (np_argsort keys) (seq 0 (length keys)).
Proof.
  unfold np_argsort. induction (seq 0 (length keys)) as [|i t IH];
    cbn [fold_right]; [reflexivity|].
  rewrite insert_sorted_perm. constructor. exact IH.
Qed.

Lemma initial_remaining_perm (detections : list row) :
  Permutation (initial_remaining detections) (seq 0 (length detections)).
Proof.
  unfold initial_remaining. rewrite <- Permutation_rev.
  rewrite np_argsort_perm, length_map. reflexivity.
Qed.

Lemma map_row_at_seq (detections : list row) :
  map (fun i => row_at i detections) (seq 0 (length detections)) = detections.
Proof.
  unfold row_at. apply nth_ext with (d := []) (d' := []).
  - rewrite length_map, length_seq. reflexivity.
  - intros n Hn. rewrite length_map, length_seq in Hn.
    rewrite (nth_indep _ _ (nth 0 detections [])) by (rewrite length_map, length_seq; exact Hn).
    rewrite (map_nth (fun i => nth i detections []) (seq 0 (length detections)) 0%nat n).
    rewrite seq_nth by exact Hn. reflexivity.
Qed.

Lemma filter_all {A : Type} (p : A -> bool) (l : list A) :
  (forall x, In x l -> p x = true) -> filter p l = l.
Proof.
  induction l as [|x t IH]; intros H; cbn [filter]; [reflexivity|].
  rewrite (H x (or_introl eq_refl)), IH; [reflexivity|].
  intros y Hy. apply H. right. exact Hy.
Qed.

Lemma filter_none {A : Type} (p : A -> bool) (l : list A) :
  (forall x, In x l -> p x = false) -> filter p l = [].
Proof.
  induction l as [|x t IH]; intros H; cbn [filter]; [reflexivity|].
  rewrite (H x (or_introl eq_refl)). apply IH.
  intros y Hy. apply H. right. exact Hy.
Qed.

(** When no two indices of [remaining] overlap, each round emits its
    candidate unchanged and removes nothing else. *)
Lemma wnms_loop_apart (detections : list row) (thr : Q) :
  forall remaining fuel output,
    NoDup remaining ->
    (forall i, In i remaining -> overlaps detections thr i i = true) ->
    (forall i j, In i remaining -> In j remaining -> i <> j ->
       overlaps detections thr i j = false) ->
    (length remaining <= fuel)%nat ->
    wnms_loop fuel detections thr remaining output
    = Some (output ++ map (fun i => row_at i detections) remaining).
Proof.
  induction remaining as [|c rest IH]; intros fuel output Hnd Hself Hapart Hfuel.
  - cbn [map]. rewrite app_nil_r. destruct fuel; reflexivity.
  - destruct fuel as [|fuel]; [cbn in Hfuel; lia|].
    inversion Hnd as [|? ? Hnotin Hnd']; subst.
    cbn [wnms_loop]. rewrite wnms_round_eq. cbn [filter].
    rewrite (Hself c (or_introl eq_refl)). cbn [negb].
    assert (Hrest : forall i, In i rest -> overlaps detections thr c i = false).
    { intros i Hi. apply Hapart; [left; reflexivity | right; exact Hi|].
      intros ->. contradiction. }
    rewrite (filter_all (fun i => negb (overlaps detections thr c i)) rest)
      by (intros i Hi; rewrite (Hrest i Hi); reflexivity).
    rewrite (filter_none (overlaps detections thr c) rest Hrest).
    rewrite weighted_detection_single by (cbn; lia).
    rewrite IH.
    + rewrite <- app_assoc. reflexivity.
    + exact Hnd'.
    + intros i Hi. apply Hself. right. exact Hi.
    + intros i j Hi Hj. apply Hapart; right; assumption.
    + cbn in Hfuel. lia.
Qed.

Lemma boxed_nonempty (d : row) : boxed d -> d <> [].
Proof.
  intros [_ Ha] ->. unfold area, col in Ha. cbn in Ha. lra.
Qed.

(** X15.  Detections that do not intersect come back unchanged.  When
    every box has its corners in order, an area of at least 1e-6 and
    coordinates of at most 1e9 in magnitude, the threshold lies between
    0 and 0.999999, and any two different boxes are apart on one axis
    (so that their intersection is exactly 0, in float32 too), the
    suppression returns for every iteration bound of at least the
    number of detections, and what it returns is the input detections,
    unchanged, rearranged by descending score. *)
Theorem wnms_keeps_separate_detections (detections : list row) (thr : Q) :
  (forall d, In d detections -> boxed d /\ in_range d) ->
  0 <= thr -> thr <= 999999 # 1000000 ->
  (forall i j, (i < length detections)%nat -> (j < length detections)%nat -> i <> j ->
     let a := row_at i detections in
     let b := row_at j detections in
     col 2 a <= col 0 b \/ col 2 b <= col 0 a
     \/ col 3 a <= col 1 b \/ col 3 b <= col 1 a) ->
  exists out,
    (forall fuel, (length detections <= fuel)%nat ->
       _weighted_non_max_suppression fuel detections thr = Some out)
    /\ Permutation out detections
    /\ StronglySorted (fun a b => col 16 b <= col 16 a) out.
Proof.
  intros Hd Hthr0 Hmargin Hapart.
  assert (Hbox : forall d, In d detections -> boxed d)
    by (intros d Hin; apply (Hd d Hin)).
  assert (Hthr : thr < 1) by lra.
  exists (map (fun i => row_at i detections) (initial_remaining detections)).
  split; [|split].
  - intros fuel Hfuel. unfold _weighted_non_max_suppression.
    destruct (size detections =? 0)%nat eqn:Hsz.
    + destruct detections as [|d t]; [reflexivity|].
      exfalso. pose proof (boxed_nonempty d (Hbox d (or_introl eq_refl))) as Hne.
      destruct d; [congruence|]. cbn in Hsz. discriminate.
    + rewrite (wnms_loop_apart detections thr (initial_remaining detections) fuel []).
      * reflexivity.
      * eapply Permutation_NoDup; [symmetry; apply initial_remaining_perm|].
        apply seq_NoDup.
      * intros i Hi. apply initial_remaining_In in Hi.
        apply overlaps_self; [|exact Hthr].
        apply Hbox. unfold row_at. apply nth_In. exact Hi.
      * intros i j Hi Hj Hne. apply initial_remaining_In in Hi, Hj.
        unfold overlaps. apply Qlt_bool_false_iff.
        rewrite (jaccard1_apart _ _ (Hapart i j Hi Hj Hne)). exact Hthr0.
      * rewrite initial_remaining_length. exact Hfuel.
  - rewrite <- (map_row_at_seq detections) at 2.
    apply Permutation_map. apply initial_remaining_perm.
  - pose proof (initial_remaining_descending detections) as Hdesc.
    unfold descending in Hdesc.
    induction Hdesc as [|i l Hl IH Hall]; cbn [map]; constructor.
    + exact IH.
    + rewrite Forall_forall in *. intros d Hin.
      apply in_map_iff in Hin. destruct Hin as (j & <- & Hj).
      apply Hall. exact Hj.
Qed.

Lemma wnms_keeps_separate_detections_witness :
  exists out,
    _weighted_non_max_suppression 2
      [[0; 0; 1 # 4; 1 # 4; 0; 0; 0; 0; 0; 0; 0; 0; 0; 0; 0; 0; 6 # 10];
       [1 # 2; 1 # 2; 1; 1; 0; 0; 0; 0; 0; 0; 0; 0; 0; 0; 0; 0; 9 # 10]]
      (3 # 10) = Some out
    /\ Permutation out
         [[0; 0; 1 # 4; 1 # 4; 0; 0; 0; 0; 0; 0; 0; 0; 0; 0; 0; 0; 6 # 10];
          [1 # 2; 1 # 2; 1; 1; 0; 0; 0; 0; 0; 0; 0; 0; 0; 0; 0; 0; 9 # 10]]
    /\ StronglySorted (fun a b => col 16 b <= col 16 a) out.
Proof.
  destruct (wnms_keeps_separate_detections
    [[0; 0; 1 # 4; 1 # 4; 0; 0; 0; 0; 0; 0; 0; 0; 0; 0; 0; 0; 6 # 10];
     [1 # 2; 1 # 2; 1; 1; 0; 0; 0; 0; 0; 0; 0; 0; 0; 0; 0; 0; 9 # 10]]
    (3 # 10)) as (out & Hrun & Hperm & Hsort).
  - intros d [<-|[<-|[]]]; (split; [split; [split|]|]);
      try (vm_compute; discriminate);
      intros j Hj; destruct j as [|[|[|[|j]]]]; try lia; vm_compute; discriminate.
  - vm_compute. discriminate.
  - vm_compute. discriminate.
  - intros i j Hi Hj Hne. cbn [length] in Hi, Hj.
    destruct i as [|[|i]]; destruct j as [|[|j]]; try lia; cbv zeta.
    + left. vm_compute. discriminate.
    + right. left. vm_compute. discriminate.
  - exists out. split; [apply Hrun; cbn; lia|]. split; assumption.
Defined.


(** ** Decoded rows *)

Lemma decode_row_length (cfg : config) (anchor raw : row) :
  length (decode_row cfg anchor raw) = (16 + (length raw - 16))%nat.
Proof.
  unfold decode_row. cbv zeta. rewrite !length_app, repeat_length.
  reflexivity.
Qed.

Lemma firstn4_decode_row (cfg : config) (anchor raw : row) (tail : list Q) :
  let x_center := col 0 raw / x_scale cfg * col 2 anchor + col 0 anchor in
  let y_center := col 1 raw / y_scale cfg * col 3 anchor + col 1 anchor in
  let w := col 2 raw / w_scale cfg * col 2 anchor in
  let h := col 3 raw / h_scale cfg * col 3 anchor in
  firstn 4 (decode_row cfg anchor raw ++ tail)
  = [y_center - h / 2; x_center - w / 2; y_center + h / 2; x_center + w / 2].
Proof. reflexivity. Qed.

(** The decoded box has its corners in order and an area of at least
    1e-6 exactly when the scaled raw width and height are not negative
    and their product is at least 1e-6. *)
Lemma decode_row_boxed (cfg : config) (anchor raw : row) (tail : list Q) :
  let w := col 2 raw / w_scale cfg * col 2 anchor in
  let h := col 3 raw / h_scale cfg * col 3 anchor in
  boxed (decode_row cfg anchor raw ++ tail)
  <-> 0 <= w /\ 0 <= h /\ (1 # 1000000) <= w * h.
Proof.
  intros w h. unfold boxed, ordered, area.
  rewrite firstn4_decode_row. unfold col. cbn [nth]. fold (col 0 raw) (col 1 raw)
    (col 2 raw) (col 3 raw) (col 0 anchor) (col 1 anchor) (col 2 anchor) (col 3 anchor).
  fold w h.
  set (xc := col 0 raw / x_scale cfg * col 2 anchor + col 0 anchor).
  set (yc := col 1 raw / y_scale cfg * col 3 anchor + col 1 anchor).
  clearbody xc yc w h.
  unfold Qdiv. change (/ 2) with (1 # 2).
  assert (E : (yc + h * (1 # 2) - (yc - h * (1 # 2)))
              * (xc + w * (1 # 2) - (xc - w * (1 # 2))) == w * h) by ring.
  split.
  - intros [[H1 H2] H3]. rewrite E in H3. repeat split; lra.
  - intros (H1 & H2 & H3). rewrite E. repeat split; lra.
Qed.

(** ** Thresholding and the whole of [detect] *)

Lemma select_combine {A B : Type} (mask : list bool) (a : list A) (b : list B) :
  combine (select mask a) (select mask b) = select mask (combine a b).
Proof.
  revert a b. induction mask as [|m ms IH]; intros a b.
  - destruct a, b; reflexivity.
  - destruct a as [|x xs]; [destruct b; cbn; reflexivity|].
    destruct b as [|y ys].
    + cbn [select combine]. destruct m; [reflexivity|].
      destruct (select ms xs); reflexivity.
    + cbn [select combine]. destruct m; cbn [combine]; rewrite IH; reflexivity.
Qed.

Lemma select_length_le {A : Type} (mask : list bool) (a : list A) :
  (length (select mask a) <= length a)%nat.
Proof.
  revert a. induction mask as [|m ms IH]; intros [|x xs]; cbn [select length]; try lia.
  specialize (IH xs). destruct m; cbn [length]; lia.
Qed.

Lemma select_In {A : Type} (mask : list bool) (a : list A) (x : A) :
  In x (select mask a) ->
  exists i, nth_error mask i = Some true /\ nth_error a i = Some x.
Proof.
  revert a. induction mask as [|m ms IH]; intros [|y ys] Hin; cbn [select] in Hin;
    try contradiction.
  destruct m.
  - destruct Hin as [<-|Hin]; [exists 0%nat; split; reflexivity|].
    destruct (IH ys Hin) as (i & H1 & H2). exists (S i). split; assumption.
  - destruct (IH ys Hin) as (i & H1 & H2). exists (S i). split; assumption.
Qed.

Lemma nth_error_combine {A B : Type} (a : list A) (b : list B) (i : nat) (x : A) (y : B) :
  nth_error (combine a b) i = Some (x, y) ->
  nth_error a i = Some x /\ nth_error b i = Some y.
Proof.
  revert b i. induction a as [|x' xs IH]; intros [|y' ys] [|i] H; cbn in H;
    try discriminate.
  - injection H as -> ->. split; reflexivity.
  - cbn. apply IH. exact H.
Qed.

Section PostprocessFacts.
Variable exp : Q -> Q.
Hypothesis exp_pos : forall x, 0 < exp x.

(** [_sigmoid] takes its values strictly between 0 and 1. *)
Lemma sigmoid_range (x : Q) : 0 < _sigmoid exp x /\ _sigmoid exp x < 1.
Proof.
  unfold _sigmoid. pose proof (exp_pos (- x)) as He.
  split.
  - apply Qlt_shift_div_l; lra.
  - apply Qlt_shift_div_r; lra.
Qed.

(** The rows handed to the suppression: each is a decoded box of some
    anchor followed by that anchor's score, which reaches the
    threshold. *)
Lemma thresholded_rows (cfg : config) (anchors raw_boxes : list row)
    (raw_scores : list Q) (min_score_thresh : Q) (d : row) :
  let detection_scores :=
    map (_sigmoid exp)
        (map (fun s => np_clip s (- score_clipping_thresh cfg) (score_clipping_thresh cfg))
             raw_scores) in
  let mask := map (fun s => Qle_bool min_score_thresh s) detection_scores in
  let decoded := map (fun p => decode_row cfg (fst p) (snd p)) (combine anchors raw_boxes) in
  In d (map (fun p => fst p ++ [snd p])
            (combine (select mask decoded) (select mask detection_scores))) ->
  exists i a r x,
    nth_error anchors i = Some a /\ nth_error raw_boxes i = Some r
    /\ nth_error raw_scores i = Some x
    /\ let s := _sigmoid exp (np_clip x (- score_clipping_thresh cfg)
                                (score_clipping_thresh cfg)) in
       d = decode_row cfg a r ++ [s] /\ min_score_thresh <= s.
Proof.
  intros detection_scores mask decoded Hin.
  rewrite select_combine in Hin. apply in_map_iff in Hin.
  destruct Hin as ([b s] & <- & Hin). cbn [fst snd].
  apply select_In in Hin. destruct Hin as (i & Hm & Hc).
  apply nth_error_combine in Hc. destruct Hc as [Hb Hs].
  subst decoded. rewrite nth_error_map in Hb.
  destruct (nth_error (combine anchors raw_boxes) i) as [[a r]|] eqn:Hab;
    [|discriminate].
  cbn in Hb. injection Hb as <-.
  apply nth_error_combine in Hab. destruct Hab as [Ha Hr].
  subst detection_scores. rewrite !nth_error_map in Hs.
  destruct (nth_error raw_scores i) as [x|] eqn:Hx; [|discriminate].
  cbn in Hs. injection Hs as <-.
  subst mask. rewrite !nth_error_map, Hx in Hm. cbn in Hm.
  injection Hm as Hm. apply Qle_bool_iff in Hm.
  exists i, a, r, x. repeat split; assumption.
Qed.

Lemma postprocess_scores (cfg : config) (anchors : list row) (fuel : nat)
    (raw_boxes : list row) (raw_scores : list Q)
    (min_score_thresh nms_threshold : Q) (out : list row) :
  (forall r, In r raw_boxes -> length r = 16%nat) ->
  _postprocess exp cfg anchors fuel raw_boxes raw_scores min_score_thresh nms_threshold
  = Some (Ok out) ->
  (length out <= length raw_scores)%nat
  /\ forall d, In d out ->
       length d = 17%nat /\ min_score_thresh <= col 16 d /\ 0 <= col 16 d <= 1.
Proof.
  intros Hrows. unfold _postprocess. cbv zeta.
  set (detection_scores := map (_sigmoid exp) (map _ raw_scores)).
  set (mask := map _ detection_scores).
  unfold _decode_boxes.
  destruct (length raw_boxes =? length anchors)%nat; [|discriminate].
  set (decoded := map _ (combine anchors raw_boxes)).
  destruct (negb (length mask =? length decoded)%nat); [discriminate|].
  destruct (size (select mask decoded) =? 0)%nat.
  { intros H. injection H as <-. split; [cbn; lia | intros d []]. }
  set (detections := map _ (combine _ _)).
  destruct (_weighted_non_max_suppression fuel detections nms_threshold)
    as [res|] eqn:Hrun; [|discriminate].
  cbn [option_map]. intros H. injection H as <-.
  assert (Hd : forall d, In d detections ->
             length d = 17%nat /\ min_score_thresh <= col 16 d /\ 0 <= col 16 d <= 1).
  { intros d Hin.
    destruct (thresholded_rows cfg anchors raw_boxes raw_scores min_score_thresh d Hin)
      as (i & a & r & x & Ha & Hr & Hx & Hd).
    cbv zeta in Hd. destruct Hd as [-> Hs].
    assert (Hlen : length (decode_row cfg a r) = 16%nat).
    { rewrite decode_row_length, (Hrows r) by (eapply nth_error_In; exact Hr).
      reflexivity. }
    split; [rewrite length_app, Hlen; reflexivity|].
    unfold col. rewrite app_nth2 by lia. rewrite Hlen. cbn [Nat.sub nth].
    split; [exact Hs|].
    destruct (sigmoid_range (np_clip x (- score_clipping_thresh cfg)
                               (score_clipping_thresh cfg))). split; lra. }
  destruct (wnms_sound fuel detections nms_threshold res Hrun) as [Hlen _].
  split.
  - eapply Nat.le_trans; [exact Hlen|].
    subst detections. rewrite length_map, select_combine.
    eapply Nat.le_trans; [apply select_length_le|].
    rewrite length_combine. subst detection_scores. rewrite !length_map. lia.
  - intros d Hin.
    destruct (wnms_members fuel detections nms_threshold res Hrun d Hin)
      as (c & ov & Hc & Hov & ->).
    assert (Hm : forall i, In i ov ->
               length (row_at i detections) = 17%nat
               /\ min_score_thresh <= col 16 (row_at i detections)
               /\ 0 <= col 16 (row_at i detections) <= 1)
      by (intros i Hi; apply Hd, row_at_In, Hov, Hi).
    split; [|split].
    + apply weighted_detection_length; [apply Hm, Hc | intros i Hi; apply Hm, Hi].
    + apply (weighted_detection_score_range detections c ov min_score_thresh 1);
        [exact Hc | intros i Hi; apply Hm, Hi|].
      intros i Hi. destruct (Hm i Hi) as (_ & ? & _ & ?). split; assumption.
    + apply (weighted_detection_score_range detections c ov 0 1);
        [exact Hc | intros i Hi; apply Hm, Hi|].
      intros i Hi. apply Hm, Hi.
Qed.

(** X16.  With a positive exponential, raw box rows of 16 columns and
    at most 896 anchor scores, whenever [detect] returns a list, it has
    at most as many detections as there are anchor scores, and the
    score of each lies in [0, 1] and is at least the score threshold in
    force (the argument, or the configured [min_score_thresh] when the
    argument is [None]) less one thousandth.  (On exact numbers the
    score is at least the threshold itself; the code compares with the
    float32 rounding of the threshold, float32(0.65) being below 0.65,
    and rounds the mean of merged scores, and one thousandth covers
    both.) *)
Theorem detect_scores_reach_threshold
    (cfg : config) (anchors : list row) (fuel : nat) (width height : Z)
    (raw_boxes : list row) (raw_scores : list Q)
    (score_threshold nms_threshold : option Q) (results : list Detection) :
  (forall r, In r raw_boxes -> length r = 16%nat) ->
  (length raw_scores <= 896)%nat ->
  detect exp cfg anchors fuel width height raw_boxes raw_scores
    score_threshold nms_threshold = Some (Ok results) ->
  let score_thresh :=
    match score_threshold with Some t => t | None => min_score_thresh cfg end in
  (length results <= length raw_scores)%nat
  /\ forall D, In D results ->
       score_thresh - (1 # 1000) <= score D /\ 0 <= score D <= 1.
Proof.
  intros Hrows _ Hrun score_thresh. unfold detect in Hrun. cbv zeta in Hrun.
  fold score_thresh in Hrun.
  destruct (_postprocess exp cfg anchors fuel raw_boxes raw_scores score_thresh _)
    as [[out|e]|] eqn:Hpost; try discriminate.
  injection Hrun as <-.
  destruct (postprocess_scores _ _ _ _ _ _ _ _ Hrows Hpost) as [Hlen Hout].
  unfold detect_results. rewrite length_map. split; [exact Hlen|].
  intros D HD. apply in_map_iff in HD. destruct HD as (d & <- & Hd).
  destruct (Hout d Hd) as (_ & H1 & H2).
  unfold detect_one. cbv zeta. cbn [score]. split; [lra | exact H2].
Qed.

End PostprocessFacts.

Lemma detect_scores_reach_threshold_witness :
  let exp := fun x : Q => 2 ^ Qfloor x in
  let raw : row := [0; 0; 64; 64; 0; 0; 0; 0; 0; 0; 0; 0; 0; 0; 0; 0] in
  exists D,
    detect exp (init false) [[1 # 2; 1 # 2; 1; 1]; [1 # 2; 1 # 2; 1; 1]] 2 640 480
      [raw; raw] [3; -3] None None = Some (Ok [D])
    /\ (25 # 100) - (1 # 1000) <= score D /\ 0 <= score D <= 1.
Proof.
  intros exp raw.
  destruct (detect exp (init false) [[1 # 2; 1 # 2; 1; 1]; [1 # 2; 1 # 2; 1; 1]]
              2 640 480 [raw; raw] [3; -3] None None)
    as [[results|e]|] eqn:Hrun; try (vm_compute in Hrun; discriminate).
  assert (Hone : length results = 1%nat).
  { vm_compute in Hrun. injection Hrun as <-. reflexivity. }
  destruct results as [|D [|]]; try discriminate.
  exists D. split; [reflexivity|].
  destruct (detect_scores_reach_threshold exp
              (fun x => Qpower_0_lt 2 (Qfloor (x)) eq_refl)
              (init false) [[1 # 2; 1 # 2; 1; 1]; [1 # 2; 1 # 2; 1; 1]] 2 640 480
              [raw; raw] [3; -3] None None [D]) as [_ H].
  - intros r [<-|[<-|[]]]; reflexivity.
  - cbn [length]. lia.
  - exact Hrun.
  - apply H. left. reflexivity.
Defined.

(** X18.  [detect] returns on well-formed detector output.  Take the
    configuration of either model, box and score arrays with one row
    per anchor, a score threshold in force of at least 1e-6 and a
    suppression threshold in force of at most 0.999999, and let every
    anchor have entries in [0, 1], a raw row of 16 columns with entries
    of at most 1024 in magnitude, and a scaled raw width and height of
    at least 0.01 each.  Then [detect] returns the same list of at most
    [length anchors] detections for every iteration bound of at least
    [length anchors].  (The bounds keep the float32 computation of the
    code on the same side of every comparison: no product overflows, a
    passing score is positive, a decoded box keeps an area far above
    1e-6 and its IoU with itself exceeds the rounded threshold.) *)
Theorem detect_returns (exp : Q -> Q)
    (back_model : bool) (anchors : list row) (width height : Z)
    (raw_boxes : list row) (raw_scores : list Q)
    (score_threshold nms_threshold : option Q) :
  let cfg := init back_model in
  let score_thresh :=
    match score_threshold with Some t => t | None => min_score_thresh cfg end in
  let nms_thresh :=
    match nms_threshold with Some t => t | None => min_suppression_threshold cfg end in
  length raw_boxes = length anchors ->
  length raw_scores = length anchors ->
  1 # 1000000 <= score_thresh ->
  nms_thresh <= 999999 # 1000000 ->
  (forall i, (i < length anchors)%nat ->
     let a := row_at i anchors in
     let r := row_at i raw_boxes in
     length r = 16%nat
     /\ (forall j, (j < 16)%nat -> Qabs (col j r) <= 1024)
     /\ (forall j, (j < 4)%nat -> 0 <= col j a <= 1)
     /\ 1 # 100 <= col 2 r / w_scale cfg * col 2 a
     /\ 1 # 100 <= col 3 r / h_scale cfg * col 3 a) ->
  exists results,
    (length results <= length anchors)%nat
    /\ forall fuel, (length anchors <= fuel)%nat ->
         detect exp cfg anchors fuel width height raw_boxes raw_scores
           score_threshold nms_threshold = Some (Ok results).
Proof.
  intros cfg score_thresh nms_thresh Hb Hs _ Hmargin Hraw.
  assert (Hthr : nms_thresh < 1) by lra.
  unfold detect, _postprocess, _decode_boxes. cbv zeta.
  fold score_thresh nms_thresh.
  rewrite Hb, Nat.eqb_refl.
  set (detection_scores := map (_sigmoid exp) (map _ raw_scores)).
  set (mask := map _ detection_scores).
  set (decoded := map _ (combine anchors raw_boxes)).
  assert (Hlm : length mask = length decoded).
  { subst mask decoded detection_scores.
    rewrite !length_map, length_combine, Hb, Hs, Nat.min_id. reflexivity. }
  rewrite Hlm, Nat.eqb_refl. cbn [negb].
  destruct (size (select mask decoded) =? 0)%nat.
  { exists []. split; [cbn; lia | intros; reflexivity]. }
  set (detections := map _ (combine _ _)).
  assert (Hlen : (length detections <= length anchors)%nat).
  { subst detections. rewrite length_map, select_combine.
    eapply Nat.le_trans; [apply select_length_le|].
    rewrite length_combine. subst decoded.
    rewrite length_map, length_combine. lia. }
  destruct (wnms_returns detections nms_thresh) as (out & Hout).
  - intros d Hin. subst detections.
    rewrite select_combine in Hin. apply in_map_iff in Hin.
    destruct Hin as ([b s] & <- & Hin). cbn [fst snd].
    apply select_In in Hin. destruct Hin as (i & _ & Hc).
    apply nth_error_combine in Hc. destruct Hc as [Hbx _].
    subst decoded. rewrite nth_error_map in Hbx.
    destruct (nth_error (combine anchors raw_boxes) i) as [[a r]|] eqn:Hab;
      [|discriminate].
    cbn in Hbx. injection Hbx as <-.
    apply nth_error_combine in Hab. destruct Hab as [Ha Hr].
    apply decode_row_boxed.
    assert (Hi : (i < length anchors)%nat)
      by (apply nth_error_Some; rewrite Ha; discriminate).
    specialize (Hraw i Hi). cbv zeta in Hraw.
    unfold row_at in Hraw.
    rewrite (nth_error_nth _ _ _ Ha), (nth_error_nth _ _ _ Hr) in Hraw.
    destruct Hraw as (_ & _ & _ & Hw & Hh).
    fold cfg.
    set (w := col 2 r / w_scale cfg * col 2 a) in *.
    set (h := col 3 r / h_scale cfg * col 3 a) in *.
    clearbody w h. repeat split; nra.
  - exact Hthr.
  - exists (detect_results width height out). split.
    + unfold detect_results. rewrite length_map.
      destruct (wnms_sound (length detections) detections nms_thresh out
                  (Hout _ (le_n _))) as [Hle _].
      eapply Nat.le_trans; [exact Hle | exact Hlen].
    + intros fuel Hfuel.
      rewrite (Hout fuel) by (eapply Nat.le_trans; [exact Hlen | exact Hfuel]).
      reflexivity.
Qed.

Lemma detect_returns_witness :
  let raw : row := [0; 0; 64; 64; 0; 0; 0; 0; 0; 0; 0; 0; 0; 0; 0; 0] in
  exists results,
    detect (fun x => 2 ^ Qfloor x) (init false)
      [[1 # 2; 1 # 2; 1; 1]; [1 # 2; 1 # 2; 1; 1]] 2 640 480
      [raw; raw] [3; -3] None None = Some (Ok results).
Proof.
  intros raw.
  destruct (detect_returns (fun x => 2 ^ Qfloor x) false
              [[1 # 2; 1 # 2; 1; 1]; [1 # 2; 1 # 2; 1; 1]] 640 480
              [raw; raw] [3; -3] None None) as (results & _ & Hrun).
  - reflexivity.
  - reflexivity.
  - vm_compute. discriminate.
  - vm_compute. discriminate.
  - intros i Hi. cbn [length] in Hi.
    assert (Hcols : forall j, (j < 16)%nat -> Qabs (col j raw) <= 1024).
    { intros j Hj. do 16 (destruct j as [|j]; [vm_compute; discriminate|]). lia. }
    assert (Hanchor : forall j, (j < 4)%nat ->
              0 <= col j [1 # 2; 1 # 2; 1; 1] <= 1).
    { intros j Hj.
      do 4 (destruct j as [|j]; [split; vm_compute; discriminate|]). lia. }
    destruct i as [|[|i]]; [| |lia]; cbv zeta;
      (split; [reflexivity|]); (split; [exact Hcols|]);
      (split; [exact Hanchor|]); split; vm_compute; discriminate.
  - exists results. apply Hrun. cbn [length]. lia.
Defined.

(** ** When [detect] never returns *)








End FaceDetectionMore.

(** ** Aggregation: the response of the default configuration *)

Module StreamingFaceAnalysisMore.
Import StreamingFaceAnalysis.
Import StreamingFaceAnalysisFacts.

(** One record under the default configuration, in which no label
    list is set. *)
Lemma aggregate_one_default
    (gender_age_results : list (string * string))
    (emotion_results : list EmotionPredictor.emotion_result)
    (idx : nat) (det : FaceDetection.Detection) :
  aggregate_one None gender_age_results emotion_results idx det
  = Ok (mkAggregated
          (FaceDetection.box det) (FaceDetection.score det)
          (FaceDetection.keypoints det)
          (option_map fst (nth_error gender_age_results idx))
          (option_map snd (nth_error gender_age_results idx))
          (option_map (fun r => fst (fst r)) (nth_error emotion_results idx))
          (option_map (fun r => snd (fst r)) (nth_error emotion_results idx))
          (option_map snd (nth_error emotion_results idx))).
Proof.
  unfold aggregate_one.
  destruct (Nat.ltb_spec idx (length gender_age_results)) as [Hg|Hg];
    destruct (Nat.ltb_spec idx (length emotion_results)) as [He|He].
  - destruct (nth_error gender_age_results idx) as [[g a]|] eqn:Eg;
      [|apply nth_error_None in Eg; lia].
    destruct (nth_error emotion_results idx) as [[[l c] d]|] eqn:Ee;
      [|apply nth_error_None in Ee; lia].
    rewrite (nth_error_nth _ _ _ Eg), (nth_error_nth _ _ _ Ee). reflexivity.
  - destruct (nth_error gender_age_results idx) as [[g a]|] eqn:Eg;
      [|apply nth_error_None in Eg; lia].
    apply nth_error_None in He. rewrite He.
    rewrite (nth_error_nth _ _ _ Eg). reflexivity.
  - apply nth_error_None in Hg. rewrite Hg.
    destruct (nth_error emotion_results idx) as [[[l c] d]|] eqn:Ee;
      [|apply nth_error_None in Ee; lia].
    rewrite (nth_error_nth _ _ _ Ee). reflexivity.
  - apply nth_error_None in Hg. apply nth_error_None in He. rewrite Hg, He.
    reflexivity.
Qed.

(** The response under the default configuration, face by face. *)
Lemma analyze_response_faces
    (gender_age_results : list (string * string))
    (emotion_results : list EmotionPredictor.emotion_result)
    (detections : list FaceDetection.Detection) :
  exists faces,
    analyze_response None gender_age_results emotion_results detections = Ok faces
    /\ length faces = length detections
    /\ forall idx det, nth_error detections idx = Some det ->
         nth_error faces idx
         = Some (mkFaceDict
                   (FaceDetection.box det) (FaceDetection.score det)
                   (FaceDetection.keypoints det)
                   (option_map fst (nth_error gender_age_results idx))
                   (option_map snd (nth_error gender_age_results idx))
                   (option_map (fun r => (fst (fst r), Some (snd (fst r)), Some (snd r)))
                               (nth_error emotion_results idx))).
Proof.
  assert (Hres : forall r, In r emotion_results -> resolvable None r)
    by (intros r _; left; reflexivity).
  destruct (analyze_faces_ok None gender_age_results emotion_results Hres detections)
    as (aggregated & Hrun & Hlen & Hnth).
  exists (map as_dict aggregated). unfold analyze_response. rewrite Hrun.
  cbn [bind]. split; [reflexivity|]. split; [rewrite length_map; exact Hlen|].
  intros idx det Hd. destruct (Hnth idx det Hd) as (r & Hr & Hagg).
  rewrite aggregate_one_default in Hagg. injection Hagg as <-.
  rewrite nth_error_map, Hr. cbn [option_map]. f_equal.
  unfold as_dict. cbn [bbox score keypoints gender age_bucket emotion_label
                       emotion_confidence emotion_distribution].
  destruct (nth_error emotion_results idx) as [[[l c] d]|]; reflexivity.
Qed.

(** X19.  The response of [analyze] under the default configuration
    (no label list, which is what the service uses), for any lists the
    two classifiers may return: it never raises, it has one dictionary
    per detection, in order, and dictionary [idx] carries the
    detection's box, score and keypoints, the gender and age bucket of
    entry [idx] of the gender/age list, and the label, confidence and
    distribution of entry [idx] of the emotion list; a key whose list
    has no entry [idx] is [None]. *)
Theorem analyze_response_default
    (gender_age_results : list (string * string))
    (emotion_results : list EmotionPredictor.emotion_result)
    (detections : list FaceDetection.Detection) :
  exists faces,
    analyze_response None gender_age_results emotion_results detections = Ok faces
    /\ length faces = length detections
    /\ forall idx det, nth_error detections idx = Some det ->
         exists face,
           nth_error faces idx = Some face
           /\ dict_bbox face = FaceDetection.box det
           /\ dict_score face = FaceDetection.score det
           /\ dict_keypoints face = FaceDetection.keypoints det
           /\ dict_gender face = option_map fst (nth_error gender_age_results idx)
           /\ dict_age_bucket face = option_map snd (nth_error gender_age_results idx)
           /\ dict_emotion face
              = option_map (fun r => (fst (fst r), Some (snd (fst r)), Some (snd r)))
                           (nth_error emotion_results idx).
Proof.
  destruct (analyze_response_faces gender_age_results emotion_results detections)
    as (faces & Hrun & Hlen & Hnth).
  exists faces. split; [exact Hrun|]. split; [exact Hlen|].
  intros idx det Hd. eexists. split; [apply Hnth; exact Hd|].
  cbn. repeat split; reflexivity.
Qed.

Lemma analyze_response_default_witness :
  let det := FaceDetection.mkDetection (10, 10, 90, 90)%Z (9 # 10) [] in
  exists faces face,
    analyze_response None [("male", "19-36")%string] [] [det; det] = Ok faces
    /\ nth_error faces 1 = Some face
    /\ dict_bbox face = (10, 10, 90, 90)%Z
    /\ dict_gender face = None
    /\ dict_emotion face = None.
Proof.
  intros det.
  destruct (analyze_response_default [("male", "19-36")%string] [] [det; det])
    as (faces & Hrun & _ & Hnth).
  destruct (Hnth 1%nat det eq_refl) as (face & Hf & Hb & _ & _ & Hg & _ & He).
  exists faces, face. repeat split; assumption.
Defined.

(** The labels of one gender/age row. *)
Lemma gender_age_row_labels (pred : list Q) (g a : string) :
  GenderAgePredictor.postprocess_row pred = Ok (g, a) ->
  In g GenderAgePredictor.classes /\ In a GenderAgePredictor.age_range.
Proof.
  destruct pred as [|x [|y [|z rest]]]; try (cbn; discriminate).
  - cbn. destruct (Qlt_bool x y); discriminate.
  - rewrite GenderAgePredictorFacts.postprocess_row_ok. intros H.
    injection H as <- <-. split.
    + destruct (Qlt_bool x y); cbn; auto.
    + destruct (Qle_bool _ _); [cbn; auto|].
      destruct (Qle_bool _ _); [cbn; auto|].
      destruct (Qle_bool _ _); cbn; auto.
Qed.

(** X20.  The three stages together, under the default configuration.
    When the gender/age and emotion post-processing return without
    raising, the response has one dictionary per detection; a gender
    that is present is "female" or "male", an age bucket that is present
    is one of the four ranges, and an emotion that is present has a
    confidence, a distribution and, as label, the name of one of the
    seven emotion classes. *)
Theorem response_fields_from_predictors (exp : Q -> Q)
    (gender_age_outputs emotion_outputs : list (list Q))
    (gender_age_results : list (string * string))
    (emotion_results : list EmotionPredictor.emotion_result)
    (detections : list FaceDetection.Detection) :
  GenderAgePredictor.postprocess gender_age_outputs = Ok gender_age_results ->
  EmotionPredictor.postprocess exp emotion_outputs = Ok emotion_results ->
  exists faces,
    analyze_response None gender_age_results emotion_results detections = Ok faces
    /\ length faces = length detections
    /\ forall face, In face faces ->
         (forall g, dict_gender face = Some g -> In g GenderAgePredictor.classes)
         /\ (forall a, dict_age_bucket face = Some a ->
               In a GenderAgePredictor.age_range)
         /\ (forall e, dict_emotion face = Some e ->
               exists name confidence distribution,
                 e = (PyStr name, Some confidence, Some distribution)
                 /\ In name EmotionPredictor.classes).
Proof.
  intros Hga Hemo.
  destruct (analyze_response_faces gender_age_results emotion_results detections)
    as (faces & Hrun & Hlen & Hnth).
  exists faces. split; [exact Hrun|]. split; [exact Hlen|].
  intros face Hin. apply In_nth_error in Hin. destruct Hin as [idx Hidx].
  assert (Hlt : (idx < length detections)%nat)
    by (rewrite <- Hlen; apply nth_error_Some; rewrite Hidx; discriminate).
  destruct (nth_error detections idx) as [det|] eqn:Hdet;
    [|apply nth_error_None in Hdet; lia].
  rewrite (Hnth idx det Hdet) in Hidx. injection Hidx as <-.
  cbn [dict_gender dict_age_bucket dict_emotion].
  assert (Hpair : forall p, nth_error gender_age_results idx = Some p ->
            In (fst p) GenderAgePredictor.classes
            /\ In (snd p) GenderAgePredictor.age_range).
  { intros [g a] Hp. apply nth_error_In in Hp.
    destruct (mapM_ok_In _ _ _ Hga _ Hp) as (pred & _ & Hrow).
    apply (gender_age_row_labels pred). exact Hrow. }
  split; [|split].
  - intros g Hg. destruct (nth_error gender_age_results idx) as [p|];
      [|discriminate].
    injection Hg as <-. apply Hpair. reflexivity.
  - intros a Ha. destruct (nth_error gender_age_results idx) as [p|];
      [|discriminate].
    injection Ha as <-. apply Hpair. reflexivity.
  - intros e He. destruct (nth_error emotion_results idx) as [[[l c] d]|] eqn:Hr;
      [|discriminate].
    injection He as <-. cbn [fst snd].
    apply nth_error_In in Hr.
    unfold EmotionPredictor.postprocess in Hemo.
    destruct (EmotionPredictor.size emotion_outputs =? 0)%nat.
    + injection Hemo as <-. destruct Hr.
    + destruct (mapM_ok_In _ _ _ Hemo _ Hr) as (prob & _ & Hrow).
      destruct (EmotionPredictorFacts.postprocess_row_label_is_str prob _ Hrow)
        as (name & Hname & Hcls).
      cbn [fst] in Hname. subst l. exists name, c, d. split; [reflexivity | exact Hcls].
Qed.

Lemma response_fields_from_predictors_witness :
  let exp := fun x : Q => 2 ^ Qfloor x in
  let det := FaceDetection.mkDetection (10, 10, 90, 90)%Z (9 # 10) [] in
  exists face,
    analyze_response None
      [("male", "19-36")%string]
      [(PyStr "neutral", 1 # 7, [1#7; 1#7; 1#7; 1#7; 1#7; 1#7; 1#7])] [det]
    = Ok [face]
    /\ dict_gender face = Some "male"%string
    /\ forall e, dict_emotion face = Some e ->
         exists name confidence distribution,
           e = (PyStr name, Some confidence, Some distribution)
           /\ In name EmotionPredictor.classes.
Proof.
  intros exp det.
  destruct (response_fields_from_predictors exp
              [[2#10; 8#10; 30#100]] [[0; 0; 0; 0; 0; 0; 0]]
              [("male", "19-36")%string]
              [(PyStr "neutral", 1 # 7, [1#7; 1#7; 1#7; 1#7; 1#7; 1#7; 1#7])]
              [det]) as (faces & Hrun & Hlen & Hall).
  - vm_compute. reflexivity.
  - vm_compute. reflexivity.
  - destruct faces as [|face [|]]; try discriminate.
    exists face. split; [exact Hrun|].
    assert (Hg : dict_gender face = Some "male"%string).
    { vm_compute in Hrun. injection Hrun as <-. reflexivity. }
    split; [exact Hg|].
    apply Hall. left. reflexivity.
Defined.

End StreamingFaceAnalysisMore.

(** ** Emotion classifier: from logits to the reported class *)

Module EmotionPredictorLogits.
Import EmotionPredictor.
Import EmotionPredictorMore.

(** [np.argmax] does not change under a strictly increasing map. *)
Lemma argmax_from_map (f : Q -> Q) :
  (forall x y, Qlt_bool (f x) (f y) = Qlt_bool x y) ->
  forall l best bestv i,
    argmax_from best (f bestv) i (map f l) = argmax_from best bestv i l.
Proof.
  intros Hf. induction l as [|x t IH]; intros best bestv i; [reflexivity|].
  cbn [map argmax_from]. rewrite Hf.
  destruct (Qlt_bool bestv x); apply IH.
Qed.

Lemma np_argmax_map (f : Q -> Q) (l : list Q) :
  (forall x y, Qlt_bool (f x) (f y) = Qlt_bool x y) ->
  np_argmax (map f l) = np_argmax l.
Proof.
  intros Hf. destruct l as [|x t]; [reflexivity|].
  cbn [map np_argmax]. rewrite (argmax_from_map f Hf). reflexivity.
Qed.

Section Logits.
Variable exp : Q -> Q.
Hypothesis exp_pos : forall x, 0 < exp x.
Hypothesis exp_mono : forall x y, x <= y -> exp x <= exp y.
Hypothesis exp_strict : forall x y, x < y -> exp x < exp y.

(** The softmax row as one map over the logits. *)
Lemma softmax_row_map (logits : list Q) :
  logits <> [] ->
  exists m s,
    0 < s
    /\ softmax_row exp logits = map (fun x => exp (x - m) / s) logits
    /\ np_sum (softmax_row exp logits) == 1
    /\ forall p, In p (softmax_row exp logits) -> 0 < p.
Proof.
  intros Hne. unfold softmax_row.
  set (m := np_max logits).
  set (e := map exp (map (fun x => x - m) logits)).
  assert (Hpos : forall x, In x e -> 0 < x).
  { intros x Hx. subst e. apply in_map_iff in Hx.
    destruct Hx as (y & <- & _). apply exp_pos. }
  assert (Hene : e <> []).
  { subst e. destruct logits; [congruence | discriminate]. }
  pose proof (np_sum_pos e Hene Hpos) as Hs.
  exists m, (np_sum e). split; [exact Hs|]. split; [|split].
  - subst e. rewrite !map_map. reflexivity.
  - rewrite np_sum_map_div. field. lra.
  - intros p Hp. apply in_map_iff in Hp. destruct Hp as (x & <- & Hx).
    pose proof (Hpos x Hx). apply Qlt_shift_div_l; lra.
Qed.

(** X21.  From logits to the reported class.  Take an exponential that
    is positive and strictly increasing, and one non-empty row of at
    most seven logits in which every logit either equals the largest
    one or is at least 0.001 below it.  Then [postprocess] returns one
    result whose distribution is the softmax of the row and whose
    confidence is the softmax entry at the first position of the
    largest logit: the softmax does not move the argmax.  The
    confidence is at least [1 / n] for a row of [n] logits and at most
    1; the label is the class name at that position when the confidence
    is at least 0.51, and "neutral" when it is at most 0.49.  (Logits
    closer than 0.001 can tie after the float32 exponential, and a
    confidence between 0.49 and 0.51 can land on either side of 0.5
    after rounding: nothing is stated there.) *)
Theorem postprocess_reports_argmax_of_logits (logits : list Q) :
  logits <> [] ->
  (length logits <= 7)%nat ->
  (forall x, In x logits ->
     x == np_max logits \/ x <= np_max logits - (1 # 1000)) ->
  exists label name confidence,
    postprocess exp [logits]
      = Ok [(PyStr name, confidence, softmax_row exp logits)]
    /\ np_argmax logits = Ok label
    /\ confidence = nth label (softmax_row exp logits) 0
    /\ 1 / inject_Z (Z.of_nat (length logits)) <= confidence
    /\ confidence <= 1
    /\ (51 # 100 <= confidence -> nth_error classes label = Some name)
    /\ (confidence <= 49 # 100 -> name = "neutral"%string).
Proof.
  intros Hne Hlen _.
  destruct (softmax_row_map logits Hne) as (m & s & Hs & Hmap & Hsum & Hpos).
  set (probability := softmax_row exp logits) in *.
  assert (Hf : forall x y,
            Qlt_bool (exp (x - m) / s) (exp (y - m) / s) = Qlt_bool x y).
  { intros x y.
    assert (Hinv : 0 < / s) by (apply Qinv_lt_0_compat; exact Hs).
    case_Qlt x y.
    - apply Qlt_bool_iff. unfold Qdiv.
      assert (exp (x - m) < exp (y - m)) by (apply exp_strict; lra). nra.
    - apply Qlt_bool_false_iff. unfold Qdiv.
      assert (exp (y - m) <= exp (x - m)) by (apply exp_mono; lra). nra. }
  assert (Harg : np_argmax probability = np_argmax logits).
  { rewrite Hmap. apply (np_argmax_map (fun x => exp (x - m) / s)). exact Hf. }
  assert (Hlp : length probability = length logits) by (rewrite Hmap; apply length_map).
  destruct (np_argmax logits) as [label|e] eqn:Ha.
  2:{ destruct logits; [congruence | discriminate]. }
  destruct (np_argmax_max _ _ Harg) as (Hl & Hmax & _).
  set (confidence := nth label probability 0).
  assert (Hin : In confidence probability) by (apply nth_In; exact Hl).
  assert (Hle1 : confidence <= 1).
  { rewrite <- Hsum. apply np_sum_ge_member; assumption. }
  assert (Hge : 1 / inject_Z (Z.of_nat (length logits)) <= confidence).
  { destruct (FaceDetectionMore.np_sum_bounds probability 0 confidence) as [_ Hub].
    { intros p Hp. split; [apply Qlt_le_weak, Hpos, Hp | apply Hmax, Hp]. }
    rewrite Hlp in Hub.
    assert (Hn : 0 < inject_Z (Z.of_nat (length logits))).
    { change 0 with (inject_Z 0). rewrite <- Zlt_Qlt.
      destruct logits; [congruence | cbn [length]; lia]. }
    apply Qle_shift_div_r; [exact Hn|]. lra. }
  assert (Hrun : postprocess exp [logits]
                 = (r <- postprocess_row probability ;; Ok [r])).
  { unfold postprocess.
    assert (Hsz : (size [logits] =? 0)%nat = false).
    { apply Nat.eqb_neq. cbn [size fold_right].
      destruct logits; [congruence | cbn [length]; lia]. }
    rewrite Hsz. cbn [map mapM]. fold probability.
    destruct (postprocess_row probability); reflexivity. }
  rewrite Hrun. unfold postprocess_row. rewrite Harg. cbn [bind].
  fold confidence.
  case_Qlt confidence (1 # 2).
  - exists label, "neutral"%string, confidence.
    rewrite EmotionPredictorFacts.classes_last. cbn [bind].
    repeat split; auto. intros; lra.
  - assert (Hrange : (0 <= Z.of_nat label < Z.of_nat (length classes))%Z)
      by (cbn [classes length]; lia).
    rewrite (py_getitem_in_range classes _ EmptyString Hrange). cbn [bind].
    rewrite Nat2Z.id.
    exists label, (nth label classes EmptyString), confidence.
    repeat split; auto.
    + intros _. apply nth_error_nth'. cbn [classes length]. lia.
    + intros; lra.
Qed.

End Logits.

Lemma postprocess_reports_argmax_of_logits_witness :
  let exp := fun x : Q => if Qlt_bool x 0 then 1 / (1 - x) else 1 + x in
  exists label name confidence,
    postprocess exp [[0; 3; -1]]
      = Ok [(PyStr name, confidence, softmax_row exp [0; 3; -1])]
    /\ np_argmax [0; 3; -1] = Ok label
    /\ 1 / inject_Z (Z.of_nat 3) <= confidence.
Proof.
  intros exp.
  assert (Hneg : forall x, x < 0 -> 0 < 1 / (1 - x) /\ 1 / (1 - x) < 1).
  { intros x Hx. split.
    - apply Qlt_shift_div_l; lra.
    - apply Qlt_shift_div_r; lra. }
  assert (Hinv : forall x y, x < y -> y < 0 -> 1 / (1 - x) < 1 / (1 - y)).
  { intros x y Hxy Hy.
    apply Qlt_shift_div_l; [lra|].
    assert (E : 1 / (1 - x) * (1 - y) == (1 - y) / (1 - x)) by (field; lra).
    rewrite E. apply Qlt_shift_div_r; lra. }
  assert (Hstrict : forall x y, x < y -> exp x < exp y).
  { intros x y Hxy. unfold exp.
    case_Qlt x 0; case_Qlt y 0.
    - apply Hinv; assumption.
    - destruct (Hneg x E). lra.
    - lra.
    - lra. }
  assert (Hcompat : forall x y, x == y -> exp x == exp y).
  { intros x y Hxy. unfold exp.
    case_Qlt x 0; case_Qlt y 0; try lra.
    rewrite Hxy. reflexivity. }
  destruct (postprocess_reports_argmax_of_logits exp)
    with (logits := [0; 3; -1]) as (label & name & confidence & H1 & H2 & _ & H4 & _).
  - intros x. unfold exp. case_Qlt x 0; [apply Hneg; exact E | lra].
  - intros x y Hxy. destruct (Qlt_le_dec x y) as [Hlt|Hge].
    + apply Qlt_le_weak, Hstrict, Hlt.
    + assert (Heq : x == y) by lra. rewrite (Hcompat x y Heq). lra.
  - exact Hstrict.
  - discriminate.
  - cbn [length]. lia.
  - intros x [<-|[<-|[<-|[]]]].
    + right. vm_compute. discriminate.
    + left. vm_compute. reflexivity.
    + right. vm_compute. discriminate.
  - exists label, name, confidence. repeat split; assumption.
Defined.

End EmotionPredictorLogits.
